(** * patch-app-identity: a verification development

    A shallow embedding of [scripts/ci/patch-app-identity.mjs], the
    build-time script that rebrands the application template, together
    with the properties of it that the specification states.

    The script is sequential Node.js code: it reads a few environment
    variables, then for each of four files reads the file, rewrites it
    with [String.prototype.replace] / [replaceAll] (or through
    [JSON.parse] / [JSON.stringify]) and writes it back when the text
    changed.  The embedding has four layers:

    - [JsString]: JavaScript strings as lists of UTF-16 code units,
      with [trim], [includes], [indexOf] and the like;
    - [RegExp]: the backtracking matcher of ECMAScript for the pattern
      constructs the script uses, [RegExp.prototype.test],
      [String.prototype.replace] with a template or a function, and
      [replaceAll] with a string pattern;
    - [Json]: [JSON.parse] and [JSON.stringify (_, null, 2)];
    - [Node]: the environment, the file system and the console as an
      explicit world threaded through a state-and-exception monad.

    The program itself is in [Patch]; each definition there carries the
    name of the function it embeds.  After the definitions come the
    vocabulary of the statements and a repository of the template to
    run the script on, then facts about the matcher and about the
    script's patterns, then the claims of the specification, C1 to
    C10, each with the theorem that settles it. *)

From Stdlib Require Import NArith ZArith List Bool Ascii String Lia.
From stdpp Require Import base option list strings gmap.

(* ================================================================== *)
(** * JavaScript strings *)
(* ================================================================== *)

Module JsString.

(** A JavaScript string is a sequence of UTF-16 code units. *)
Definition char := N.
Bind Scope N_scope with char.
Abbreviation jsstring := (list char) (only parsing).

Definition ch (a : ascii) : char := N_of_ascii a.

(** An ASCII literal of the source as a JavaScript string. *)
Definition str (s : string) : jsstring := map ch (list_ascii_of_string s).

Definition char_eqb (a b : char) : bool := N.eqb a b.

Definition in_range (lo hi c : char) : bool := (N.leb lo c && N.leb c hi)%bool.

(** WhiteSpace and LineTerminator of ECMAScript: what [\s] matches and
    what [trim] strips. *)
Definition isSpace (c : char) : bool :=
  in_range 9 13 c || char_eqb c 32 || char_eqb c 160 || char_eqb c 5760
  || in_range 8192 8202 c || char_eqb c 8232 || char_eqb c 8233
  || char_eqb c 8239 || char_eqb c 8287 || char_eqb c 12288
  || char_eqb c 65279.

(** Line terminators, for [^] and [$] under the [m] flag. *)
Definition isLineTerminator (c : char) : bool :=
  char_eqb c 10 || char_eqb c 13 || char_eqb c 8232 || char_eqb c 8233.

(** IsWordChar, for [\b]: the characters [A-Za-z0-9_]. *)
Definition isWordChar (c : char) : bool :=
  in_range 97 122 c || in_range 65 90 c || in_range 48 57 c || char_eqb c 95.

Fixpoint eqb (s t : jsstring) : bool :=
  match s, t with
  | [], [] => true
  | a :: s', b :: t' => char_eqb a b && eqb s' t'
  | _, _ => false
  end.

(** [strip_prefix p s] is [Some t] when [s = p ++ t]. *)
Fixpoint strip_prefix (p s : jsstring) : option jsstring :=
  match p with
  | [] => Some s
  | a :: p' =>
      match s with
      | [] => None
      | b :: s' => if char_eqb a b then strip_prefix p' s' else None
      end
  end.

Definition startsWith (s p : jsstring) : bool :=
  match strip_prefix p s with Some _ => true | None => false end.

(** [find_from p before s]: the first occurrence of [p] in [s], as the
    text before it (prepended, reversed, to [before]) and the text
    after it. *)
Fixpoint find_from (p : jsstring) (before s : jsstring) : option (jsstring * jsstring) :=
  match strip_prefix p s with
  | Some t => Some (rev before, t)
  | None =>
      match s with
      | [] => None
      | c :: s' => find_from p (c :: before) s'
      end
  end.

(** [String.prototype.indexOf] from the start, as a split. *)
Definition find (p s : jsstring) : option (jsstring * jsstring) := find_from p [] s.

(** [String.prototype.includes]. *)
Definition includes (s p : jsstring) : bool :=
  match find p s with Some _ => true | None => false end.

Fixpoint trimStart (s : jsstring) : jsstring :=
  match s with
  | [] => []
  | c :: s' => if isSpace c then trimStart s' else s
  end.

Definition trimEnd (s : jsstring) : jsstring := rev (trimStart (rev s)).

(** [String.prototype.trim]. *)
Definition trim (s : jsstring) : jsstring := trimEnd (trimStart s).

(** Decimal digits of a natural number, for template literals that
    interpolate a length. *)
Fixpoint digits_fuel (fuel n : nat) (acc : jsstring) : jsstring :=
  match fuel with
  | O => acc
  | S f =>
      let d : char := (48 + N.of_nat (n mod 10))%N in
      if Nat.ltb n 10 then d :: acc else digits_fuel f (n / 10) (d :: acc)
  end.

Definition of_nat (n : nat) : jsstring := digits_fuel (S n) n [].

End JsString.

Import JsString.

(* ================================================================== *)
(** * Regular expressions *)
(* ================================================================== *)

Module RegExp.

(** ** Patterns

    The pattern constructs that occur in the script: literal
    characters, character classes (with the escapes [\s] and [\S]
    inside), sequencing, the quantifiers [*], [*?] and [+], capture
    groups, back-references, [\b], [^] and [$].  None of the script's
    patterns has the [i], [u], [g] or [y] flag. *)

Inductive class_item : Type :=
| CChar (c : char)                (* a single character *)
| CRange (lo hi : char)           (* lo-hi *)
| CSpace                          (* \s *)
| CNotSpace.                      (* \S *)

Inductive regex : Type :=
| Lit (s : jsstring)                      (* a run of pattern characters *)
| Class (negated : bool) (items : list class_item)   (* [...] , [^...], \s *)
| Seq (r1 r2 : regex)                     (* r1 r2 *)
| Repeat (min : nat) (greedy : bool) (r : regex)  (* r* r*? r+ r+? *)
| Group (n : nat) (r : regex)             (* the n-th ( r ) *)
| Backref (n : nat)                       (* \n *)
| WordBoundary                            (* \b *)
| Bol                                     (* ^ *)
| Eol.                                    (* $ *)

Definition Star (r : regex) : regex := Repeat 0 true r.
Definition LazyStar (r : regex) : regex := Repeat 0 false r.
Definition Plus (r : regex) : regex := Repeat 1 true r.

Definition item_matches (i : class_item) (c : char) : bool :=
  match i with
  | CChar d => char_eqb c d
  | CRange lo hi => in_range lo hi c
  | CSpace => isSpace c
  | CNotSpace => negb (isSpace c)
  end.

Definition class_matches (negated : bool) (items : list class_item) (c : char) : bool :=
  xorb negated (existsb (fun i => item_matches i c) items).

(** The capture groups inside a pattern, which a quantifier resets at
    each iteration. *)
Fixpoint groups_of (r : regex) : list nat :=
  match r with
  | Seq r1 r2 => groups_of r1 ++ groups_of r2
  | Repeat _ _ r1 => groups_of r1
  | Group n r1 => n :: groups_of r1
  | _ => []
  end.

(** ** Matcher state

    The position in the input is kept as a zipper: the characters
    before the position (nearest first) and those from the position
    on.  [caps] holds the captures that are defined. *)

Record mstate : Type := MState {
  consumed : jsstring;
  rest : jsstring;
  caps : gmap nat jsstring
}.

Definition advance (s : jsstring) (t : jsstring) (x : mstate) : mstate :=
  MState (rev s ++ consumed x) t (caps x).

(** The text between two states of one match. *)
Definition between (x y : mstate) : jsstring :=
  take (length (rest x) - length (rest y)) (rest x).

Definition clear_caps (ns : list nat) (x : mstate) : mstate :=
  MState (consumed x) (rest x) (foldr delete (caps x) ns).

Definition word_before (x : mstate) : bool :=
  match consumed x with c :: _ => isWordChar c | [] => false end.

Definition word_after (x : mstate) : bool :=
  match rest x with c :: _ => isWordChar c | [] => false end.

Section Matcher.

(** The [m] flag. *)
Variable multiline : bool.

(** RepeatMatcher of ECMAScript, for an unbounded quantifier.  [m]
    is the matcher of the quantified atom and [inner] its capture
    groups.  An iteration that comes after the required ones and
    consumes nothing is rejected, so [fuel] above the required
    iterations plus the length of the input is never exhausted. *)
Fixpoint repeat_matcher (m : (mstate -> option mstate) -> mstate -> option mstate)
    (inner : list nat) (greedy : bool) (fuel : nat) (min : nat)
    (k : mstate -> option mstate) (x : mstate) : option mstate :=
  match fuel with
  | O => None
  | S fuel' =>
      let d := fun y : mstate =>
        if (Nat.eqb min 0 && Nat.eqb (length (rest y)) (length (rest x)))%bool
        then None
        else repeat_matcher m inner greedy fuel' (Nat.pred min) k y in
      let xr := clear_caps inner x in
      if negb (Nat.eqb min 0) then m d xr
      else if greedy then
        match m d xr with
        | Some z => Some z
        | None => k x
        end
      else
        match k x with
        | Some z => Some z
        | None => m d xr
        end
  end.

(** The matcher of a pattern, in continuation-passing style as in
    the ECMAScript specification: [rmatch r k x] matches [r] at [x]
    and hands the state after it to [k]; when [k] fails the matcher
    backtracks. *)
Fixpoint rmatch (r : regex) (k : mstate -> option mstate) (x : mstate) : option mstate :=
  match r with
  | Lit s =>
      match strip_prefix s (rest x) with
      | Some t => k (advance s t x)
      | None => None
      end
  | Class negated items =>
      match rest x with
      | c :: t => if class_matches negated items c then k (advance [c] t x) else None
      | [] => None
      end
  | Seq r1 r2 => rmatch r1 (rmatch r2 k) x
  | Repeat min greedy r1 =>
      repeat_matcher (rmatch r1) (groups_of r1) greedy
        (S (min + length (rest x))) min k x
  | Group n r1 =>
      rmatch r1 (fun y => k (MState (consumed y) (rest y) (<[n := between x y]> (caps y)))) x
  | Backref n =>
      match caps x !! n with
      | None => k x
      | Some s =>
          match strip_prefix s (rest x) with
          | Some t => k (advance s t x)
          | None => None
          end
      end
  | WordBoundary =>
      if xorb (word_before x) (word_after x) then k x else None
  | Bol =>
      match consumed x with
      | [] => k x
      | c :: _ => if (multiline && isLineTerminator c)%bool then k x else None
      end
  | Eol =>
      match rest x with
      | [] => k x
      | c :: _ => if (multiline && isLineTerminator c)%bool then k x else None
      end
  end.

End Matcher.

(** ** Regular expression objects *)

Record t : Type := Make {
  source : jsstring;      (* the literal as written, for [`${re}`] *)
  multiline : bool;       (* the [m] flag *)
  pattern : regex
}.

(** The number of capture groups of a pattern. *)
Definition ngroups (re : t) : nat := length (groups_of (pattern re)).

(** The result of a successful match: the input is
    [m_before ++ m_matched ++ m_after]. *)
Record match_result : Type := MatchResult {
  m_before : jsstring;
  m_matched : jsstring;
  m_after : jsstring;
  m_caps : gmap nat jsstring
}.

(** RegExpBuiltinExec for a pattern without [g] and [y]: the match is
    tried at every index from 0 up to the length of the input, and the
    first index where it succeeds wins. *)
Fixpoint exec_from (re : t) (before after : jsstring) : option match_result :=
  match rmatch (multiline re) (pattern re) Some (MState before after ∅) with
  | Some y =>
      Some (MatchResult (rev before)
              (take (length after - length (rest y)) after) (rest y) (caps y))
  | None =>
      match after with
      | [] => None
      | c :: after' => exec_from re (c :: before) after'
      end
  end.

Definition exec (re : t) (s : jsstring) : option match_result := exec_from re [] s.

(** [RegExp.prototype.test]. *)
Definition test (re : t) (s : jsstring) : bool :=
  match exec re s with Some _ => true | None => false end.

(** ** Replacement templates: GetSubstitution *)

Definition isDigit (c : char) : bool := in_range 48 57 c.

Definition digit_val (c : char) : nat := N.to_nat (c - 48)%N.

(** The text a capture reference stands for: the capture when the
    index is one of the pattern's groups (nothing when that group did
    not take part in the match), and the reference itself, literally,
    otherwise. *)
Definition capture_ref (ncaps : nat) (caps : gmap nat jsstring) (index : nat)
    (ref : jsstring) : jsstring :=
  if (Nat.leb 1 index && Nat.leb index ncaps)%bool
  then match caps !! index with Some s => s | None => [] end
  else ref.

(** GetSubstitution (ECMAScript 2023), without named groups: [$$],
    [$&], [$`], [$'], [$n] and [$nn]. *)
Fixpoint get_substitution (ncaps : nat) (m : match_result) (template : jsstring) : jsstring :=
  match template with
  | [] => []
  | c :: tl =>
      if negb (char_eqb c (ch "$")) then c :: get_substitution ncaps m tl
      else
        match tl with
        | [] => [c]
        | d :: tl' =>
            if char_eqb d (ch "$") then ch "$" :: get_substitution ncaps m tl'
            else if char_eqb d (ch "&") then m_matched m ++ get_substitution ncaps m tl'
            else if char_eqb d (ch "`") then m_before m ++ get_substitution ncaps m tl'
            else if char_eqb d (ch "'") then m_after m ++ get_substitution ncaps m tl'
            else if isDigit d then
              match tl' with
              | e :: tl'' =>
                  if isDigit e then
                    let index2 := 10 * digit_val d + digit_val e in
                    if Nat.leb index2 ncaps
                    then capture_ref ncaps (m_caps m) index2 [c; d; e]
                           ++ get_substitution ncaps m tl''
                    else capture_ref ncaps (m_caps m) (digit_val d) [c; d]
                           ++ get_substitution ncaps m tl'
                  else capture_ref ncaps (m_caps m) (digit_val d) [c; d]
                         ++ get_substitution ncaps m tl'
              | [] => capture_ref ncaps (m_caps m) (digit_val d) [c; d]
              end
            else c :: get_substitution ncaps m tl
        end
  end.

(** ** [String.prototype.replace] and [replaceAll] *)

(** [s.replace(re, template)] for a pattern without [g]. *)
Definition replace (s : jsstring) (re : t) (template : jsstring) : jsstring :=
  match exec re s with
  | None => s
  | Some m => m_before m ++ get_substitution (ngroups re) m template ++ m_after m
  end.

(** An argument of a replacer function: a group that took no part in
    the match is [undefined]. *)
Definition arg (m : match_result) (n : nat) : option jsstring := m_caps m !! n.

(** [s.replace(re, f)] for a pattern without [g]; [f] receives the
    match result, from which it reads its arguments with [arg]. *)
Definition replace_with (s : jsstring) (re : t) (f : match_result -> jsstring) : jsstring :=
  match exec re s with
  | None => s
  | Some m => m_before m ++ f m ++ m_after m
  end.

(** [s.replaceAll(search, template)] with a string pattern: the
    occurrences are found from left to right, each search resuming
    after the previous occurrence (one character further when the
    pattern is empty), and every occurrence is replaced by the
    template expanded against it.  [before] is the text of [s] that
    precedes [remaining], reversed; [fuel] bounds the occurrences. *)
Fixpoint replaceAll_from (fuel : nat) (search template : jsstring)
    (before remaining : jsstring) : jsstring :=
  match fuel with
  | O => remaining
  | S fuel' =>
      match find search remaining with
      | None => remaining
      | Some (skipped, after) =>
          let m := MatchResult (rev before ++ skipped) search after ∅ in
          skipped ++ get_substitution 0 m template ++
          match search, after with
          | [], c :: after' =>
              c :: replaceAll_from fuel' search template
                     (c :: rev skipped ++ before) after'
          | [], [] => []
          | _ :: _, _ =>
              replaceAll_from fuel' search template
                (rev search ++ rev skipped ++ before) after
          end
      end
  end.

Definition replaceAll (s search template : jsstring) : jsstring :=
  replaceAll_from (S (length s)) search template [] s.

End RegExp.

(* ================================================================== *)
(** * Outcomes of fallible code *)
(* ================================================================== *)

(** What the script can throw.  [Error] is [new Error(message)], the
    only exception the script raises itself; the others come from its
    callees.  [OutsideModel] marks the one place where the embedding
    does not follow the code: number literals with a fraction or an
    exponent, or with more than fifteen digits, in [package.json], whose
    rendering by [JSON.stringify] depends on floating-point conversion. *)
Inductive exn : Type :=
| Error (message : jsstring)
| SyntaxError
| TypeError
| ENOENT (path : string)
| OutsideModel.

Inductive outcome (A : Type) : Type :=
| Return (a : A)
| Throw (e : exn).

Arguments Return {A} a.
Arguments Throw {A} e.

Definition obind {A B : Type} (c : outcome A) (k : A -> outcome B) : outcome B :=
  match c with
  | Return a => k a
  | Throw e => Throw e
  end.

Declare Scope outcome_scope.
Delimit Scope outcome_scope with outcome.
Notation "'let!' x ':=' c 'in' k" := (obind c (fun x => k))
  (at level 10, x name, c at level 100, k at level 200) : outcome_scope.

(** Characters that ASCII string literals of Rocq cannot hold. *)
Definition dq : char := 34%N.        (* the double quote *)
Definition nl : char := 10%N.        (* \n *)

(* ================================================================== *)
(** * JSON *)
(* ================================================================== *)

Module Json.

(** Values that [JSON.parse] builds.  The members of an object are
    kept in the order in which JavaScript enumerates own properties:
    array-index keys first, ascending, then the other keys in the
    order of their creation.  Numbers are the integers that a double
    holds exactly and prints as written. *)
#[warnings="-register-all"]
Inductive value : Type :=
| JNull
| JBool (b : bool)
| JNum (z : Z)
| JStr (s : jsstring)
| JArr (elements : list value)
| JObj (members : list (jsstring * value)).

(** ** Property keys *)

Fixpoint decimal_value (acc : N) (s : jsstring) : option N :=
  match s with
  | [] => Some acc
  | c :: s' =>
      if RegExp.isDigit c then decimal_value (10 * acc + (c - 48))%N s' else None
  end.

(** An array index is the canonical decimal form of an integer below
    2^32 - 1. *)
Definition array_index (k : jsstring) : option N :=
  match k with
  | [] => None
  | c :: k' =>
      if (char_eqb c 48 && negb (Nat.eqb (length k') 0))%bool then None
      else if Nat.ltb 10 (length k) then None
      else
        match decimal_value 0 k with
        | Some n => if N.ltb n 4294967295 then Some n else None
        | None => None
        end
  end.

(** Insertion of a new property whose key is the array index [n]. *)
Fixpoint insert_index (n : N) (k : jsstring) (v : value)
    (ms : list (jsstring * value)) : list (jsstring * value) :=
  match ms with
  | [] => [(k, v)]
  | (k', v') :: ms' =>
      match array_index k' with
      | Some n' => if N.ltb n' n then (k', v') :: insert_index n k v ms'
                   else (k, v) :: ms
      | None => (k, v) :: ms
      end
  end.

Fixpoint has_key (k : jsstring) (ms : list (jsstring * value)) : bool :=
  match ms with
  | [] => false
  | (k', _) :: ms' => JsString.eqb k k' || has_key k ms'
  end.

Fixpoint update_key (k : jsstring) (v : value)
    (ms : list (jsstring * value)) : list (jsstring * value) :=
  match ms with
  | [] => []
  | (k', v') :: ms' =>
      if JsString.eqb k k' then (k', v) :: ms' else (k', v') :: update_key k v ms'
  end.

(** Definition or update of an own data property. *)
Definition set_member (k : jsstring) (v : value)
    (ms : list (jsstring * value)) : list (jsstring * value) :=
  if has_key k ms then update_key k v ms
  else match array_index k with
       | Some n => insert_index n k v ms
       | None => ms ++ [(k, v)]
       end.

(** The assignment [o.k = v] in strict code, on a value that came out
    of [JSON.parse].  On an array it defines a property that is not an
    element, which [JSON.stringify] does not print. *)
Definition assign (o : value) (k : jsstring) (v : value) : outcome value :=
  match o with
  | JObj ms => Return (JObj (set_member k v ms))
  | JArr l => Return (JArr l)
  | _ => Throw TypeError
  end.

(** ** QuoteJSONString *)

Definition hex_digit (n : N) : char :=
  if N.ltb n 10 then (48 + n)%N else (87 + n)%N.

Definition unicode_escape (c : char) : jsstring :=
  ch "\" :: ch "u" :: hex_digit (c / 4096 mod 16) :: hex_digit (c / 256 mod 16)
    :: hex_digit (c / 16 mod 16) :: [hex_digit (c mod 16)].

Definition isLeadSurrogate (c : char) : bool := in_range 55296 56319 c.
Definition isTrailSurrogate (c : char) : bool := in_range 56320 57343 c.

Definition escape_char (c : char) : jsstring :=
  if char_eqb c 8 then str "\b"
  else if char_eqb c 9 then str "\t"
  else if char_eqb c 10 then str "\n"
  else if char_eqb c 12 then str "\f"
  else if char_eqb c 13 then str "\r"
  else if char_eqb c dq then [ch "\"; dq]
  else if char_eqb c (ch "\") then str "\\"
  else if N.ltb c 32 then unicode_escape c
  else [c].

Fixpoint quote_body (s : jsstring) : jsstring :=
  match s with
  | [] => []
  | c :: s' =>
      if isLeadSurrogate c then
        match s' with
        | d :: s'' =>
            if isTrailSurrogate d then c :: d :: quote_body s''
            else unicode_escape c ++ quote_body s'
        | [] => unicode_escape c
        end
      else if isTrailSurrogate c then unicode_escape c ++ quote_body s'
      else escape_char c ++ quote_body s'
  end.

(** [JSON.stringify] of a string. *)
Definition quote (s : jsstring) : jsstring := dq :: quote_body s ++ [dq].

(** ** [JSON.stringify (v, null, 2)] *)

Fixpoint join (sep : jsstring) (parts : list jsstring) : jsstring :=
  match parts with
  | [] => []
  | [p] => p
  | p :: parts' => p ++ sep ++ join sep parts'
  end.

Definition number_to_string (z : Z) : jsstring :=
  match z with
  | Z0 => str "0"
  | Zpos p => JsString.of_nat (Pos.to_nat p)
  | Zneg p => ch "-" :: JsString.of_nat (Pos.to_nat p)
  end.

Definition gap : jsstring := str "  ".

Fixpoint serialize (indent : jsstring) (v : value) : jsstring :=
  match v with
  | JNull => str "null"
  | JBool true => str "true"
  | JBool false => str "false"
  | JNum z => number_to_string z
  | JStr s => quote s
  | JArr [] => str "[]"
  | JArr l =>
      let inner := indent ++ gap in
      ch "[" :: nl :: inner
        ++ join (ch "," :: nl :: inner) (map (serialize inner) l)
        ++ nl :: indent ++ [ch "]"]
  | JObj [] => str "{}"
  | JObj ms =>
      let inner := indent ++ gap in
      ch "{" :: nl :: inner
        ++ join (ch "," :: nl :: inner)
             (map (fun kv => quote (fst kv) ++ str ": " ++ serialize inner (snd kv)) ms)
        ++ nl :: indent ++ [ch "}"]
  end.

Definition stringify (v : value) : jsstring := serialize [] v.

(** ** [JSON.parse] *)

Definition isJsonSpace (c : char) : bool :=
  char_eqb c 9 || char_eqb c 10 || char_eqb c 13 || char_eqb c 32.

Fixpoint skip_ws (s : jsstring) : jsstring :=
  match s with
  | c :: s' => if isJsonSpace c then skip_ws s' else s
  | [] => []
  end.

Definition hex_value (c : char) : option N :=
  if in_range 48 57 c then Some (c - 48)%N
  else if in_range 97 102 c then Some (c - 87)%N
  else if in_range 65 70 c then Some (c - 55)%N
  else None.

Definition parse_hex4 (s : jsstring) : option (char * jsstring) :=
  match s with
  | a :: b :: c :: d :: s' =>
      match hex_value a, hex_value b, hex_value c, hex_value d with
      | Some x, Some y, Some z, Some w =>
          Some ((4096 * x + 256 * y + 16 * z + w)%N, s')
      | _, _, _, _ => None
      end
  | _ => None
  end.

(** The characters of a string literal after its opening quote;
    [acc] holds the value read so far, reversed. *)
Fixpoint parse_string (fuel : nat) (acc : jsstring) (s : jsstring)
    : outcome (jsstring * jsstring) :=
  match fuel with
  | O => Throw SyntaxError
  | S fuel' =>
      match s with
      | [] => Throw SyntaxError
      | c :: s' =>
          if char_eqb c dq then Return (rev acc, s')
          else if char_eqb c (ch "\") then
            match s' with
            | [] => Throw SyntaxError
            | e :: s'' =>
                if char_eqb e dq then parse_string fuel' (dq :: acc) s''
                else if char_eqb e (ch "\") then parse_string fuel' (ch "\" :: acc) s''
                else if char_eqb e (ch "/") then parse_string fuel' (ch "/" :: acc) s''
                else if char_eqb e (ch "b") then parse_string fuel' (8%N :: acc) s''
                else if char_eqb e (ch "f") then parse_string fuel' (12%N :: acc) s''
                else if char_eqb e (ch "n") then parse_string fuel' (10%N :: acc) s''
                else if char_eqb e (ch "r") then parse_string fuel' (13%N :: acc) s''
                else if char_eqb e (ch "t") then parse_string fuel' (9%N :: acc) s''
                else if char_eqb e (ch "u") then
                  match parse_hex4 s'' with
                  | Some (u, s3) => parse_string fuel' (u :: acc) s3
                  | None => Throw SyntaxError
                  end
                else Throw SyntaxError
            end
          else if N.ltb c 32 then Throw SyntaxError
          else parse_string fuel' (c :: acc) s'
      end
  end.

Fixpoint take_digits (s : jsstring) : jsstring * jsstring :=
  match s with
  | c :: s' =>
      if RegExp.isDigit c then let (ds, r) := take_digits s' in (c :: ds, r)
      else ([], s)
  | [] => ([], [])
  end.

Definition starts_fraction_or_exponent (s : jsstring) : bool :=
  match s with
  | c :: _ => char_eqb c (ch ".") || char_eqb c (ch "e") || char_eqb c (ch "E")
  | [] => false
  end.

(** A number literal, after its optional minus sign. *)
Definition parse_number (negative : bool) (s : jsstring) : outcome (value * jsstring) :=
  match s with
  | [] => Throw SyntaxError
  | c :: s' =>
      if negb (RegExp.isDigit c) then Throw SyntaxError
      else
        let (ds, r) := if char_eqb c 48 then ([c], s') else take_digits s in
        if starts_fraction_or_exponent r then Throw OutsideModel
        else if Nat.ltb 15 (length ds) then Throw OutsideModel
        else
          match decimal_value 0 ds with
          | Some n => Return (JNum (if negative then (- Z.of_N n)%Z else Z.of_N n), r)
          | None => Throw SyntaxError
          end
  end.

Definition expect (word : string) (v : value) (s : jsstring) : outcome (value * jsstring) :=
  match strip_prefix (str word) s with
  | Some r => Return (v, r)
  | None => Throw SyntaxError
  end.

(** The recursive-descent parser.  Every call consumes a character
    before it recurses, so [fuel] above twice the length of the text
    is never exhausted. *)
Fixpoint parse_value (fuel : nat) (s : jsstring) : outcome (value * jsstring) :=
  match fuel with
  | O => Throw OutsideModel
  | S fuel' =>
      match skip_ws s with
      | [] => Throw SyntaxError
      | c :: s' =>
          if char_eqb c (ch "{") then
            match skip_ws s' with
            | d :: s'' =>
                if char_eqb d (ch "}") then Return (JObj [], s'')
                else
                  match parse_members fuel' [] s' with
                  | Return (ms, r) => Return (JObj ms, r)
                  | Throw e => Throw e
                  end
            | [] => Throw SyntaxError
            end
          else if char_eqb c (ch "[") then
            match skip_ws s' with
            | d :: s'' =>
                if char_eqb d (ch "]") then Return (JArr [], s'')
                else
                  match parse_elements fuel' [] s' with
                  | Return (l, r) => Return (JArr l, r)
                  | Throw e => Throw e
                  end
            | [] => Throw SyntaxError
            end
          else if char_eqb c dq then
            match parse_string (length s') [] s' with
            | Return (v, r) => Return (JStr v, r)
            | Throw e => Throw e
            end
          else if char_eqb c (ch "t") then expect "true" (JBool true) (c :: s')
          else if char_eqb c (ch "f") then expect "false" (JBool false) (c :: s')
          else if char_eqb c (ch "n") then expect "null" JNull (c :: s')
          else if char_eqb c (ch "-") then parse_number true s'
          else parse_number false (c :: s')
      end
  end

(** The elements of an array after [[] or a comma; [acc] holds the
    elements read so far, reversed. *)
with parse_elements (fuel : nat) (acc : list value) (s : jsstring)
    : outcome (list value * jsstring) :=
  match fuel with
  | O => Throw OutsideModel
  | S fuel' =>
      match parse_value fuel' s with
      | Throw e => Throw e
      | Return (v, r) =>
          match skip_ws r with
          | c :: r' =>
              if char_eqb c (ch ",") then parse_elements fuel' (v :: acc) r'
              else if char_eqb c (ch "]") then Return (rev (v :: acc), r')
              else Throw SyntaxError
          | [] => Throw SyntaxError
          end
      end
  end

(** The members of an object after [{] or a comma; [acc] holds the
    object built so far. *)
with parse_members (fuel : nat) (acc : list (jsstring * value)) (s : jsstring)
    : outcome (list (jsstring * value) * jsstring) :=
  match fuel with
  | O => Throw OutsideModel
  | S fuel' =>
      match skip_ws s with
      | c :: s' =>
          if negb (char_eqb c dq) then Throw SyntaxError
          else
            match parse_string (length s') [] s' with
            | Throw e => Throw e
            | Return (k, r) =>
                match skip_ws r with
                | d :: r' =>
                    if negb (char_eqb d (ch ":")) then Throw SyntaxError
                    else
                      match parse_value fuel' r' with
                      | Throw e => Throw e
                      | Return (v, r2) =>
                          match skip_ws r2 with
                          | e :: r3 =>
                              if char_eqb e (ch ",")
                              then parse_members fuel' (set_member k v acc) r3
                              else if char_eqb e (ch "}")
                              then Return (set_member k v acc, r3)
                              else Throw SyntaxError
                          | [] => Throw SyntaxError
                          end
                      end
                | [] => Throw SyntaxError
                end
            end
      | [] => Throw SyntaxError
      end
  end.

Definition parse (text : jsstring) : outcome value :=
  match parse_value (2 * length text + 2) text with
  | Throw e => Throw e
  | Return (v, r) =>
      match skip_ws r with
      | [] => Return v
      | _ :: _ => Throw SyntaxError
      end
  end.

End Json.

(* ================================================================== *)
(** * The Node.js world: process, file system, console *)
(* ================================================================== *)

Module Node.

(** A file operation of the run. *)
Inductive event : Type :=
| ReadFile (path : string)
| WriteFile (path : string) (text : jsstring).

(** The part of the world the script acts on: the text files by path,
    the file operations performed so far and the lines printed so far,
    both most recent first.  A file holds the text that [readFileSync]
    returns and that [writeFileSync] is given: the UTF-8 encoding is
    not modelled.  Reading a file that does not exist throws; a write
    always succeeds. *)
Record world : Type := World {
  files : gmap string jsstring;
  trace : list event;
  stdout : list jsstring
}.

(** Computations that act on the world and may throw. *)
Definition M (A : Type) : Type := world -> outcome A * world.

Definition ret {A : Type} (a : A) : M A := fun w => (Return a, w).

Definition bind {A B : Type} (c : M A) (k : A -> M B) : M B :=
  fun w =>
    match c w with
    | (Return a, w') => k a w'
    | (Throw e, w') => (Throw e, w')
    end.

(** A pure computation that may throw. *)
Definition lift {A : Type} (c : outcome A) : M A := fun w => (c, w).

(** [fs.readFileSync (path, utf-8)]. *)
Definition readFileSync (path : string) : M jsstring :=
  fun w =>
    let w' := World (files w) (ReadFile path :: trace w) (stdout w) in
    match files w !! path with
    | Some text => (Return text, w')
    | None => (Throw (ENOENT path), w')
    end.

(** [fs.writeFileSync (path, text, utf-8)]. *)
Definition writeFileSync (path : string) (text : jsstring) : M unit :=
  fun w =>
    (Return tt, World (<[path := text]> (files w)) (WriteFile path text :: trace w) (stdout w)).

(** [console.log (line)]. *)
Definition console_log (line : jsstring) : M unit :=
  fun w => (Return tt, World (files w) (trace w) (line :: stdout w)).

(** [path.join (dir, rel)] for a normalized absolute [dir], as
    [process.cwd ()] returns it, and a normalized relative [rel]. *)
Definition path_join (dir rel : string) : string :=
  if String.eqb dir "/" then dir +:+ rel else dir +:+ "/" +:+ rel.

(** [path.relative (dir, file)] for a [file] below [dir]. *)
Definition path_relative (dir file : string) : string :=
  let d := if String.eqb dir "/" then dir else dir +:+ "/" in
  if String.prefix d file
  then String.substring (String.length d) (String.length file - String.length d) file
  else file.

Definition is_write (e : event) : bool :=
  match e with WriteFile _ _ => true | ReadFile _ => false end.

(** The writes among the operations performed after [w0]. *)
Definition writes_since (w0 w : world) : list event :=
  filter (fun e => is_write e = true) (take (length (trace w) - length (trace w0)) (trace w)).

End Node.

Import Node.

Declare Scope io_scope.
Delimit Scope io_scope with io.
Notation "'do!' x ':=' c 'in' k" := (Node.bind c (fun x => k))
  (at level 10, x name, c at level 100, k at level 200) : io_scope.

(* ================================================================== *)
(** * The script *)
(* ================================================================== *)

Module Patch.

Import RegExp.

(** ** The patterns of the script *)

(** [\s] *)
Definition space : regex := Class false [CSpace].
(** [[\s\S]] *)
Definition anychar : regex := Class false [CSpace; CNotSpace].
(** The class of the three quote characters: double quote, single
    quote, backtick. *)
Definition quote_char : regex := Class false [CChar dq; CChar (ch "'"); CChar (ch "`")].
(** The negated class of the three quote characters. *)
Definition not_quote_char : regex := Class true [CChar dq; CChar (ch "'"); CChar (ch "`")].
(** [[a-z0-9]] *)
Definition lower_or_digit : regex :=
  Class false [CRange (ch "a") (ch "z"); CRange (ch "0") (ch "9")].
(** [[a-z0-9-]] *)
Definition slug_char : regex :=
  Class false [CRange (ch "a") (ch "z"); CRange (ch "0") (ch "9"); CChar (ch "-")].

(** [(Q)(N+)(\2)], the tail that four patterns share; here and below
    [Q] stands for the class of the three quote characters and [N]
    for its negation. *)
Definition quoted_value_tail : regex :=
  Seq (Group 2 quote_char) (Seq (Group 3 (Plus not_quote_char)) (Group 4 (Backref 2))).

(** The two classes as they appear in a pattern's source. *)
Definition quotes_src : jsstring := ch "[" :: dq :: str "'`]".
Definition not_quotes_src : jsstring := ch "[" :: ch "^" :: dq :: str "'`]".
Definition quoted_value_tail_src : jsstring :=
  str "(" ++ quotes_src ++ str ")(" ++ not_quotes_src ++ str "+)(\2)".

(** [/^[a-z0-9][a-z0-9-]*$/] *)
Definition slug_re : RegExp.t :=
  Make (str "/^[a-z0-9][a-z0-9-]*$/") false
    (Seq Bol (Seq lower_or_digit (Seq (Star slug_char) Eol))).

(** The head [linux:\s*\{[\s\S]*?\bexecutableName:\s*] of the Linux
    patterns, and the same with [\bwin:] for the Windows patterns;
    below [H] stands for it. *)
Definition exec_name_head (block : regex) : regex :=
  Seq block (Seq (Star space) (Seq (Lit (str "{")) (Seq (LazyStar anychar)
    (Seq WordBoundary (Seq (Lit (str "executableName:")) (Star space)))))).

Definition linux_block : regex := Lit (str "linux:").
Definition win_block : regex := Seq WordBoundary (Lit (str "win:")).

(** [/linux:\s*\{[\s\S]*?\bexecutableName:\s*Q/m], with [Q] the class
    of the three quote characters. *)
Definition has_linux_exec_re : RegExp.t :=
  Make (str "/linux:\s*\{[\s\S]*?\bexecutableName:\s*" ++ quotes_src ++ str "/m") true
    (Seq (exec_name_head linux_block) quote_char).

(** [/(H)(Q)(N+)(\2)/m] with the Linux head. *)
Definition linux_exec_re : RegExp.t :=
  Make (str "/(linux:\s*\{[\s\S]*?\bexecutableName:\s*)" ++ quoted_value_tail_src ++ str "/m")
    true (Seq (Group 1 (exec_name_head linux_block)) quoted_value_tail).

(** [/(linux:\s*\{\s*\n)/m] *)
Definition linux_open_re : RegExp.t :=
  Make (str "/(linux:\s*\{\s*\n)/m") true
    (Group 1 (Seq (Lit (str "linux:")) (Seq (Star space) (Seq (Lit (str "{"))
       (Seq (Star space) (Lit [nl])))))).

(** [/(A)(Q)(N+)(\2)/] with [A] the pattern [\bappId:\s*]. *)
Definition app_id_re : RegExp.t :=
  Make (str "/(\bappId:\s*)" ++ quoted_value_tail_src ++ str "/") false
    (Seq (Group 1 (Seq WordBoundary (Seq (Lit (str "appId:")) (Star space))))
       quoted_value_tail).

(** [/(P)(Q)(N+)(\2)/] with [P] the pattern [\bproductName:\s*]. *)
Definition product_name_re : RegExp.t :=
  Make (str "/(\bproductName:\s*)" ++ quoted_value_tail_src ++ str "/") false
    (Seq (Group 1 (Seq WordBoundary (Seq (Lit (str "productName:")) (Star space))))
       quoted_value_tail).

(** [/\bwin:\s*\{[\s\S]*?\bexecutableName:\s*Q/m], with [Q] the
    class of the three quote characters. *)
Definition has_win_exec_re : RegExp.t :=
  Make (str "/\bwin:\s*\{[\s\S]*?\bexecutableName:\s*" ++ quotes_src ++ str "/m") true
    (Seq (exec_name_head win_block) quote_char).

(** [/(H)(Q)(N+)(\2)/m] with the Windows head. *)
Definition win_exec_re : RegExp.t :=
  Make (str "/(\bwin:\s*\{[\s\S]*?\bexecutableName:\s*)" ++ quoted_value_tail_src ++ str "/m")
    true (Seq (Group 1 (exec_name_head win_block)) quoted_value_tail).

(** [/xdg-settings set default-web-browser\s+N+/], with [N] the
    negated class of [\s], the double quote and the single quote. *)
Definition xdg_re : RegExp.t :=
  Make (str "/xdg-settings set default-web-browser\s+[^\s" ++ dq :: str "']+/") false
    (Seq (Lit (str "xdg-settings set default-web-browser"))
       (Seq (Plus space) (Plus (Class true [CSpace; CChar dq; CChar (ch "'")])))).

(** ** The functions of the script *)

Open Scope outcome_scope.
Open Scope io_scope.

(** The process environment: [process.env [name]] is [env !! name]. *)
Definition requireEnv (env : gmap string jsstring) (name : string) : outcome jsstring :=
  match env !! name with
  | None | Some [] => Throw (Error (str "Missing required env: " ++ str name))
  | Some v => Return v
  end.

Definition sanitizeSlug (input : jsstring) : outcome jsstring :=
  let slug := trim input in
  if negb (test slug_re slug) then
    Throw (Error
      (str "APP_SLUG must match /^[a-z0-9][a-z0-9-]*$/ (lowercase, digits, hyphen). Got: "
         ++ Json.quote input))
  else Return slug.

Definition replaceOrThrow (content : jsstring) (re : RegExp.t) (replacement : jsstring)
    (what : string) : outcome jsstring :=
  if negb (test re content) then
    Throw (Error (str "Pattern not found for " ++ str what ++ str ": " ++ source re))
  else Return (replace content re replacement).

(** What a handler returns. *)
Record PatchResult : Type := { file : string; changed : bool }.

Definition writeIfChanged (absPath : string) (next : jsstring) : M PatchResult :=
  do! prev := readFileSync absPath in
  if JsString.eqb prev next then ret {| file := absPath; changed := false |}
  else
    do! _ := writeFileSync absPath next in
    ret {| file := absPath; changed := true |}.

Definition patchPackageJson (repoRoot : string) (packageName productName : jsstring)
    : M PatchResult :=
  let absPath := path_join repoRoot "package.json" in
  do! text := readFileSync absPath in
  do! pkg := lift (Json.parse text) in
  do! pkg := lift (Json.assign pkg (str "name") (Json.JStr packageName)) in
  do! pkg := lift (Json.assign pkg (str "productName") (Json.JStr productName)) in
  let next := Json.stringify pkg ++ [nl] in
  writeIfChanged absPath next.

(** A capture interpolated in a template literal. *)
Definition interpolate (a : option jsstring) : jsstring :=
  match a with Some s => s | None => str "undefined" end.

(** The replacer [(_m, p1, quote, _old, p4) =>
    `${p1}${quote}${executableName}${p4}`] of the two executable-name
    patches. *)
Definition exec_name_replacer (executableName : jsstring) (m : match_result) : jsstring :=
  interpolate (arg m 1) ++ interpolate (arg m 2) ++ executableName ++ interpolate (arg m 4).

Definition ensureLinuxExecutableName (builderTs executableName : jsstring)
    : outcome jsstring :=
  let hasLinuxExec := test has_linux_exec_re builderTs in
  if hasLinuxExec then
    Return (replace_with builderTs linux_exec_re (exec_name_replacer executableName))
  else
    replaceOrThrow builderTs linux_open_re
      (str "$1    executableName: " ++ dq :: executableName ++ dq :: ch "," :: [nl])
      "electron-builder linux.executableName insertion".

(** The statement of [patchElectronBuilderTs] that keeps the Windows
    [executableName] aligned. *)
Definition alignWinExecutableName (content executableName : jsstring) : jsstring :=
  if test has_win_exec_re content then
    replace_with content win_exec_re (exec_name_replacer executableName)
  else content.

(** The first three rewriting statements of [patchElectronBuilderTs]:
    [appId], [productName] and the Windows [executableName]. *)
Definition patchBuilderFields (content appId productName executableName : jsstring)
    : outcome jsstring :=
  let! content := replaceOrThrow content app_id_re
                    (str "$1" ++ dq :: appId ++ dq :: str "$4") "electron-builder appId" in
  let! content := replaceOrThrow content product_name_re
                    (str "$1" ++ dq :: productName ++ dq :: str "$4")
                    "electron-builder productName" in
  Return (alignWinExecutableName content executableName).

(** The text that [patchElectronBuilderTs] computes from the text of
    the file: the three statements above, then
    [ensureLinuxExecutableName]. *)
Definition patchElectronBuilderContent (content appId productName executableName : jsstring)
    : outcome jsstring :=
  let! content := patchBuilderFields content appId productName executableName in
  ensureLinuxExecutableName content executableName.

Definition patchElectronBuilderTs (repoRoot : string)
    (appId productName executableName : jsstring) : M PatchResult :=
  let absPath := path_join repoRoot "electron-builder.ts" in
  do! content := readFileSync absPath in
  do! content := lift (patchElectronBuilderContent content appId productName executableName) in
  writeIfChanged absPath content.

Definition patchDefaultBrowserController (repoRoot : string) (desktopFile : jsstring)
    : M PatchResult :=
  let absPath := path_join repoRoot "src/main/controllers/default-browser-controller/index.ts" in
  do! content := readFileSync absPath in
  do! content := lift (replaceOrThrow content xdg_re
                   (str "xdg-settings set default-web-browser " ++ desktopFile)
                   "linux default browser desktop file") in
  writeIfChanged absPath content.

Definition banner : jsstring := str "--- Flow Browser ---".

(** The text that [patchMainHeader] computes from the text of the file. *)
Definition patchMainHeaderContent (content productName : jsstring) : jsstring :=
  if includes content banner
  then replaceAll content banner (str "--- " ++ productName ++ str " ---")
  else content.

Definition patchMainHeader (repoRoot : string) (productName : jsstring) : M PatchResult :=
  let absPath := path_join repoRoot "src/main/index.ts" in
  do! content := readFileSync absPath in
  let content := patchMainHeaderContent content productName in
  writeIfChanged absPath content.

(** The values that drive the patches: what [main] computes from the
    environment before it calls the handlers. *)
Record Identity : Type := {
  appSlug : jsstring;
  productName : jsstring;
  appId : jsstring;
  packageName : jsstring;
  desktopFile : jsstring
}.

(** [process.env.NAME ?? fallback]: the fallback stands in for an
    unset variable only. *)
Definition or_default (v : option jsstring) (fallback : jsstring) : jsstring :=
  match v with Some s => s | None => fallback end.

(** The first part of [main]: from [sanitizeSlug (requireEnv
    ("APP_SLUG"))] to the computation of [desktopFile]. *)
Definition resolveIdentity (env : gmap string jsstring) : outcome Identity :=
  let! appSlug := (let! v := requireEnv env "APP_SLUG" in sanitizeSlug v) in
  let! productName := (let! v := requireEnv env "APP_PRODUCT_NAME" in Return (trim v)) in
  if Nat.eqb (length productName) 0
  then Throw (Error (str "APP_PRODUCT_NAME cannot be empty"))
  else
    let appId := trim (or_default (env !! "APP_ID") (str "dev.sun." ++ appSlug)) in
    let packageName :=
      trim (or_default (env !! "APP_PACKAGE_NAME") (appSlug ++ str "-browser")) in
    let desktopFile :=
      trim (or_default (env !! "DESKTOP_FILE") (appSlug ++ str ".desktop")) in
    Return {| appSlug := appSlug; productName := productName; appId := appId;
              packageName := packageName; desktopFile := desktopFile |}.

(** The second part of [main]: the four handlers in order. *)
Definition runHandlers (repoRoot : string) (id : Identity) : M (list PatchResult) :=
  do! r1 := patchPackageJson repoRoot (packageName id) (productName id) in
  do! r2 := patchElectronBuilderTs repoRoot (appId id) (productName id) (appSlug id) in
  do! r3 := patchDefaultBrowserController repoRoot (desktopFile id) in
  do! r4 := patchMainHeader repoRoot (productName id) in
  ret [r1; r2; r3; r4].

Definition report_line (repoRoot : string) (r : PatchResult) : jsstring :=
  str "- " ++ str (path_relative repoRoot (file r)) ++ str ": "
    ++ (if changed r then str "patched" else str "unchanged").

Fixpoint log_each (lines : list jsstring) : M unit :=
  match lines with
  | [] => ret tt
  | l :: lines' => do! _ := console_log l in log_each lines'
  end.

(** The last part of [main]: the summary. *)
Definition report (repoRoot : string) (results : list PatchResult) : M unit :=
  let changed := filter (fun r => changed r = true) results in
  do! _ := console_log (str "[patch-app-identity] done") in
  do! _ := log_each (map (report_line repoRoot) results) in
  console_log (str "[patch-app-identity] changed " ++ JsString.of_nat (length changed)
                 ++ str "/" ++ JsString.of_nat (length results) ++ str " files").

(** [main], for the environment [env] and the working directory
    [cwd].  It returns the handlers' results, which the script only
    prints. *)
Definition main (env : gmap string jsstring) (cwd : string) : M (list PatchResult) :=
  let repoRoot := cwd in
  do! id := lift (resolveIdentity env) in
  do! results := runHandlers repoRoot id in
  do! _ := report repoRoot results in
  ret results.

End Patch.

Import RegExp Patch.

(* ================================================================== *)
(** * Vocabulary of the statements *)
(* ================================================================== *)

(** The predicates below describe texts in the statements of the
    theorems; the script does not use them. *)

(** One of the three quote characters. *)
Definition isQuote (c : char) : bool :=
  char_eqb c dq || char_eqb c (ch "'") || char_eqb c (ch "`").

Definition isLowerOrDigit (c : char) : bool :=
  in_range (ch "a") (ch "z") c || in_range (ch "0") (ch "9") c.

Definition isSlugChar (c : char) : bool := isLowerOrDigit c || char_eqb c (ch "-").

(** The shape of a slug in the words of the specification: lowercase
    letters, digits and hyphens, the first character a letter or digit. *)
Definition slug_shape (s : jsstring) : bool :=
  match s with
  | c :: t => isLowerOrDigit c && forallb isSlugChar t
  | [] => false
  end.

Definition all_space (s : jsstring) : bool := forallb isSpace s.

Definition starts_with_space (s : jsstring) : bool :=
  match s with a :: _ => isSpace a | [] => false end.

(** The text ends with a word character, so that a word put after it
    has no word boundary in front. *)
Definition ends_with_word (s : jsstring) : bool :=
  match rev s with a :: _ => isWordChar a | [] => false end.

Definition no_quote (s : jsstring) : bool := forallb (fun c => negb (isQuote c)) s.

Definition no_dollar (s : jsstring) : bool :=
  forallb (fun c => negb (char_eqb c (ch "$"))) s.

Definition no_newline (s : jsstring) : bool :=
  forallb (fun c => negb (char_eqb c nl)) s.

(** No character that [JSON.stringify] escapes. *)
Definition plain_json (s : jsstring) : bool :=
  forallb (fun c => negb (N.ltb c 32 || char_eqb c dq || char_eqb c (ch "\")
                          || in_range 55296 57343 c)) s.

(** [replaced_all p r s s']: [s'] is [s] with the occurrences of [p]
    replaced by [r], the occurrences being taken from left to right,
    each one the first that starts after the end of the previous one. *)
Inductive replaced_all (p r : jsstring) : jsstring -> jsstring -> Prop :=
| replaced_none s : find p s = None -> replaced_all p r s s
| replaced_next s a b b' :
    find p s = Some (a, b) -> replaced_all p r b b' ->
    replaced_all p r s (a ++ r ++ b').

(** A matcher hands to its continuation a state further in the same
    input. *)
Definition progresses (m : (mstate -> option mstate) -> mstate -> option mstate) : Prop :=
  forall k x z, m k x = Some z -> exists y, k y = Some z /\ rest y `suffix_of` rest x.

(** The field name that the executable-name patterns look for. *)
Definition exe_field : jsstring := str "executableName:".

(** [block_opening name content pre ws body]: the first occurrence of
    the block name [name] in [content] comes after [pre] and is
    followed by the white space [ws], an opening brace and [body]. *)
Definition block_opening (name content pre ws body : jsstring) : Prop :=
  find name content = Some (pre, ws ++ ch "{" :: body) /\ all_space ws = true.

(** [quoted_field text mid ws q old post]: the first occurrence of
    [executableName:] in [text] comes after [mid], at a word boundary,
    and is followed by the white space [ws] and the non-empty value
    [old] between two quotes [q]; [post] is the text after the closing
    quote. *)
Definition quoted_field (text mid ws : jsstring) (q : char) (old post : jsstring) : Prop :=
  find exe_field text = Some (mid, ws ++ q :: old ++ q :: post) /\
  ends_with_word mid = false /\ all_space ws = true /\
  isQuote q = true /\ old <> [] /\ no_quote old = true.

(** Lists of appended pieces, associated to the right. *)
Ltac reassoc := repeat first [rewrite <- app_assoc | progress cbn [app]].

(** The captures of [(H)(Q)(N+)(\2)] on a field. *)
Definition field_caps (head : jsstring) (q : char) (old : jsstring) : gmap nat jsstring :=
  <[4 := [q]]> (<[3 := old]> (<[2 := [q]]> (<[1 := head]> ∅))).

(** No [executableName:] follows the first occurrence of the block
    name [name] in [content] (in particular when the block name does
    not occur at all). *)
Definition no_field_after (name content : jsstring) : Prop :=
  match find name content with
  | Some (_, after) => includes after exe_field = false
  | None => True
  end.

(** A required variable is unset or set to the empty string. *)
Definition required_missing (env : gmap string jsstring) (name : string) : Prop :=
  env !! name = None \/ env !! name = Some [].

(** The environments that the specification calls invalid: a required
    value is missing, the slug is malformed, or the product name is
    empty after trimming. *)
Definition invalid_environment (env : gmap string jsstring) : Prop :=
  required_missing env "APP_SLUG" \/
  (exists v, env !! "APP_SLUG" = Some v /\ slug_shape (trim v) = false) \/
  required_missing env "APP_PRODUCT_NAME" \/
  (exists v, env !! "APP_PRODUCT_NAME" = Some v /\ trim v = []).

(** The messages of the script's errors. *)
Definition missing_env_message (name : string) : jsstring :=
  str "Missing required env: " ++ str name.

Definition bad_slug_message (input : jsstring) : jsstring :=
  str "APP_SLUG must match /^[a-z0-9][a-z0-9-]*$/ (lowercase, digits, hyphen). Got: "
    ++ Json.quote input.

Definition linux_anchor_missing_message : jsstring :=
  str "Pattern not found for electron-builder linux.executableName insertion: "
    ++ str "/(linux:\s*\{\s*\n)/m".

(** The line that [ensureLinuxExecutableName] inserts. *)
Definition exec_name_line (name : jsstring) : jsstring :=
  str "    executableName: " ++ dq :: name ++ dq :: ch "," :: [nl].

(** Lines of text, each ended by a newline. *)
Definition lines (l : list jsstring) : jsstring := concat (map (fun x => x ++ [nl]) l).

(** A string literal of the source between double quotes. *)
Definition quoted (s : string) : jsstring := dq :: str s ++ [dq].

(** ** A repository of the template

    The four files as the end-to-end scenario of the specification
    describes them, in the working directory [/repo]. *)

Definition fixture_package_json : jsstring :=
  lines [str "{";
         str "  " ++ quoted "name" ++ str ": " ++ quoted "flow" ++ str ",";
         str "  " ++ quoted "productName" ++ str ": " ++ quoted "Flow" ++ str ",";
         str "  " ++ quoted "version" ++ str ": " ++ quoted "0.8.3";
         str "}"].

Definition fixture_builder_ts : jsstring :=
  lines [str "const config = {";
         str "  appId: " ++ quoted "dev.sun.flow" ++ str ",";
         str "  productName: " ++ quoted "Flow" ++ str ",";
         str "  win: {";
         str "    executableName: " ++ quoted "flow";
         str "  },";
         str "  linux: {";
         str "    category: " ++ quoted "Network";
         str "  }";
         str "};"].

Definition fixture_controller_ts : jsstring :=
  lines [str "exec(" ++ quoted "xdg-settings set default-web-browser flow.desktop"
           ++ str ");"].

Definition fixture_index_ts : jsstring :=
  lines [str "console.log(" ++ quoted "--- Flow Browser ---" ++ str ");"].

Definition package_json_path : string := "/repo/package.json".
Definition builder_ts_path : string := "/repo/electron-builder.ts".
Definition controller_ts_path : string :=
  "/repo/src/main/controllers/default-browser-controller/index.ts".
Definition index_ts_path : string := "/repo/src/main/index.ts".

Definition fixture_files : gmap string jsstring :=
  <[package_json_path := fixture_package_json]>
  (<[builder_ts_path := fixture_builder_ts]>
  (<[controller_ts_path := fixture_controller_ts]>
  (<[index_ts_path := fixture_index_ts]> ∅))).

Definition fixture_world : world := World fixture_files [] [].

(** [APP_SLUG=acme], [APP_PRODUCT_NAME=Acme Browser], nothing else set. *)
Definition fixture_env : gmap string jsstring :=
  <["APP_SLUG" := str "acme"]> (<["APP_PRODUCT_NAME" := str "Acme Browser"]> ∅).

(** The builder configuration of the fixture after the patch, with
    [extra] standing for what follows the closing quote of the two
    values that the string templates rewrite. *)
Definition patched_builder_ts (extra : jsstring) : jsstring :=
  lines [str "const config = {";
         str "  appId: " ++ quoted "dev.sun.acme" ++ extra ++ str ",";
         str "  productName: " ++ quoted "Acme Browser" ++ extra ++ str ",";
         str "  win: {";
         str "    executableName: " ++ quoted "acme";
         str "  },";
         str "  linux: {";
         str "    executableName: " ++ quoted "acme" ++ str ",";
         str "    category: " ++ quoted "Network";
         str "  }";
         str "};"].

(** A builder configuration with single-quoted values. *)
Definition single_quoted_builder_ts : jsstring :=
  lines [str "export default {";
         str "  appId: 'old-id',";
         str "  productName: 'Old Name',";
         str "  linux: {";
         str "    executableName: 'old'";
         str "  }";
         str "};"].

(** The paths of the writes among file operations. *)
Definition written_paths (events : list event) : list string :=
  omap (fun e => match e with WriteFile p _ => Some p | ReadFile _ => None end) events.

(** Boolean facts about character codes, by arithmetic. *)
Ltac char_arith :=
  unfold isQuote, isSlugChar, isLowerOrDigit, isSpace, isWordChar, isLineTerminator,
    in_range, char_eqb, dq, nl, ch in *;
  cbn [N_of_ascii N_of_digits N.add N.mul] in *;
  repeat match goal with
  | H : _ = false |- _ => apply not_true_iff_false in H
  | |- _ = false => apply not_true_iff_false; intro
  end;
  repeat match goal with
  | H : context [(_ || _ = true)] |- _ => rewrite orb_true_iff in H
  | H : context [(_ && _ = true)] |- _ => rewrite andb_true_iff in H
  | H : context [(negb _ = true)] |- _ => rewrite negb_true_iff in H
  | H : context [(N.leb _ _ = true)] |- _ => rewrite N.leb_le in H
  | H : context [(N.eqb _ _ = true)] |- _ => rewrite N.eqb_eq in H
  | H : context [(N.eqb _ _ = false)] |- _ => rewrite N.eqb_neq in H
  | |- context [(_ || _ = true)] => rewrite orb_true_iff
  | |- context [(_ && _ = true)] => rewrite andb_true_iff
  | |- context [(N.leb _ _ = true)] => rewrite N.leb_le
  | |- context [(N.eqb _ _ = true)] => rewrite N.eqb_eq
  end;
  try lia.

(** ** Vocabulary of the further properties *)

(** The shape of the four handlers: read the file, compute the new
    text from the old one, write it if it changed. *)
Definition patch_file (path : string) (f : jsstring -> outcome jsstring) : M PatchResult :=
  (do! content := readFileSync path in
   do! next := lift (f content) in
   writeIfChanged path next)%io.

(** The text that [patchPackageJson] computes from the text of the file. *)
Definition patchPackageJsonContent (text packageName productName : jsstring)
    : outcome jsstring :=
  (let! pkg := Json.parse text in
   let! pkg := Json.assign pkg (str "name") (Json.JStr packageName) in
   let! pkg := Json.assign pkg (str "productName") (Json.JStr productName) in
   Return (Json.stringify pkg ++ [nl]))%outcome.

(** The text that [patchDefaultBrowserController] computes from the
    text of the file. *)
Definition patchDefaultBrowserContent (content desktopFile : jsstring) : outcome jsstring :=
  replaceOrThrow content xdg_re (str "xdg-settings set default-web-browser " ++ desktopFile)
    "linux default browser desktop file".

(** The four files of a repository that the script works on. *)
Definition package_json_of (repoRoot : string) : string := path_join repoRoot "package.json".
Definition builder_ts_of (repoRoot : string) : string :=
  path_join repoRoot "electron-builder.ts".
Definition controller_ts_of (repoRoot : string) : string :=
  path_join repoRoot "src/main/controllers/default-browser-controller/index.ts".
Definition index_ts_of (repoRoot : string) : string := path_join repoRoot "src/main/index.ts".

(** The outcome is one that the embedding accounts for: it is not the
    mark of a number literal in [package.json] that the model of JSON
    does not cover. *)
Definition in_model {A : Type} (r : outcome A) : Prop := r <> Throw OutsideModel.

(** The four of them, in the order of the handlers. *)
Definition target_paths (repoRoot : string) : list string :=
  [package_json_of repoRoot; builder_ts_of repoRoot; controller_ts_of repoRoot;
   index_ts_of repoRoot].

(** The file of a file operation. *)
Definition event_path (e : event) : string :=
  match e with ReadFile p => p | WriteFile p _ => p end.

(** What a run of a handler on [w] that ends in [w'] with the result
    [r] may have done: it prints nothing, its file operations come on
    top of the earlier ones and are all on [path], it writes [path]
    when it reports a change and nothing otherwise, and it changes no
    file when it throws. *)
Definition handler_run (path : string) (w : world) (r : outcome PatchResult) (w' : world)
    : Prop :=
  stdout w' = stdout w /\
  (exists evs, trace w' = evs ++ trace w /\
     Forall (fun e => event_path e = path) evs /\
     written_paths evs = match r with
                         | Return pr => if changed pr then [path] else []
                         | Throw _ => []
                         end) /\
  (forall q, q <> path -> files w' !! q = files w !! q) /\
  match r with
  | Return pr => file pr = path
  | Throw _ => files w' = files w
  end.

(** A list of file operations on one path and its writes. *)
Ltac events := split; [reflexivity|split; [repeat constructor|reflexivity]].

(** What a run of several handlers on the files [paths] may have done. *)
Definition within (paths : list string) (w w' : world) : Prop :=
  stdout w' = stdout w /\
  (exists evs, trace w' = evs ++ trace w /\ Forall (fun e => event_path e ∈ paths) evs) /\
  (forall q, q ∉ paths -> files w' !! q = files w !! q).

(** The writes of a list of results from first to last, the last one
    first as in the trace. *)
Definition writes_of (results : list PatchResult) : list string :=
  rev (map file (filter (fun r => changed r = true) results)).

(** A line of the summary: the file relative to the repository, and
    whether it was patched. *)
Definition status_line (rel : string) (changed : bool) : jsstring :=
  str "- " ++ str rel ++ str ": " ++ (if changed then str "patched" else str "unchanged").

(** The identity of the fixture environment. *)
Definition fixture_identity : Identity :=
  {| appSlug := str "acme"; productName := str "Acme Browser"; appId := str "dev.sun.acme";
     packageName := str "acme-browser"; desktopFile := str "acme.desktop" |}.

(** The command in front of the desktop file. *)
Definition xdg_command : jsstring := str "xdg-settings set default-web-browser".

(** A character of the argument of the command: no white space, no
    double quote, no single quote. *)
Definition isArgChar (c : char) : bool :=
  negb (isSpace c || char_eqb c dq || char_eqb c (ch "'")).

(** The text starts with a character of an argument. *)
Definition starts_with_arg (s : jsstring) : bool :=
  match s with a :: _ => isArgChar a | [] => false end.

(** The value of the first member of an object with the key [k]. *)
Fixpoint member (k : jsstring) (ms : list (jsstring * Json.value)) : option Json.value :=
  match ms with
  | [] => None
  | (k', v) :: ms' => if JsString.eqb k k' then Some v else member k ms'
  end.

(** The order in which JavaScript enumerates two distinct keys:
    array indices first, ascending, then the other keys. *)
Definition key_before (k k' : jsstring) : bool :=
  match Json.array_index k, Json.array_index k' with
  | Some n, Some n' => N.ltb n n'
  | Some _, None => true
  | None, Some _ => false
  | None, None => negb (JsString.eqb k k')
  end.

(** The members of an object as JavaScript keeps them: no key twice,
    the array indices first, ascending. *)
Fixpoint canonical (ms : list (jsstring * Json.value)) : bool :=
  match ms with
  | [] => true
  | (k, _) :: ms' => forallb (fun kv => key_before k (fst kv)) ms' && canonical ms'
  end.

(** The values that [JSON.parse] builds in this model: integers of at
    most fifteen digits, objects with their members in the order of
    enumeration. *)
Fixpoint wf (v : Json.value) : bool :=
  match v with
  | Json.JNum z => (Z.abs z <? 10 ^ 15)%Z
  | Json.JArr l => forallb wf l
  | Json.JObj ms => canonical ms && forallb (fun kv => wf (snd kv)) ms
  | _ => true
  end.

(** A bound on the depth of the calls of the parser on the text of a
    value. *)
Fixpoint size (v : Json.value) : nat :=
  match v with
  | Json.JArr l => S (list_sum (map (fun x => S (size x)) l))
  | Json.JObj ms => S (list_sum (map (fun kv => S (size (snd kv))) ms))
  | _ => 1
  end.

(** What can follow the text of a value: nothing, a comma, or white
    space. *)
Definition value_end (s : jsstring) : bool :=
  match s with
  | [] => true
  | c :: _ => char_eqb c (ch ",") || Json.isJsonSpace c
  end.

(** White space of JSON only. *)
Definition json_space (s : jsstring) : bool := forallb Json.isJsonSpace s.

(** The last decimal digit of [n]. *)
Definition digit (n : nat) : char := (48 + N.of_nat (n mod 10))%N.

(** The members of [package.json] after the two assignments. *)
Definition patched_members (ms : list (jsstring * Json.value))
    (packageName productName : jsstring) : list (jsstring * Json.value) :=
  Json.set_member (str "productName") (Json.JStr productName)
    (Json.set_member (str "name") (Json.JStr packageName) ms).

(** Neither an object nor an array. *)
Definition is_primitive (v : Json.value) : bool :=
  match v with
  | Json.JObj _ | Json.JArr _ => false
  | _ => true
  end.

(** Some occurrence of the command in [s] is followed by white space
    and then a character of an argument. *)
Fixpoint argument_after (s : jsstring) : bool :=
  match strip_prefix xdg_command s with
  | Some t => starts_with_space t && starts_with_arg (trimStart t)
  | None => false
  end
  || match s with
     | [] => false
     | _ :: s' => argument_after s'
     end.

(** The text from the first quote character on. *)
Fixpoint skip_value (s : jsstring) : jsstring :=
  match s with
  | c :: s' => if isQuote c then s else skip_value s'
  | [] => []
  end.

(** The text starts with a quote, a character that is not a quote,
    and has the same quote after the run of such characters. *)
Definition quoted_value (t : jsstring) : bool :=
  match t with
  | q :: r =>
      isQuote q
      && match r with a :: _ => negb (isQuote a) | [] => false end
      && match skip_value r with q' :: _ => char_eqb q q' | [] => false end
  | [] => false
  end.

(** Some occurrence of [field] in [s] comes after a character that is
    not a word character ([prev_word] tells whether the character
    before [s] is one) and is followed by white space, if any, and a
    quoted value. *)
Fixpoint field_quoted (field : jsstring) (prev_word : bool) (s : jsstring) : bool :=
  (negb prev_word
   && match strip_prefix field s with
      | Some t => quoted_value (trimStart t)
      | None => false
      end)
  || match s with
     | [] => false
     | c :: s' => field_quoted field (isWordChar c) s'
     end.

(** [here] holds at some position of [s]; [here] is given whether the
    character before the position is a word character, which
    [prev_word] tells for the start of [s]. *)
Fixpoint scan (here : bool -> jsstring -> bool) (prev_word : bool) (s : jsstring) : bool :=
  here prev_word s
  || match s with
     | [] => false
     | c :: s' => scan here (isWordChar c) s'
     end.

(** The text starts with a quote character. *)
Definition starts_with_quote (s : jsstring) : bool :=
  match s with q :: _ => isQuote q | [] => false end.

(** [executableName:] at a word boundary, followed by white space, if
    any, and a text that [ok] accepts. *)
Definition field_here (ok : jsstring -> bool) (prev_word : bool) (s : jsstring) : bool :=
  negb prev_word
  && match strip_prefix exe_field s with
     | Some t => ok (trimStart t)
     | None => false
     end.

(** The block name [name] -- at a word boundary when [boundary] is
    set --, followed by white space, if any, an opening brace, and a
    text that [body_ok] accepts. *)
Definition block_here (name : jsstring) (boundary : bool) (body_ok : jsstring -> bool)
    (prev_word : bool) (s : jsstring) : bool :=
  negb (boundary && prev_word)
  && match strip_prefix name s with
     | Some t =>
         match trimStart t with
         | c :: body => char_eqb c (ch "{") && body_ok body
         | [] => false
         end
     | None => false
     end.

(** The white space at the start of the text has a newline in it. *)
Fixpoint space_run_has_newline (s : jsstring) : bool :=
  match s with
  | c :: s' => isSpace c && (char_eqb c nl || space_run_has_newline s')
  | [] => false
  end.

(** After the brace of some [linux:], some [executableName:] is
    followed by a quote. *)
Definition linux_has_field (content : jsstring) : bool :=
  scan (block_here (str "linux:") false (scan (field_here starts_with_quote) false)) false content.

(** After the brace of some [linux:], some [executableName:] has a
    quoted value. *)
Definition linux_has_value (content : jsstring) : bool :=
  scan (block_here (str "linux:") false (scan (field_here quoted_value) false)) false content.

(** The brace of some [linux:] is followed by white space with a
    newline. *)
Definition linux_has_opening (content : jsstring) : bool :=
  scan (block_here (str "linux:") false space_run_has_newline) false content.

(** After the brace of some [win:] at a word boundary, some
    [executableName:] has a quoted value. *)
Definition win_has_value (content : jsstring) : bool :=
  scan (block_here (str "win:") true (scan (field_here quoted_value) false)) false content.

(** Whether the last character of [u], or else of the text before,
    is a word character. *)
Definition word_at_end (u : jsstring) (prev_word : bool) : bool :=
  match rev u with a :: _ => isWordChar a | [] => prev_word end.

(** [String.prototype.isWellFormed]: the text has no lone surrogate.
    A file written in UTF-8 reads back as the text written exactly
    for such a text; a lone surrogate comes back as U+FFFD. *)
Fixpoint isWellFormed (s : jsstring) : bool :=
  match s with
  | [] => true
  | c :: s' =>
      if Json.isLeadSurrogate c then
        match s' with
        | d :: s'' => Json.isTrailSurrogate d && isWellFormed s''
        | [] => false
        end
      else negb (Json.isTrailSurrogate c) && isWellFormed s'
  end.

(** Every closing brace of the text closes a brace opened in it, or
    one of [depth] braces open before it, and no brace is left open:
    the end of the text is at the level where it starts. *)
Fixpoint braces_closed (depth : nat) (s : jsstring) : bool :=
  match s with
  | [] => Nat.eqb depth 0
  | c :: s' =>
      if char_eqb c (ch "{") then braces_closed (S depth) s'
      else if char_eqb c (ch "}") then
        match depth with
        | O => false
        | S d => braces_closed d s'
        end
      else braces_closed depth s'
  end.

(** Some [linux:] is followed by white space, if any, and a brace:
    the block as the patterns of the Linux patch see it. *)
Definition linux_has_block (content : jsstring) : bool :=
  scan (block_here (str "linux:") false (fun _ => true)) false content.

(** Rewriting with an instance of a hypothesis about positions, after
    the reversed prefix in it has been computed. *)
Ltac rewrite_at H :=
  let H1 := fresh in pose proof H as H1; cbn [rev app] in H1; rewrite H1; clear H1.

(* ================================================================== *)
(** * Facts about strings *)
(* ================================================================== *)

Section StringFacts.

Implicit Types (c : char) (s t p : jsstring).

Lemma char_eqb_eq c d : char_eqb c d = true <-> c = d.
Proof. unfold char_eqb. apply N.eqb_eq. Qed.

Lemma char_eqb_refl c : char_eqb c c = true.
Proof. apply char_eqb_eq. reflexivity. Qed.

Lemma char_eqb_neq c d : char_eqb c d = false <-> c <> d.
Proof. unfold char_eqb. apply N.eqb_neq. Qed.

Lemma jsstring_eqb_eq s t : JsString.eqb s t = true <-> s = t.
Proof.
  revert t. induction s as [|a s IH]; intros [|b t]; simpl; split; try easy.
  - intros [Hab Hst]%andb_prop. apply char_eqb_eq in Hab. apply IH in Hst. congruence.
  - intros [= -> ->]. rewrite char_eqb_refl. simpl. apply IH. reflexivity.
Qed.

Lemma jsstring_eqb_refl s : JsString.eqb s s = true.
Proof. apply jsstring_eqb_eq. reflexivity. Qed.

Lemma strip_prefix_app p t : strip_prefix p (p ++ t) = Some t.
Proof. induction p as [|a p IH]; simpl; [reflexivity|]. rewrite char_eqb_refl. exact IH. Qed.

Lemma strip_prefix_Some p s t : strip_prefix p s = Some t -> s = p ++ t.
Proof.
  revert s. induction p as [|a p IH]; intros s; simpl.
  - intros [= ->]. reflexivity.
  - destruct s as [|b s]; [discriminate|].
    destruct (char_eqb a b) eqn:E; [|discriminate].
    apply char_eqb_eq in E. subst b. intros H. apply IH in H. congruence.
Qed.

Lemma strip_prefix_None p s : strip_prefix p s = None -> forall t, s <> p ++ t.
Proof. intros H t ->. rewrite strip_prefix_app in H. discriminate. Qed.

(** [find_from] returns the leftmost occurrence. *)
Lemma find_from_Some p before s a b :
  find_from p before s = Some (a, b) ->
  exists mid, a = rev before ++ mid /\ s = mid ++ p ++ b /\
    forall u v, mid = u ++ v -> v <> [] -> strip_prefix p (v ++ p ++ b) = None.
Proof.
  revert before. induction s as [|c s IH]; intros before; simpl.
  - destruct (strip_prefix p []) as [t|] eqn:E; [|discriminate].
    intros [= <- <-]. exists []. rewrite app_nil_r. split; [reflexivity|].
    split; [apply (strip_prefix_Some _ _ _ E)|].
    intros u v Huv Hv. destruct u; destruct v; simpl in Huv; congruence.
  - destruct (strip_prefix p (c :: s)) as [t|] eqn:E.
    + intros [= <- <-]. exists []. rewrite app_nil_r. split; [reflexivity|].
      split; [apply (strip_prefix_Some _ _ _ E)|].
      intros u v Huv Hv. destruct u; destruct v; simpl in Huv; congruence.
    + intros H. destruct (IH _ H) as (mid & -> & -> & Hmid).
      exists (c :: mid). simpl. rewrite <- app_assoc. simpl. split; [reflexivity|].
      split; [reflexivity|].
      intros [|c' u] v Huv Hv; simpl in Huv.
      * subst v. exact E.
      * injection Huv as -> ->. apply (Hmid u v eq_refl Hv).
Qed.

Lemma find_from_None p before s :
  find_from p before s = None -> forall u v, s = u ++ v -> strip_prefix p v = None.
Proof.
  revert before. induction s as [|c s IH]; intros before; simpl.
  - destruct (strip_prefix p []) eqn:E; [discriminate|].
    intros _ u v Huv. symmetry in Huv. apply app_eq_nil in Huv as [_ ->]. exact E.
  - destruct (strip_prefix p (c :: s)) eqn:E; [discriminate|].
    intros H [|c' u] v Huv; simpl in Huv.
    + subst v. exact E.
    + injection Huv as -> ->. apply (IH _ H u v eq_refl).
Qed.

Lemma find_Some p s a b :
  find p s = Some (a, b) ->
  s = a ++ p ++ b /\
  forall u v, a = u ++ v -> v <> [] -> strip_prefix p (v ++ p ++ b) = None.
Proof.
  intros H. destruct (find_from_Some _ _ _ _ _ H) as (mid & -> & -> & Hm).
  simpl. split; [reflexivity|exact Hm].
Qed.

Lemma find_None p s u v : find p s = None -> s = u ++ v -> strip_prefix p v = None.
Proof. intros H. apply (find_from_None _ _ _ H). Qed.

Lemma includes_false p s u v :
  includes s p = false -> s = u ++ v -> strip_prefix p v = None.
Proof.
  unfold includes. destruct (find p s) eqn:E; [discriminate|].
  intros _. apply (find_None _ _ _ _ E).
Qed.

Lemma includes_false_suffix p s v :
  includes s p = false -> v `suffix_of` s -> includes v p = false.
Proof.
  intros H [u ->]. unfold includes. destruct (find p v) as [[a b]|] eqn:E; [|reflexivity].
  apply find_Some in E as [-> _].
  assert (strip_prefix p (p ++ b) = None) as F.
  { apply (includes_false _ _ (u ++ a) _ H). rewrite app_assoc. reflexivity. }
  rewrite strip_prefix_app in F. discriminate.
Qed.

End StringFacts.

(* ================================================================== *)
(** * Facts about the matcher *)
(* ================================================================== *)

Section MatcherFacts.

Variable ml : bool.
Implicit Types (c s t p : jsstring) (k : mstate -> option mstate) (cp : gmap nat jsstring).

Lemma rmatch_Lit_app p k c t cp :
  rmatch ml (Lit p) k (MState c (p ++ t) cp) = k (MState (rev p ++ c) t cp).
Proof. simpl. rewrite strip_prefix_app. reflexivity. Qed.

Lemma rmatch_Lit_None p k x :
  strip_prefix p (rest x) = None -> rmatch ml (Lit p) k x = None.
Proof. intros H. simpl. rewrite H. reflexivity. Qed.

Lemma eqb_succ_false n : Nat.eqb n (S n) = false.
Proof. apply Nat.eqb_neq. lia. Qed.

Lemma rmatch_Class negated items k c s cp :
  rmatch ml (Class negated items) k (MState c s cp) =
  match s with
  | a :: t => if class_matches negated items a then k (MState (a :: c) t cp) else None
  | [] => None
  end.
Proof. destruct s; reflexivity. Qed.

Lemma repeat_matcher_zero m inner greedy fuel k x :
  repeat_matcher m inner greedy (S fuel) 0 k x =
  let d := fun y : mstate =>
    if Nat.eqb (length (rest y)) (length (rest x)) then None
    else repeat_matcher m inner greedy fuel 0 k y in
  if greedy
  then match m d (clear_caps inner x) with Some z => Some z | None => k x end
  else match k x with Some z => Some z | None => m d (clear_caps inner x) end.
Proof. reflexivity. Qed.

Lemma repeat_matcher_pos m inner greedy fuel min k x :
  repeat_matcher m inner greedy (S fuel) (S min) k x =
  m (repeat_matcher m inner greedy fuel min k) (clear_caps inner x).
Proof. reflexivity. Qed.

Lemma rmatch_Repeat min greedy r k x :
  rmatch ml (Repeat min greedy r) k x =
  repeat_matcher (rmatch ml r) (groups_of r) greedy (S (min + length (rest x))) min k x.
Proof. reflexivity. Qed.

Lemma clear_caps_nil x : clear_caps [] x = x.
Proof. destruct x. reflexivity. Qed.

(** *** Quantified character classes *)

Section ClassRepeat.

Variables (negated : bool) (items : list class_item).

Let cls : regex := Class negated items.
Let inclass (ch : char) : bool := class_matches negated items ch.

(** One step of the quantifier on a class, with any fuel. *)
Lemma repeat_class_step greedy fuel k c s cp :
  repeat_matcher (rmatch ml cls) [] greedy (S fuel) 0 k (MState c s cp) =
  let next :=
    match s with
    | a :: t =>
        if inclass a
        then repeat_matcher (rmatch ml cls) [] greedy fuel 0 k (MState (a :: c) t cp)
        else None
    | [] => None
    end in
  if greedy
  then match next with Some z => Some z | None => k (MState c s cp) end
  else match k (MState c s cp) with Some z => Some z | None => next end.
Proof.
  rewrite repeat_matcher_zero. cbv zeta. rewrite clear_caps_nil.
  unfold cls at 1 3. rewrite !rmatch_Class. fold cls. fold inclass.
  destruct s as [|a t]; [reflexivity|].
  cbn [rest length]. rewrite eqb_succ_false. reflexivity.
Qed.

(** More fuel than the length of the input changes nothing. *)
Lemma repeat_class_fuel greedy k s : forall fuel c cp,
  length s < fuel ->
  repeat_matcher (rmatch ml cls) [] greedy fuel 0 k (MState c s cp)
  = repeat_matcher (rmatch ml cls) [] greedy (S (length s)) 0 k (MState c s cp).
Proof.
  induction s as [|a s IH]; intros fuel c cp Hf.
  - destruct fuel as [|fuel]; [simpl in Hf; lia|].
    cbn [length]. rewrite (repeat_class_step greedy fuel), (repeat_class_step greedy 0).
    reflexivity.
  - destruct fuel as [|fuel]; [simpl in Hf; lia|].
    simpl in Hf. assert (length s < fuel) as Hf' by lia.
    cbn [length].
    rewrite (repeat_class_step greedy fuel), (repeat_class_step greedy (S (length s))).
    cbv zeta. rewrite (IH fuel (a :: c) cp Hf'). reflexivity.
Qed.

(** One step of [r*]. *)
Lemma star_unfold k c s cp :
  rmatch ml (Star cls) k (MState c s cp) =
  match s with
  | a :: s' =>
      if inclass a then
        match rmatch ml (Star cls) k (MState (a :: c) s' cp) with
        | Some z => Some z
        | None => k (MState c s cp)
        end
      else k (MState c s cp)
  | [] => k (MState c s cp)
  end.
Proof.
  unfold Star. rewrite !rmatch_Repeat. cbn [groups_of cls rest Nat.add].
  fold cls. rewrite repeat_class_step. cbv zeta.
  destruct s as [|a s]; [reflexivity|].
  rewrite rmatch_Repeat. cbn [groups_of cls rest Nat.add length].
  destruct (inclass a); reflexivity.
Qed.

(** One step of [r*?]. *)
Lemma lazy_star_unfold k c s cp :
  rmatch ml (LazyStar cls) k (MState c s cp) =
  match k (MState c s cp) with
  | Some z => Some z
  | None =>
      match s with
      | a :: s' =>
          if inclass a then rmatch ml (LazyStar cls) k (MState (a :: c) s' cp) else None
      | [] => None
      end
  end.
Proof.
  unfold LazyStar. rewrite !rmatch_Repeat. cbn [groups_of cls rest Nat.add].
  fold cls. rewrite repeat_class_step. cbv zeta.
  destruct s as [|a s]; [reflexivity|].
  rewrite rmatch_Repeat. cbn [groups_of cls rest Nat.add length].
  destruct (inclass a); reflexivity.
Qed.

(** One step of [r+]. *)
Lemma plus_unfold k c s cp :
  rmatch ml (Plus cls) k (MState c s cp) =
  match s with
  | a :: s' =>
      if inclass a then rmatch ml (Star cls) k (MState (a :: c) s' cp) else None
  | [] => None
  end.
Proof.
  unfold Plus, Star. rewrite !rmatch_Repeat. cbn [groups_of cls rest Nat.add].
  fold cls. rewrite repeat_matcher_pos, clear_caps_nil.
  unfold cls at 1. rewrite rmatch_Class. fold cls. fold inclass.
  destruct s as [|a s]; [reflexivity|].
  rewrite rmatch_Repeat. cbn [groups_of cls rest Nat.add length]. fold cls.
  unfold inclass. destruct (class_matches negated items a); [|reflexivity].
  apply repeat_class_fuel. cbn [length]. lia.
Qed.

(** *** Runs of class characters *)

(** [r*] goes as far as it can: when the continuation succeeds
    after a run of class characters, shorter runs are not tried. *)
Lemma star_run k w z : forall c s cp,
  forallb inclass w = true ->
  rmatch ml (Star cls) k (MState (rev w ++ c) s cp) = Some z ->
  rmatch ml (Star cls) k (MState c (w ++ s) cp) = Some z.
Proof.
  induction w as [|a w IH]; intros c s cp Hw Hz; [exact Hz|].
  cbn [forallb] in Hw. apply andb_prop in Hw as [Ha Hw].
  rewrite star_unfold. cbn [app]. rewrite Ha.
  rewrite (IH (a :: c) s cp Hw); [reflexivity|].
  cbn [rev] in Hz. rewrite <- app_assoc in Hz. exact Hz.
Qed.

(** When the continuation fails wherever [r*] can stop beyond the
    current position, [r*] matches nothing. *)
Lemma star_back k w t : forall c cp,
  forallb inclass w = true ->
  match t with a :: _ => inclass a = false | [] => True end ->
  (forall u v, w = u ++ v -> u <> [] -> k (MState (rev u ++ c) (v ++ t) cp) = None) ->
  rmatch ml (Star cls) k (MState c (w ++ t) cp) = k (MState c (w ++ t) cp).
Proof.
  induction w as [|a w IH]; intros c cp Hw Ht Hk.
  - rewrite star_unfold. cbn [app]. destruct t as [|b t]; [reflexivity|].
    rewrite Ht. reflexivity.
  - cbn [forallb] in Hw. apply andb_prop in Hw as [Ha Hw].
    rewrite star_unfold. cbn [app]. rewrite Ha.
    rewrite (IH (a :: c) cp Hw Ht).
    + rewrite_at (Hk [a] w eq_refl ltac:(discriminate)). reflexivity.
    + intros u v -> Hu. specialize (Hk (a :: u) v eq_refl).
      cbn [rev] in Hk. rewrite <- app_assoc in Hk. apply Hk. discriminate.
Qed.

(** [r*] fails when the continuation fails everywhere. *)
Lemma star_None k s : forall c cp,
  (forall u v, s = u ++ v -> k (MState (rev u ++ c) v cp) = None) ->
  rmatch ml (Star cls) k (MState c s cp) = None.
Proof.
  induction s as [|a s IH]; intros c cp Hk.
  - rewrite star_unfold. apply (Hk [] [] eq_refl).
  - rewrite star_unfold. rewrite_at (Hk [] (a :: s) eq_refl).
    rewrite IH.
    + destruct (inclass a); reflexivity.
    + intros u v ->. specialize (Hk (a :: u) v eq_refl).
      cbn [rev] in Hk. rewrite <- app_assoc in Hk. exact Hk.
Qed.

(** [r*?] stops at the first place where the continuation succeeds. *)
Lemma lazy_star_skip k w : forall c t cp,
  forallb inclass w = true ->
  (forall u v, w = u ++ v -> v <> [] -> k (MState (rev u ++ c) (v ++ t) cp) = None) ->
  rmatch ml (LazyStar cls) k (MState c (w ++ t) cp)
  = rmatch ml (LazyStar cls) k (MState (rev w ++ c) t cp).
Proof.
  induction w as [|a w IH]; intros c t cp Hw Hk; [reflexivity|].
  cbn [forallb] in Hw. apply andb_prop in Hw as [Ha Hw].
  rewrite lazy_star_unfold. cbn [app].
  rewrite_at (Hk [] (a :: w) eq_refl ltac:(discriminate)). rewrite Ha.
  rewrite (IH (a :: c) t cp Hw).
  - cbn [rev]. rewrite <- app_assoc. reflexivity.
  - intros u v -> Hv. specialize (Hk (a :: u) v eq_refl Hv).
    cbn [rev] in Hk. rewrite <- app_assoc in Hk. exact Hk.
Qed.

Lemma lazy_star_here k x z :
  k x = Some z -> rmatch ml (LazyStar cls) k x = Some z.
Proof. destruct x as [c s cp]. intros H. rewrite lazy_star_unfold, H. reflexivity. Qed.

Lemma lazy_star_None k s : forall c cp,
  (forall u v, s = u ++ v -> k (MState (rev u ++ c) v cp) = None) ->
  rmatch ml (LazyStar cls) k (MState c s cp) = None.
Proof.
  induction s as [|a s IH]; intros c cp Hk.
  - rewrite lazy_star_unfold. rewrite_at (Hk [] [] eq_refl). reflexivity.
  - rewrite lazy_star_unfold. rewrite_at (Hk [] (a :: s) eq_refl).
    rewrite IH.
    + destruct (inclass a); reflexivity.
    + intros u v ->. specialize (Hk (a :: u) v eq_refl).
      cbn [rev] in Hk. rewrite <- app_assoc in Hk. exact Hk.
Qed.

(** [r*] over a whole run of class characters, when the
    continuation fails before the end of the run. *)
Lemma star_far k w t : forall c cp,
  forallb inclass w = true ->
  match t with a :: _ => inclass a = false | [] => True end ->
  (forall u v, w = u ++ v -> v <> [] -> k (MState (rev u ++ c) (v ++ t) cp) = None) ->
  rmatch ml (Star cls) k (MState c (w ++ t) cp) = k (MState (rev w ++ c) t cp).
Proof.
  induction w as [|a w IH]; intros c cp Hw Ht Hk.
  - rewrite star_unfold. cbn [app rev]. destruct t as [|b t]; [reflexivity|].
    rewrite Ht. reflexivity.
  - cbn [forallb] in Hw. apply andb_prop in Hw as [Ha Hw].
    rewrite star_unfold. cbn [app]. rewrite Ha.
    rewrite (IH (a :: c) cp Hw Ht).
    + cbn [rev]. rewrite <- app_assoc. cbn [app].
      destruct (k _) eqn:E; [reflexivity|].
      rewrite_at (Hk [] (a :: w) eq_refl ltac:(discriminate)). reflexivity.
    + intros u v -> Hv. specialize (Hk (a :: u) v eq_refl Hv).
      cbn [rev] in Hk. rewrite <- app_assoc in Hk. exact Hk.
Qed.

Lemma star_stop k c t cp :
  match t with a :: _ => inclass a = false | [] => True end ->
  rmatch ml (Star cls) k (MState c t cp) = k (MState c t cp).
Proof.
  intros Ht. rewrite star_unfold. destruct t as [|b t]; [reflexivity|].
  rewrite Ht. reflexivity.
Qed.

End ClassRepeat.

(** *** Progress

    A matcher hands to its continuation a state further in the same
    input. *)

Lemma suffix_strip p s t : strip_prefix p s = Some t -> t `suffix_of` s.
Proof. intros H. apply strip_prefix_Some in H. subst s. apply suffix_app_r. reflexivity. Qed.

Lemma repeat_matcher_progresses m inner greedy :
  progresses m -> forall fuel min, progresses (repeat_matcher m inner greedy fuel min).
Proof.
  intros Hm. induction fuel as [|fuel IH]; intros min k x z; [discriminate|].
  destruct min as [|min].
  - rewrite repeat_matcher_zero. cbv zeta.
    assert (forall z', m (fun y => if Nat.eqb (length (rest y)) (length (rest x)) then None
                      else repeat_matcher m inner greedy fuel 0 k y) (clear_caps inner x)
              = Some z' -> exists y, k y = Some z' /\ rest y `suffix_of` rest x) as Hstep.
    { intros z' H. apply Hm in H as (y & Hy & Hsuf).
      destruct (Nat.eqb (length (rest y)) (length (rest x))); [discriminate|].
      apply IH in Hy as (y' & Hy' & Hsuf'). exists y'. split; [exact Hy'|].
      etrans; [exact Hsuf'|exact Hsuf]. }
    destruct greedy.
    + destruct (m _ (clear_caps inner x)) as [z'|] eqn:E.
      * intros [= <-]. apply Hstep. reflexivity.
      * intros H. exists x. split; [exact H|reflexivity].
    + destruct (k x) as [z'|] eqn:E.
      * intros [= <-]. exists x. split; [exact E|reflexivity].
      * apply Hstep.
  - rewrite repeat_matcher_pos. intros H. apply Hm in H as (y & Hy & Hsuf).
    apply IH in Hy as (y' & Hy' & Hsuf'). exists y'. split; [exact Hy'|].
    etrans; [exact Hsuf'|exact Hsuf].
Qed.

Lemma rmatch_progresses r : progresses (rmatch ml r).
Proof.
  induction r as [p|negated items|r1 IH1 r2 IH2|min greedy r IH|n r IH|n| | |];
    intros k x z.
  - cbn [rmatch]. destruct (strip_prefix p (rest x)) as [t|] eqn:E; [|discriminate].
    intros H. eexists. split; [exact H|]. apply (suffix_strip _ _ _ E).
  - cbn [rmatch]. destruct (rest x) as [|a t] eqn:E; [discriminate|].
    destruct (class_matches negated items a); [|discriminate].
    intros H. eexists. split; [exact H|]. cbn [advance rest]. apply suffix_cons_r. reflexivity.
  - cbn [rmatch]. intros H. apply IH1 in H as (y & Hy & Hsuf).
    apply IH2 in Hy as (y' & Hy' & Hsuf'). exists y'. split; [exact Hy'|].
    etrans; [exact Hsuf'|exact Hsuf].
  - rewrite rmatch_Repeat. apply repeat_matcher_progresses. exact IH.
  - cbn [rmatch]. intros H. apply IH in H as (y & Hy & Hsuf).
    eexists. split; [exact Hy|exact Hsuf].
  - cbn [rmatch]. destruct (caps x !! n) as [s|].
    + destruct (strip_prefix s (rest x)) as [t|] eqn:E; [|discriminate].
      intros H. eexists. split; [exact H|]. apply (suffix_strip _ _ _ E).
    + intros H. exists x. split; [exact H|reflexivity].
  - cbn [rmatch]. destruct (xorb _ _); [|discriminate].
    intros H. exists x. split; [exact H|reflexivity].
  - cbn [rmatch]. destruct (consumed x) as [|a ?].
    + intros H. exists x. split; [exact H|reflexivity].
    + destruct (ml && isLineTerminator a); [|discriminate].
      intros H. exists x. split; [exact H|reflexivity].
  - cbn [rmatch]. destruct (rest x) as [|a ?] eqn:E.
    + intros H. exists x. split; [exact H|rewrite E; reflexivity].
    + destruct (ml && isLineTerminator a); [|discriminate].
      intros H. exists x. split; [exact H|rewrite E; reflexivity].
Qed.

(** A pattern that goes through a literal cannot match in a text
    where the literal does not occur. *)
Lemma rmatch_needs_literal r p k x :
  includes (rest x) p = false -> rmatch ml r (rmatch ml (Lit p) k) x = None.
Proof.
  intros Hx. destruct (rmatch ml r _ x) as [z|] eqn:E; [|reflexivity].
  apply rmatch_progresses in E as (y & Hy & Hsuf).
  rewrite rmatch_Lit_None in Hy; [discriminate|].
  destruct Hsuf as [u Hu].
  apply (includes_false p (rest x) u (rest y) Hx Hu).
Qed.

(** *** Captured text *)

Lemma between_app a b c cp c' cp' :
  between (MState c (a ++ b) cp) (MState c' b cp') = a.
Proof.
  unfold between. cbn [rest]. rewrite length_app.
  replace (length a + length b - length b) with (length a) by lia.
  apply take_app_length.
Qed.

Lemma rmatch_Group n r k x :
  rmatch ml (Group n r) k x =
  rmatch ml r (fun y => k (MState (consumed y) (rest y) (<[n := between x y]> (caps y)))) x.
Proof. reflexivity. Qed.

Lemma rmatch_Seq r1 r2 k x : rmatch ml (Seq r1 r2) k x = rmatch ml r1 (rmatch ml r2 k) x.
Proof. reflexivity. Qed.

Lemma rmatch_Backref_app n p k c t cp :
  cp !! n = Some p ->
  rmatch ml (Backref n) k (MState c (p ++ t) cp) = k (MState (rev p ++ c) t cp).
Proof. intros H. cbn [rmatch caps rest]. rewrite H, strip_prefix_app. reflexivity. Qed.

Lemma rmatch_Backref_None n p k x :
  caps x !! n = Some p -> strip_prefix p (rest x) = None ->
  rmatch ml (Backref n) k x = None.
Proof. intros H1 H2. cbn [rmatch]. rewrite H1, H2. reflexivity. Qed.

Lemma rmatch_WordBoundary k x :
  rmatch ml WordBoundary k x = if xorb (word_before x) (word_after x) then k x else None.
Proof. reflexivity. Qed.

End MatcherFacts.

(** ** Searching for a match *)

Section ExecFacts.

Variable re : RegExp.t.

Lemma exec_from_here before s y :
  rmatch (multiline re) (pattern re) Some (MState before s ∅) = Some y ->
  exec_from re before s =
  Some (MatchResult (rev before) (take (length s - length (rest y)) s) (rest y) (caps y)).
Proof. intros H. destruct s; cbn [exec_from]; rewrite H; reflexivity. Qed.

Lemma exec_from_skip a : forall before s,
  (forall u v, a = u ++ v -> v <> [] ->
     rmatch (multiline re) (pattern re) Some (MState (rev u ++ before) (v ++ s) ∅) = None) ->
  exec_from re before (a ++ s) = exec_from re (rev a ++ before) s.
Proof.
  induction a as [|c a IH]; intros before s H; [reflexivity|].
  cbn [app exec_from]. rewrite_at (H [] (c :: a) eq_refl ltac:(discriminate)).
  rewrite IH.
  - cbn [rev]. rewrite <- app_assoc. reflexivity.
  - intros u v -> Hv. specialize (H (c :: u) v eq_refl Hv).
    cbn [rev] in H. rewrite <- app_assoc in H. exact H.
Qed.

Lemma exec_from_None s : forall before,
  (forall u v, s = u ++ v ->
     rmatch (multiline re) (pattern re) Some (MState (rev u ++ before) v ∅) = None) ->
  exec_from re before s = None.
Proof.
  induction s as [|c s IH]; intros before H.
  - cbn [exec_from]. rewrite_at (H [] [] eq_refl). reflexivity.
  - cbn [exec_from]. rewrite_at (H [] (c :: s) eq_refl).
    apply IH. intros u v ->. specialize (H (c :: u) v eq_refl).
    cbn [rev] in H. rewrite <- app_assoc in H. exact H.
Qed.

(** The match found in [a ++ matched ++ after] when the pattern fails
    at every position inside [a] and, right after [a], matches
    [matched]. *)
Lemma exec_found a matched after cps y :
  (forall u v, a = u ++ v -> v <> [] ->
     rmatch (multiline re) (pattern re) Some
       (MState (rev u) (v ++ matched ++ after) ∅) = None) ->
  rmatch (multiline re) (pattern re) Some (MState (rev a) (matched ++ after) ∅) = Some y ->
  rest y = after -> caps y = cps ->
  exec re (a ++ matched ++ after) = Some (MatchResult a matched after cps).
Proof.
  intros Hskip Hy Hrest Hcaps. unfold exec.
  rewrite exec_from_skip.
  - rewrite app_nil_r. rewrite (exec_from_here _ _ _ Hy).
    rewrite Hrest, Hcaps, rev_involutive. f_equal. f_equal.
    rewrite length_app.
    replace (length matched + length after - length after) with (length matched) by lia.
    apply take_app_length.
  - intros u v Huv Hv. rewrite app_nil_r. apply (Hskip u v Huv Hv).
Qed.

Lemma exec_None s :
  (forall u v, s = u ++ v ->
     rmatch (multiline re) (pattern re) Some (MState (rev u) v ∅) = None) ->
  exec re s = None.
Proof.
  intros H. apply exec_from_None. intros u v Huv. rewrite app_nil_r. apply (H u v Huv).
Qed.

End ExecFacts.

(** ** Character classes *)

Section ClassFacts.

Implicit Types c : char.

Lemma space_class c : class_matches false [CSpace] c = isSpace c.
Proof. unfold class_matches. cbn. rewrite orb_false_r. reflexivity. Qed.

Lemma anychar_class c : class_matches false [CSpace; CNotSpace] c = true.
Proof. unfold class_matches. cbn. destruct (isSpace c); reflexivity. Qed.

Lemma quote_class c :
  class_matches false [CChar dq; CChar (ch "'"); CChar (ch "`")] c = isQuote c.
Proof. unfold class_matches, isQuote. cbn. rewrite orb_false_r, orb_assoc. reflexivity. Qed.

Lemma not_quote_class c :
  class_matches true [CChar dq; CChar (ch "'"); CChar (ch "`")] c = negb (isQuote c).
Proof. unfold class_matches, isQuote. cbn. rewrite orb_false_r, orb_assoc. reflexivity. Qed.

Lemma lower_or_digit_class c :
  class_matches false [CRange (ch "a") (ch "z"); CRange (ch "0") (ch "9")] c = isLowerOrDigit c.
Proof. unfold class_matches, isLowerOrDigit. cbn. rewrite orb_false_r. reflexivity. Qed.

Lemma slug_char_class c :
  class_matches false [CRange (ch "a") (ch "z"); CRange (ch "0") (ch "9"); CChar (ch "-")] c
  = isSlugChar c.
Proof.
  unfold class_matches, isSlugChar, isLowerOrDigit. cbn.
  rewrite orb_false_r, orb_assoc. reflexivity.
Qed.

Lemma forallb_ext_eq (f g : char -> bool) (s : jsstring) :
  (forall c, f c = g c) -> forallb f s = forallb g s.
Proof. intros H. induction s as [|a s IH]; cbn; [reflexivity|]. rewrite H, IH. reflexivity. Qed.

End ClassFacts.

Section CharFacts.
Implicit Types c : char.

Lemma quote_not_space c : isQuote c = true -> isSpace c = false.
Proof. intros H. char_arith. Qed.

Lemma slug_char_not_space c : isSlugChar c = true -> isSpace c = false.
Proof. intros H. char_arith. Qed.

Lemma slug_char_not_dollar c : isSlugChar c = true -> char_eqb c (ch "$") = false.
Proof. intros H. char_arith. Qed.

Lemma lower_or_digit_slug_char c : isLowerOrDigit c = true -> isSlugChar c = true.
Proof. intros H. unfold isSlugChar. rewrite H. reflexivity. Qed.

End CharFacts.

(** ** The patterns of the script *)

Section PatternFacts.

Variable ml : bool.
Implicit Types (c s t p : jsstring) (k : mstate -> option mstate) (cp : gmap nat jsstring).

Lemma strip_prefix_quote_mismatch q b v :
  isQuote q = true -> isQuote b = false -> strip_prefix [q] (b :: v) = None.
Proof.
  intros Hq Hb. cbn [strip_prefix].
  destruct (char_eqb q b) eqn:E; [|reflexivity].
  apply char_eqb_eq in E. subst b. congruence.
Qed.

Lemma between_cons a b c cp c' cp' :
  between (MState c (a :: b) cp) (MState c' b cp') = [a].
Proof. apply (between_app [a] b). Qed.

Lemma between_cons_app a w b c cp c' cp' :
  between (MState c (a :: w ++ b) cp) (MState c' b cp') = a :: w.
Proof. apply (between_app (a :: w) b). Qed.

Lemma rmatch_Backref_cons n q k c t cp :
  cp !! n = Some [q] ->
  rmatch ml (Backref n) k (MState c (q :: t) cp) = k (MState (q :: c) t cp).
Proof. apply (rmatch_Backref_app ml n [q]). Qed.

(** The tail [(Q)(N+)(\2)] on a quoted value: it matches the value
    with its two quotes, and nothing else. *)
Lemma quoted_value_tail_match k c q old post cp :
  isQuote q = true -> old <> [] -> no_quote old = true ->
  rmatch ml quoted_value_tail k (MState c (q :: old ++ q :: post) cp)
  = k (MState (q :: rev old ++ q :: c) post
         (<[4 := [q]]> (<[3 := old]> (<[2 := [q]]> cp)))).
Proof.
  intros Hq Hold Hnq. unfold quoted_value_tail.
  rewrite rmatch_Seq, rmatch_Group. unfold quote_char. rewrite rmatch_Class.
  rewrite quote_class, Hq. cbn [consumed rest caps].
  rewrite between_cons.
  rewrite rmatch_Seq, rmatch_Group.
  destruct old as [|a old]; [congruence|]. clear Hold.
  unfold no_quote in Hnq. cbn [forallb] in Hnq. apply andb_prop in Hnq as [Ha Hnq].
  unfold not_quote_char. cbn [app]. rewrite plus_unfold.
  rewrite not_quote_class, Ha.
  rewrite star_far.
  - cbn [consumed rest caps].
    rewrite between_cons_app.
    rewrite rmatch_Group.
    rewrite (rmatch_Backref_cons 2 q).
    + cbn [consumed rest caps rev app]. rewrite between_cons.
      rewrite <- app_assoc. reflexivity.
    + rewrite lookup_insert_ne by discriminate. apply lookup_insert_eq.
  - rewrite (forallb_ext_eq _ (fun x => negb (isQuote x))); [exact Hnq|].
    intros x. apply not_quote_class.
  - rewrite not_quote_class, Hq. reflexivity.
  - intros u v -> Hv. cbn [consumed rest caps].
    rewrite rmatch_Group. apply rmatch_Backref_None with (p := [q]).
    + cbn [caps]. rewrite lookup_insert_ne by discriminate. apply lookup_insert_eq.
    + cbn [rest]. destruct v as [|b v]; [congruence|]. cbn [app].
      apply strip_prefix_quote_mismatch; [exact Hq|].
      rewrite forallb_app in Hnq. apply andb_prop in Hnq as [_ Hv'].
      cbn [forallb] in Hv'. apply andb_prop in Hv' as [Hb _].
      apply negb_true_iff in Hb. exact Hb.
Qed.

Lemma star_space_run k w z c s cp :
  all_space w = true ->
  rmatch ml (Star space) k (MState (rev w ++ c) s cp) = Some z ->
  rmatch ml (Star space) k (MState c (w ++ s) cp) = Some z.
Proof.
  intros Hw. apply star_run.
  rewrite (forallb_ext_eq _ isSpace); [exact Hw|]. intros x. apply space_class.
Qed.

Lemma star_space_stop k c t cp :
  starts_with_space t = false ->
  rmatch ml (Star space) k (MState c t cp) = k (MState c t cp).
Proof.
  intros Ht. apply star_stop. destruct t as [|a t]; [exact I|].
  rewrite space_class. exact Ht.
Qed.

Lemma word_before_brace mid c s cp :
  ends_with_word mid = false ->
  word_before (MState (rev mid ++ ch "{" :: c) s cp) = false.
Proof.
  unfold ends_with_word, word_before. cbn [consumed].
  destruct (rev mid); [reflexivity|]. intros H. exact H.
Qed.

(** The head of the executable-name patterns, from the name of the
    block to the white space after the first [executableName:] that
    follows the brace. *)
Lemma exec_name_head_match block bl k c ws mid ws2 t cp z :
  (forall k' t',
     rmatch ml block k' (MState c (bl ++ t') cp) = k' (MState (rev bl ++ c) t' cp)) ->
  all_space ws = true ->
  find exe_field (mid ++ exe_field ++ ws2 ++ t) = Some (mid, ws2 ++ t) ->
  ends_with_word mid = false ->
  all_space ws2 = true ->
  starts_with_space t = false ->
  k (MState (rev ws2 ++ rev exe_field ++ rev mid ++ ch "{" :: rev ws ++ rev bl ++ c) t cp)
    = Some z ->
  rmatch ml (exec_name_head block) k
    (MState c (bl ++ ws ++ ch "{" :: mid ++ exe_field ++ ws2 ++ t) cp) = Some z.
Proof.
  intros Hblock Hws Hfind Hword Hws2 Ht Hk.
  unfold exec_name_head. rewrite rmatch_Seq, Hblock, rmatch_Seq.
  apply star_space_run; [exact Hws|].
  rewrite star_space_stop by reflexivity.
  rewrite rmatch_Seq. change (ch "{" :: ?x) with (str "{" ++ x).
  rewrite rmatch_Lit_app. rewrite rmatch_Seq. unfold anychar.
  rewrite lazy_star_skip.
  - apply lazy_star_here.
    rewrite rmatch_Seq, rmatch_WordBoundary.
    change (rev (str "{") ++ ?x) with (ch "{" :: x).
    rewrite word_before_brace by exact Hword.
    change (word_after _) with true. cbn [xorb].
    rewrite rmatch_Seq. change (str "executableName:") with exe_field.
    rewrite rmatch_Lit_app.
    apply star_space_run; [exact Hws2|].
    rewrite star_space_stop by exact Ht.
    rewrite <- Hk. f_equal.
  - apply forallb_forall. intros x _. apply anychar_class.
  - intros u v -> Hv. rewrite rmatch_Seq, rmatch_WordBoundary.
    destruct (xorb _ _); [|reflexivity].
    rewrite rmatch_Seq. apply rmatch_Lit_None. cbn [rest].
    apply find_Some in Hfind as [_ Hfirst].
    apply (Hfirst u v eq_refl Hv).
Qed.

End PatternFacts.

(** ** The executable-name patterns on a well-formed field *)

Section ExecNameField.

(** The block pattern ([linux:] or [\bwin:]), the text it matches,
    and the text before the first place where it matches. *)
Variables (ml : bool) (block : regex) (bl pre : jsstring).

Hypothesis block_here : forall k t cp,
  rmatch ml block k (MState (rev pre) (bl ++ t) cp) = k (MState (rev bl ++ rev pre) t cp).

Variables (ws mid ws2 old post : jsstring) (q : char).

Hypothesis block_not_before : forall k u v,
  pre = u ++ v -> v <> [] ->
  rmatch ml block k
    (MState (rev u)
       (v ++ bl ++ ws ++ ch "{" :: mid ++ exe_field ++ ws2 ++ q :: old ++ q :: post) ∅)
  = None.

Hypothesis ws_space : all_space ws = true.
Hypothesis field_first :
  find exe_field (mid ++ exe_field ++ ws2 ++ q :: old ++ q :: post)
  = Some (mid, ws2 ++ q :: old ++ q :: post).
Hypothesis field_boundary : ends_with_word mid = false.
Hypothesis ws2_space : all_space ws2 = true.
Hypothesis q_quote : isQuote q = true.
Hypothesis old_nonempty : old <> [].
Hypothesis old_no_quote : no_quote old = true.

(** The text from the block name to the white space before the
    opening quote of the value. *)
Let head : jsstring := bl ++ ws ++ ch "{" :: mid ++ exe_field ++ ws2.

Let content : jsstring := pre ++ head ++ q :: old ++ q :: post.

Lemma head_consumed c :
  rev ws2 ++ rev exe_field ++ rev mid ++ ch "{" :: rev ws ++ rev bl ++ c = rev head ++ c.
Proof.
  unfold head. repeat first [rewrite rev_app_distr | progress cbn [rev]].
  reassoc. reflexivity.
Qed.

Lemma exec_name_head_here k t cp z :
  starts_with_space t = false ->
  find exe_field (mid ++ exe_field ++ ws2 ++ t) = Some (mid, ws2 ++ t) ->
  k (MState (rev head ++ rev pre) t cp) = Some z ->
  rmatch ml (exec_name_head block) k (MState (rev pre) (head ++ t) cp) = Some z.
Proof.
  intros Ht Hfind Hk. unfold head. reassoc.
  apply exec_name_head_match; try assumption.
  - intros k' t'. apply block_here.
  - rewrite head_consumed. exact Hk.
Qed.

Lemma quote_starts_no_space t : starts_with_space (q :: t) = false.
Proof. cbn. apply quote_not_space. exact q_quote. Qed.

(** The test pattern [H Q] finds the field. *)
Lemma exec_has_field src :
  exec (Make src ml (Seq (exec_name_head block) quote_char)) content
  = Some (MatchResult pre (head ++ [q]) (old ++ q :: post) ∅).
Proof.
  unfold content.
  replace (pre ++ head ++ q :: old ++ q :: post)
    with (pre ++ (head ++ [q]) ++ old ++ q :: post)
    by (reassoc; reflexivity).
  apply exec_found with (y := MState (q :: rev head ++ rev pre) (old ++ q :: post) ∅);
    try reflexivity.
  - intros u v Huv Hv. cbn [multiline pattern]. rewrite rmatch_Seq.
    unfold exec_name_head. rewrite rmatch_Seq.
    unfold head. reassoc. apply block_not_before; assumption.
  - cbn [multiline pattern]. rewrite rmatch_Seq. reassoc.
    apply exec_name_head_here.
    + apply quote_starts_no_space.
    + exact field_first.
    + unfold quote_char. rewrite rmatch_Class, quote_class, q_quote. reflexivity.
Qed.

Lemma exec_field src :
  exec (Make src ml (Seq (Group 1 (exec_name_head block)) quoted_value_tail)) content
  = Some (MatchResult pre (head ++ q :: old ++ [q]) post (field_caps head q old)).
Proof.
  unfold content.
  replace (pre ++ head ++ q :: old ++ q :: post)
    with (pre ++ (head ++ q :: old ++ [q]) ++ post)
    by (reassoc; reflexivity).
  apply exec_found
    with (y := MState (q :: rev old ++ q :: rev head ++ rev pre) post (field_caps head q old));
    try reflexivity.
  - intros u v Huv Hv. cbn [multiline pattern]. rewrite rmatch_Seq, rmatch_Group.
    unfold exec_name_head. rewrite rmatch_Seq.
    unfold head. reassoc. apply block_not_before; assumption.
  - cbn [multiline pattern]. rewrite rmatch_Seq, rmatch_Group.
    reassoc. change ([q] ++ post) with (q :: post).
    apply exec_name_head_here.
    + apply quote_starts_no_space.
    + exact field_first.
    + cbn [consumed rest caps].
      rewrite quoted_value_tail_match by assumption.
      f_equal. f_equal. unfold field_caps. f_equal. f_equal. f_equal. f_equal.
      apply (between_app head).
Qed.

(** What the replacer makes of the field: the value changes, the rest
    of the text and the quote character stay. *)
Lemma replace_field src name :
  replace_with content
    (Make src ml (Seq (Group 1 (exec_name_head block)) quoted_value_tail))
    (exec_name_replacer name)
  = pre ++ head ++ q :: name ++ q :: post.
Proof.
  unfold replace_with. rewrite exec_field. cbn [m_before m_after].
  unfold exec_name_replacer, arg. cbn [m_caps]. unfold field_caps.
  rewrite lookup_insert_eq.
  rewrite (lookup_insert_ne _ 4 2), (lookup_insert_ne _ 3 2), lookup_insert_eq by discriminate.
  rewrite (lookup_insert_ne _ 4 1), (lookup_insert_ne _ 3 1), (lookup_insert_ne _ 2 1),
    lookup_insert_eq by discriminate.
  cbn [interpolate]. rewrite <- !app_assoc. reflexivity.
Qed.

End ExecNameField.

(** ** Replacement templates *)

Section TemplateFacts.

Variables (ncaps : nat) (m : match_result).

Lemma get_substitution_no_dollar a b :
  no_dollar a = true ->
  get_substitution ncaps m (a ++ b) = a ++ get_substitution ncaps m b.
Proof.
  induction a as [|c a IH]; intros H; [reflexivity|].
  unfold no_dollar in H. cbn [forallb] in H. apply andb_prop in H as [Hc Ha].
  cbn [app get_substitution]. rewrite Hc. rewrite (IH Ha). reflexivity.
Qed.

Lemma get_substitution_plain a :
  no_dollar a = true -> get_substitution ncaps m a = a.
Proof.
  intros H. rewrite <- (app_nil_r a) at 1.
  rewrite get_substitution_no_dollar by exact H. cbn. apply app_nil_r.
Qed.

(** [$1] before a character that is not a digit. *)
Lemma get_substitution_ref1 e tl :
  isDigit e = false ->
  get_substitution ncaps m (ch "$" :: ch "1" :: e :: tl)
  = capture_ref ncaps (m_caps m) 1 [ch "$"; ch "1"] ++ get_substitution ncaps m (e :: tl).
Proof. intros He. simpl. rewrite He. reflexivity. Qed.

(** [$4] at the end of a template. *)
Lemma get_substitution_ref4_end :
  get_substitution ncaps m [ch "$"; ch "4"] = capture_ref ncaps (m_caps m) 4 [ch "$"; ch "4"].
Proof. reflexivity. Qed.

End TemplateFacts.

(** ** The two blocks *)

Section Blocks.

Variable ml : bool.

Lemma linux_block_here pre k t cp :
  rmatch ml linux_block k (MState (rev pre) (str "linux:" ++ t) cp)
  = k (MState (rev (str "linux:") ++ rev pre) t cp).
Proof. apply rmatch_Lit_app. Qed.

Lemma linux_block_not_before content pre after k u v :
  find (str "linux:") content = Some (pre, after) ->
  pre = u ++ v -> v <> [] ->
  rmatch ml linux_block k (MState (rev u) (v ++ str "linux:" ++ after) ∅) = None.
Proof.
  intros Hfind Huv Hv. apply rmatch_Lit_None. cbn [rest].
  apply find_Some in Hfind as [_ Hfirst]. apply (Hfirst u v Huv Hv).
Qed.

Lemma win_block_here pre k t cp :
  ends_with_word pre = false ->
  rmatch ml win_block k (MState (rev pre) (str "win:" ++ t) cp)
  = k (MState (rev (str "win:") ++ rev pre) t cp).
Proof.
  intros Hpre. unfold win_block. rewrite rmatch_Seq, rmatch_WordBoundary.
  change (word_before (MState (rev pre) (str "win:" ++ t) cp)) with (ends_with_word pre).
  rewrite Hpre. change (word_after _) with true. cbn [xorb].
  apply rmatch_Lit_app.
Qed.

Lemma win_block_not_before content pre after k u v :
  find (str "win:") content = Some (pre, after) ->
  pre = u ++ v -> v <> [] ->
  rmatch ml win_block k (MState (rev u) (v ++ str "win:" ++ after) ∅) = None.
Proof.
  intros Hfind Huv Hv. unfold win_block. rewrite rmatch_Seq, rmatch_WordBoundary.
  destruct (xorb _ _); [|reflexivity].
  apply rmatch_Lit_None. cbn [rest].
  apply find_Some in Hfind as [_ Hfirst]. apply (Hfirst u v Huv Hv).
Qed.

End Blocks.

(** ** The executable-name patches on a field that is present *)

Lemma block_opening_content name content pre ws body :
  block_opening name content pre ws body -> content = pre ++ name ++ ws ++ ch "{" :: body.
Proof. intros [Hfind _]. apply find_Some in Hfind as [-> _]. reflexivity. Qed.

Lemma quoted_field_text text mid ws q old post :
  quoted_field text mid ws q old post -> text = mid ++ exe_field ++ ws ++ q :: old ++ q :: post.
Proof. intros [Hfind _]. apply find_Some in Hfind as [-> _]. reflexivity. Qed.

(** The content around a field, in the two shapes in which the lemmas
    state it. *)
Lemma field_content_shape (pre bl ws mid ws2 : jsstring) (q : char) (v post : jsstring) :
  pre ++ bl ++ ws ++ ch "{" :: mid ++ exe_field ++ ws2 ++ q :: v ++ q :: post
  = pre ++ (bl ++ ws ++ ch "{" :: mid ++ exe_field ++ ws2) ++ q :: v ++ q :: post.
Proof. reassoc. reflexivity. Qed.

Section LinuxField.

Variables (content pre ws body mid ws2 : jsstring) (q : char) (old post : jsstring).

Hypothesis opening : block_opening (str "linux:") content pre ws body.
Hypothesis field : quoted_field body mid ws2 q old post.

Lemma linux_field_found : test has_linux_exec_re content = true.
Proof.
  pose proof (block_opening_content _ _ _ _ _ opening) as Hc.
  pose proof (quoted_field_text _ _ _ _ _ _ field) as Hb.
  destruct opening as [Hfind Hws]. destruct field as (Hf & Hword & Hws2 & Hq & Hold & Hnq).
  subst body. subst content.
  unfold test, has_linux_exec_re. rewrite field_content_shape.
  rewrite (exec_has_field true linux_block (str "linux:") pre
             (fun k t cp => linux_block_here true pre k t cp) ws mid ws2 old post q
             (fun k u v Huv Hv => linux_block_not_before true _ _ _ k u v Hfind Huv Hv));
    auto.
Qed.

Lemma linux_field_replaced name :
  replace_with content linux_exec_re (exec_name_replacer name)
  = pre ++ str "linux:" ++ ws ++ ch "{" :: mid ++ exe_field ++ ws2 ++ q :: name ++ q :: post.
Proof.
  pose proof (block_opening_content _ _ _ _ _ opening) as Hc.
  pose proof (quoted_field_text _ _ _ _ _ _ field) as Hb.
  destruct opening as [Hfind Hws]. destruct field as (Hf & Hword & Hws2 & Hq & Hold & Hnq).
  subst body. subst content.
  unfold linux_exec_re. rewrite !field_content_shape.
  apply (replace_field true linux_block (str "linux:") pre
           (fun k t cp => linux_block_here true pre k t cp) ws mid ws2 old post q
           (fun k u v Huv Hv => linux_block_not_before true _ _ _ k u v Hfind Huv Hv));
    auto.
Qed.

Lemma ensureLinuxExecutableName_replaces name :
  ensureLinuxExecutableName content name
  = Return (pre ++ str "linux:" ++ ws ++ ch "{" :: mid ++ exe_field ++ ws2
              ++ q :: name ++ q :: post).
Proof.
  unfold ensureLinuxExecutableName. rewrite linux_field_found.
  rewrite linux_field_replaced. reflexivity.
Qed.

End LinuxField.

Section WinField.

Variables (content pre ws body mid ws2 : jsstring) (q : char) (old post : jsstring).

Hypothesis opening : block_opening (str "win:") content pre ws body.
Hypothesis boundary : ends_with_word pre = false.
Hypothesis field : quoted_field body mid ws2 q old post.

Lemma win_field_found : test has_win_exec_re content = true.
Proof.
  pose proof (block_opening_content _ _ _ _ _ opening) as Hc.
  pose proof (quoted_field_text _ _ _ _ _ _ field) as Hb.
  destruct opening as [Hfind Hws]. destruct field as (Hf & Hword & Hws2 & Hq & Hold & Hnq).
  subst body. subst content.
  unfold test, has_win_exec_re. rewrite field_content_shape.
  rewrite (exec_has_field true win_block (str "win:") pre
             (fun k t cp => win_block_here true pre k t cp boundary) ws mid ws2 old post q
             (fun k u v Huv Hv => win_block_not_before true _ _ _ k u v Hfind Huv Hv));
    auto.
Qed.

Lemma win_field_replaced name :
  replace_with content win_exec_re (exec_name_replacer name)
  = pre ++ str "win:" ++ ws ++ ch "{" :: mid ++ exe_field ++ ws2 ++ q :: name ++ q :: post.
Proof.
  pose proof (block_opening_content _ _ _ _ _ opening) as Hc.
  pose proof (quoted_field_text _ _ _ _ _ _ field) as Hb.
  destruct opening as [Hfind Hws]. destruct field as (Hf & Hword & Hws2 & Hq & Hold & Hnq).
  subst body. subst content.
  unfold win_exec_re. rewrite !field_content_shape.
  apply (replace_field true win_block (str "win:") pre
           (fun k t cp => win_block_here true pre k t cp boundary) ws mid ws2 old post q
           (fun k u v Huv Hv => win_block_not_before true _ _ _ k u v Hfind Huv Hv));
    auto.
Qed.

Lemma alignWinExecutableName_replaces name :
  alignWinExecutableName content name
  = pre ++ str "win:" ++ ws ++ ch "{" :: mid ++ exe_field ++ ws2 ++ q :: name ++ q :: post.
Proof.
  unfold alignWinExecutableName. rewrite win_field_found.
  apply win_field_replaced.
Qed.

End WinField.

(** ** Later occurrences *)

Lemma find_later p s pre after u v t :
  find p s = Some (pre, after) -> s = u ++ v -> strip_prefix p v = Some t ->
  t `suffix_of` after.
Proof.
  intros Hfind Hs Hv. apply find_Some in Hfind as [Hs' Hfirst].
  apply strip_prefix_Some in Hv. subst v. rewrite Hs' in Hs.
  apply app_eq_app in Hs as [l [[Hpre Hl]|[Hu Hl]]].
  - destruct l as [|a l].
    + cbn [app] in Hl. apply app_inv_head in Hl. subst t. reflexivity.
    + exfalso. specialize (Hfirst u (a :: l) Hpre ltac:(discriminate)).
      rewrite <- Hl in Hfirst. rewrite strip_prefix_app in Hfirst. discriminate.
  - assert (t = drop (length l) after) as ->.
    { apply (f_equal (drop (length p + length l))) in Hl.
      rewrite drop_app_add' in Hl by reflexivity.
      rewrite (app_assoc l p t) in Hl.
      rewrite drop_app_length' in Hl by (rewrite length_app; lia).
      symmetry. exact Hl. }
    apply suffix_drop.
Qed.

(** ** The executable-name patterns where no field follows the block *)

Section NoField.

Variables (ml : bool) (block : regex) (bl : jsstring).

(** The block pattern matches the block name and nothing else. *)
Hypothesis block_only : forall k x z,
  rmatch ml block k x = Some z ->
  exists t, strip_prefix bl (rest x) = Some t /\
            k (MState (rev bl ++ consumed x) t (caps x)) = Some z.

Lemma exec_name_head_needs_field k x t :
  strip_prefix bl (rest x) = Some t -> includes t exe_field = false ->
  rmatch ml (exec_name_head block) k x = None.
Proof.
  intros Hx Ht. unfold exec_name_head. rewrite rmatch_Seq.
  destruct (rmatch ml block _ x) as [z|] eqn:E; [|reflexivity].
  apply block_only in E as (t' & Ht' & Hz). rewrite Hx in Ht'. injection Ht' as <-.
  change (rmatch ml (Seq (Star space) (Seq (Lit (str "{")) (Seq (LazyStar anychar)
            (Seq WordBoundary (Seq (Lit (str "executableName:")) (Star space)))))) k)
    with (rmatch ml (Seq (Star space) (Seq (Lit (str "{")) (Seq (LazyStar anychar)
            WordBoundary))) (rmatch ml (Lit exe_field) (rmatch ml (Star space) k))) in Hz.
  rewrite rmatch_needs_literal in Hz by exact Ht. discriminate.
Qed.

Lemma exec_name_head_needs_block k x :
  strip_prefix bl (rest x) = None -> rmatch ml (exec_name_head block) k x = None.
Proof.
  intros Hx. unfold exec_name_head. rewrite rmatch_Seq.
  destruct (rmatch ml block _ x) as [z|] eqn:E; [|reflexivity].
  apply block_only in E as (t' & Ht' & _). congruence.
Qed.

(** Neither pattern matches when no [executableName:] follows the
    first occurrence of the block name. *)
Lemma exec_name_head_absent k content u v :
  no_field_after bl content -> content = u ++ v ->
  rmatch ml (exec_name_head block) k (MState (rev u) v ∅) = None.
Proof.
  unfold no_field_after. intros Hno Hc.
  destruct (strip_prefix bl v) as [t|] eqn:Ev.
  - destruct (find bl content) as [[pre after]|] eqn:Ef.
    + apply (exec_name_head_needs_field _ _ t); [exact Ev|].
      apply (includes_false_suffix _ after); [exact Hno|].
      apply (find_later _ _ _ _ _ _ _ Ef Hc Ev).
    + rewrite (find_None _ _ _ _ Ef Hc) in Ev. discriminate.
  - apply exec_name_head_needs_block. exact Ev.
Qed.

Lemma test_field_absent src content (r : regex) :
  no_field_after bl content ->
  test (Make src ml (Seq (exec_name_head block) r)) content = false.
Proof.
  intros Hno. unfold test. rewrite exec_None; [reflexivity|].
  intros u v Huv. cbn [multiline pattern]. rewrite rmatch_Seq.
  apply (exec_name_head_absent _ content); assumption.
Qed.

End NoField.

Lemma linux_block_only ml k x z :
  rmatch ml linux_block k x = Some z ->
  exists t, strip_prefix (str "linux:") (rest x) = Some t /\
            k (MState (rev (str "linux:") ++ consumed x) t (caps x)) = Some z.
Proof.
  unfold linux_block. cbn [rmatch].
  destruct (strip_prefix (str "linux:") (rest x)) as [t|]; [|discriminate].
  intros H. exists t. split; [reflexivity|exact H].
Qed.

Lemma win_block_only ml k x z :
  rmatch ml win_block k x = Some z ->
  exists t, strip_prefix (str "win:") (rest x) = Some t /\
            k (MState (rev (str "win:") ++ consumed x) t (caps x)) = Some z.
Proof.
  unfold win_block. rewrite rmatch_Seq, rmatch_WordBoundary.
  destruct (xorb _ _); [|discriminate]. cbn [rmatch].
  destruct (strip_prefix (str "win:") (rest x)) as [t|]; [|discriminate].
  intros H. exists t. split; [reflexivity|exact H].
Qed.

Lemma linux_field_absent content :
  no_field_after (str "linux:") content -> test has_linux_exec_re content = false.
Proof. apply (test_field_absent true linux_block (str "linux:") (linux_block_only true)). Qed.

Lemma alignWinExecutableName_absent content name :
  no_field_after (str "win:") content -> alignWinExecutableName content name = content.
Proof.
  intros Hno. unfold alignWinExecutableName.
  unfold has_win_exec_re.
  rewrite (test_field_absent true win_block (str "win:") (win_block_only true)) by exact Hno.
  reflexivity.
Qed.

(** ** The insertion pattern *)

Section LinuxOpen.

Lemma newline_is_space : isSpace nl = true.
Proof. reflexivity. Qed.

Lemma strip_newline_None t :
  starts_with_space t = false -> strip_prefix [nl] t = None.
Proof.
  destruct t as [|a t]; [reflexivity|]. cbn [starts_with_space strip_prefix].
  intros Ha. destruct (char_eqb nl a) eqn:E; [|reflexivity].
  apply char_eqb_eq in E. subst a. rewrite newline_is_space in Ha. discriminate.
Qed.

(** [\s*\n] on a run of white space: the newline matched is the last
    one of the run. *)
Lemma star_space_newline ml k c ws1 ws2 t cp z :
  all_space ws1 = true -> all_space ws2 = true -> no_newline ws2 = true ->
  starts_with_space t = false ->
  k (MState (nl :: rev ws1 ++ c) (ws2 ++ t) cp) = Some z ->
  rmatch ml (Seq (Star space) (Lit [nl])) k (MState c (ws1 ++ nl :: ws2 ++ t) cp) = Some z.
Proof.
  intros H1 H2 Hnl Ht Hk. rewrite rmatch_Seq.
  apply star_space_run; [exact H1|].
  unfold space. rewrite star_unfold. rewrite space_class, newline_is_space.
  rewrite star_far.
  - rewrite rmatch_Lit_None by (cbn [rest]; apply strip_newline_None; exact Ht).
    rewrite <- Hk. apply (rmatch_Lit_app ml [nl]).
  - rewrite (forallb_ext_eq _ isSpace); [exact H2|]. intros x. apply space_class.
  - destruct t as [|a t]; [exact I|]. rewrite space_class. exact Ht.
  - intros u v -> Hv. apply rmatch_Lit_None. cbn [rest].
    destruct v as [|b v]; [congruence|]. cbn [app strip_prefix].
    unfold no_newline in Hnl. rewrite forallb_app in Hnl.
    apply andb_prop in Hnl as [_ Hb]. cbn [forallb] in Hb.
    apply andb_prop in Hb as [Hb _]. apply negb_true_iff in Hb.
    destruct (char_eqb nl b) eqn:E; [|reflexivity].
    apply char_eqb_eq in E. subst b. rewrite char_eqb_refl in Hb. discriminate.
Qed.

Variables (content pre ws ws1 ws2 t : jsstring).

Hypothesis first_linux :
  find (str "linux:") content = Some (pre, ws ++ ch "{" :: ws1 ++ nl :: ws2 ++ t).
Hypothesis ws_space : all_space ws = true.
Hypothesis ws1_space : all_space ws1 = true.
Hypothesis ws2_space : all_space ws2 = true.
Hypothesis ws2_line : no_newline ws2 = true.
Hypothesis t_text : starts_with_space t = false.

(** The opening of the block, up to the newline. *)
Let opening : jsstring := str "linux:" ++ ws ++ ch "{" :: ws1 ++ [nl].

Lemma linux_open_content : content = pre ++ opening ++ ws2 ++ t.
Proof.
  apply find_Some in first_linux as [-> _]. unfold opening. reassoc. reflexivity.
Qed.

Lemma exec_linux_open :
  exec linux_open_re content
  = Some (MatchResult pre opening (ws2 ++ t) (<[1 := opening]> ∅)).
Proof.
  rewrite linux_open_content.
  apply exec_found
    with (y := MState (rev opening ++ rev pre) (ws2 ++ t) (<[1 := opening]> ∅));
    try reflexivity.
  - intros u v Huv Hv. cbn [multiline pattern linux_open_re].
    rewrite rmatch_Group, rmatch_Seq. apply rmatch_Lit_None. cbn [rest].
    apply find_Some in first_linux as [_ Hfirst].
    unfold opening. reassoc. apply (Hfirst u v Huv Hv).
  - cbn [multiline pattern linux_open_re].
    rewrite rmatch_Group, rmatch_Seq. unfold opening. reassoc.
    rewrite rmatch_Lit_app, rmatch_Seq.
    apply star_space_run; [exact ws_space|].
    rewrite star_space_stop by reflexivity.
    rewrite rmatch_Seq. change (ch "{" :: ?x) with (str "{" ++ x).
    rewrite rmatch_Lit_app.
    apply (star_space_newline true _ _ ws1 ws2 t); try assumption.
    cbn [consumed rest caps]. f_equal. f_equal.
    + repeat first [rewrite rev_app_distr | progress cbn [rev]].
      reassoc. reflexivity.
    + f_equal.
      replace (str "linux:" ++ ws ++ str "{" ++ ws1 ++ nl :: ws2 ++ t)
        with ((str "linux:" ++ ws ++ ch "{" :: ws1 ++ [nl]) ++ ws2 ++ t)
        by (reassoc; reflexivity).
      apply between_app.
Qed.

Hypothesis no_field : includes (ws ++ ch "{" :: ws1 ++ nl :: ws2 ++ t) exe_field = false.

Variable name : jsstring.
Hypothesis name_plain : no_dollar name = true.

(** The line that the script inserts. *)
Let line : jsstring := str "    executableName: " ++ dq :: name ++ dq :: ch "," :: [nl].

Lemma line_plain : no_dollar line = true.
Proof.
  unfold line, no_dollar. rewrite forallb_app. cbn [forallb andb].
  apply andb_true_intro. split; [reflexivity|].
  change (negb (char_eqb dq (ch "$"))) with true. cbn [andb].
  rewrite forallb_app. pose proof name_plain as Hn. unfold no_dollar in Hn.
  rewrite Hn. reflexivity.
Qed.

Lemma insertion_template :
  get_substitution 1 (MatchResult pre opening (ws2 ++ t) (<[1 := opening]> ∅))
    (str "$1    executableName: " ++ dq :: name ++ dq :: ch "," :: [nl])
  = opening ++ line.
Proof.
  change (str "$1    executableName: " ++ dq :: name ++ dq :: ch "," :: [nl])
    with (ch "$" :: ch "1" :: line).
  unfold line at 1.
  change (str "    executableName: " ++ ?x) with (ch " " :: str "   executableName: " ++ x).
  rewrite get_substitution_ref1 by reflexivity.
  unfold capture_ref. cbn [Nat.leb andb m_caps]. rewrite lookup_insert_eq.
  f_equal. apply get_substitution_plain. apply line_plain.
Qed.

Lemma ensureLinuxExecutableName_inserts :
  ensureLinuxExecutableName content name = Return (pre ++ opening ++ line ++ ws2 ++ t).
Proof.
  unfold ensureLinuxExecutableName.
  rewrite linux_field_absent by (unfold no_field_after; rewrite first_linux; exact no_field).
  unfold replaceOrThrow, test, replace. rewrite exec_linux_open.
  cbn [negb m_before m_after]. change (ngroups linux_open_re) with 1.
  rewrite insertion_template. reassoc. reflexivity.
Qed.

End LinuxOpen.

(** ** Where the block name does not occur *)

Lemma linux_open_absent content :
  includes content (str "linux:") = false -> test linux_open_re content = false.
Proof.
  intros Hno. unfold test. rewrite exec_None; [reflexivity|].
  intros u v Huv. cbn [multiline pattern linux_open_re].
  rewrite rmatch_Group, rmatch_Seq. apply rmatch_Lit_None. cbn [rest].
  apply (includes_false _ _ u v Hno Huv).
Qed.

Lemma no_field_after_absent name content :
  includes content name = false -> no_field_after name content.
Proof.
  unfold includes, no_field_after. destruct (find name content); [discriminate|]. intros _. exact I.
Qed.

Lemma ensureLinuxExecutableName_absent content name :
  includes content (str "linux:") = false ->
  ensureLinuxExecutableName content name
  = Throw (Error (str "Pattern not found for electron-builder linux.executableName insertion: "
                    ++ str "/(linux:\s*\{\s*\n)/m")).
Proof.
  intros Hno. unfold ensureLinuxExecutableName.
  rewrite linux_field_absent by (apply no_field_after_absent; exact Hno).
  unfold replaceOrThrow. rewrite linux_open_absent by exact Hno. reflexivity.
Qed.

(** ** The slug pattern *)

Section SlugPattern.

Lemma star_slug_eol s : forall c cp,
  rmatch false (Star slug_char) (rmatch false Eol Some) (MState c s cp)
  = if forallb isSlugChar s then Some (MState (rev s ++ c) [] cp) else None.
Proof.
  induction s as [|a s IH]; intros c cp.
  - unfold slug_char. rewrite star_unfold. reflexivity.
  - unfold slug_char. rewrite star_unfold. fold slug_char.
    rewrite slug_char_class. cbn [forallb].
    destruct (isSlugChar a); [|reflexivity].
    rewrite IH. cbn [andb]. destruct (forallb isSlugChar s); [|reflexivity].
    cbn [rev]. rewrite <- app_assoc. reflexivity.
Qed.

Lemma slug_re_at_start s :
  rmatch false (pattern slug_re) Some (MState [] s ∅)
  = if slug_shape s then Some (MState (rev s) [] ∅) else None.
Proof.
  cbn [pattern slug_re]. rewrite rmatch_Seq.
  change (rmatch false Bol ?k (MState [] s ∅)) with (k (MState [] s ∅)).
  rewrite rmatch_Seq. unfold lower_or_digit. rewrite rmatch_Class.
  destruct s as [|a s]; [reflexivity|].
  rewrite lower_or_digit_class. cbn [slug_shape].
  destruct (isLowerOrDigit a); [|reflexivity].
  rewrite rmatch_Seq, star_slug_eol. cbn [andb rev]. reflexivity.
Qed.

Lemma slug_re_not_later s : forall b before,
  exec_from slug_re (b :: before) s = None.
Proof.
  induction s as [|a s IH]; intros b before; [reflexivity|].
  change (exec_from slug_re (b :: before) (a :: s))
    with (exec_from slug_re (a :: b :: before) s).
  apply IH.
Qed.

(** The pattern accepts exactly the texts of the slug shape. *)
Lemma slug_re_test s : test slug_re s = slug_shape s.
Proof.
  unfold test, exec.
  destruct s as [|a s]; [reflexivity|].
  cbn [exec_from]. change (multiline slug_re) with false.
  rewrite slug_re_at_start. destruct (slug_shape (a :: s)); [reflexivity|].
  rewrite slug_re_not_later. reflexivity.
Qed.

End SlugPattern.

(** ** [trim] *)

Section TrimFacts.

Implicit Types s : jsstring.

Lemma trimStart_id s : starts_with_space s = false -> trimStart s = s.
Proof. destruct s as [|a s]; [reflexivity|]. cbn. intros ->. reflexivity. Qed.

Lemma trim_id s :
  starts_with_space s = false -> starts_with_space (rev s) = false -> trim s = s.
Proof.
  intros H1 H2. unfold trim, trimEnd. rewrite (trimStart_id s H1).
  rewrite (trimStart_id _ H2). apply rev_involutive.
Qed.

Lemma slug_chars_rev s : forallb isSlugChar s = true -> starts_with_space (rev s) = false.
Proof.
  intros H. destruct (rev s) as [|a r] eqn:E; [reflexivity|].
  cbn. apply slug_char_not_space.
  rewrite forallb_forall in H. apply H. apply in_rev. rewrite E. left. reflexivity.
Qed.

Lemma slug_shape_chars s : slug_shape s = true -> forallb isSlugChar s = true.
Proof.
  destruct s as [|a s]; [discriminate|]. cbn [slug_shape forallb].
  intros [Ha Hs]%andb_prop. rewrite Hs, (lower_or_digit_slug_char _ Ha). reflexivity.
Qed.

Lemma slug_shape_start s : slug_shape s = true -> starts_with_space s = false.
Proof.
  destruct s as [|a s]; [discriminate|]. cbn [slug_shape starts_with_space].
  intros [Ha _]%andb_prop. apply slug_char_not_space, lower_or_digit_slug_char, Ha.
Qed.

Lemma slug_shape_nonempty s : slug_shape s = true -> s <> [].
Proof. destruct s; [discriminate|]. intros _. discriminate. Qed.


Lemma trim_suffixed s suffix :
  slug_shape s = true -> starts_with_space (rev suffix) = false -> suffix <> [] ->
  trim (s ++ suffix) = s ++ suffix.
Proof.
  intros H Hsuf Hne. apply trim_id.
  - destruct s as [|a s]; [discriminate|]. apply (slug_shape_start _ H).
  - rewrite rev_app_distr. destruct (rev suffix) as [|a r] eqn:E.
    + exfalso. apply Hne. rewrite <- (rev_involutive suffix), E. reflexivity.
    + exact Hsuf.
Qed.

End TrimFacts.

(** ** [JSON.stringify] of a plain string *)

Section QuoteFacts.

Lemma escape_char_plain c :
  negb (N.ltb c 32 || char_eqb c dq || char_eqb c (ch "\") || in_range 55296 57343 c) = true ->
  Json.isLeadSurrogate c = false /\ Json.isTrailSurrogate c = false /\
  Json.escape_char c = [c].
Proof.
  intros H. apply negb_true_iff in H.
  apply orb_false_elim in H as [H Hsur]. apply orb_false_elim in H as [H Hbs].
  apply orb_false_elim in H as [Hlt Hdq].
  apply N.ltb_ge in Hlt.
  assert (in_range 55296 57343 c = false) as Hsur' by exact Hsur.
  unfold in_range in Hsur. apply andb_false_iff in Hsur.
  repeat split.
  - unfold Json.isLeadSurrogate, in_range. apply andb_false_iff.
    destruct Hsur as [Hs|Hs]; [left; exact Hs|right].
    apply N.leb_gt in Hs. apply N.leb_gt. lia.
  - unfold Json.isTrailSurrogate, in_range. apply andb_false_iff.
    destruct Hsur as [Hs|Hs]; [left|right; exact Hs].
    apply N.leb_gt in Hs. apply N.leb_gt. lia.
  - unfold Json.escape_char. rewrite Hdq, Hbs.
    assert (forall n : N, (n < 32)%N -> char_eqb c n = false) as Hsmall.
    { intros n Hn. apply char_eqb_neq. lia. }
    rewrite !Hsmall by lia.
    assert (N.ltb c 32 = false) as -> by (apply N.ltb_ge; exact Hlt).
    reflexivity.
Qed.

Lemma quote_body_plain s : plain_json s = true -> Json.quote_body s = s.
Proof.
  induction s as [|c s IH]; [reflexivity|].
  unfold plain_json. cbn [forallb]. intros [Hc Hs]%andb_prop.
  destruct (escape_char_plain c Hc) as (Hl & Ht & He).
  cbn [Json.quote_body]. rewrite Hl, Ht, He. cbn [app]. rewrite (IH Hs). reflexivity.
Qed.

(** A string without characters to escape is printed between two
    double quotes as it is. *)
Lemma quote_plain s : plain_json s = true -> Json.quote s = dq :: s ++ [dq].
Proof. intros H. unfold Json.quote. rewrite (quote_body_plain s H). reflexivity. Qed.

End QuoteFacts.

(** ** [replaceAll] *)

Section ReplaceAllFacts.

Variables (search template : jsstring).
Hypothesis search_nonempty : search <> [].
Hypothesis template_plain : no_dollar template = true.

Lemma replaceAll_from_replaced fuel : forall before remaining,
  length remaining < fuel ->
  replaced_all search template remaining
    (replaceAll_from fuel search template before remaining).
Proof.
  induction fuel as [|fuel IH]; intros before remaining Hlen; [lia|].
  cbn [replaceAll_from].
  destruct (find search remaining) as [[skipped after]|] eqn:E.
  - rewrite get_substitution_plain by exact template_plain.
    assert (length after < fuel) as Hafter.
    { apply find_Some in E as [-> _]. rewrite !length_app in Hlen.
      destruct search; [congruence|]. cbn [length] in Hlen. lia. }
    apply (replaced_next search template remaining skipped after); [exact E|].
    destruct search as [|c search']; [congruence|]. apply IH. exact Hafter.
  - apply replaced_none. exact E.
Qed.

Lemma replaceAll_replaced s : replaced_all search template s (replaceAll s search template).
Proof. unfold replaceAll. apply replaceAll_from_replaced. lia. Qed.

End ReplaceAllFacts.

Lemma banner_template_plain productName :
  no_dollar productName = true -> no_dollar (str "--- " ++ productName ++ str " ---") = true.
Proof.
  intros H. unfold no_dollar in *. rewrite !forallb_app, H. reflexivity.
Qed.

Lemma patchMainHeaderContent_absent content productName :
  includes content banner = false -> patchMainHeaderContent content productName = content.
Proof. intros H. unfold patchMainHeaderContent. rewrite H. reflexivity. Qed.

Lemma patchMainHeaderContent_replaced content productName :
  no_dollar productName = true ->
  replaced_all banner (str "--- " ++ productName ++ str " ---") content
    (patchMainHeaderContent content productName).
Proof.
  intros H. unfold patchMainHeaderContent.
  destruct (includes content banner) eqn:E.
  - apply replaceAll_replaced; [discriminate|apply banner_template_plain; exact H].
  - apply replaced_none. unfold includes in E. destruct (find banner content); [discriminate|].
    reflexivity.
Qed.

(** ** The world *)

Section WorldFacts.

Lemma readFileSync_found path text w :
  files w !! path = Some text ->
  readFileSync path w = (Return text, World (files w) (ReadFile path :: trace w) (stdout w)).
Proof. intros H. unfold readFileSync. rewrite H. reflexivity. Qed.

Lemma writeIfChanged_same path next w :
  files w !! path = Some next ->
  writeIfChanged path next w
  = (Return {| file := path; changed := false |},
     World (files w) (ReadFile path :: trace w) (stdout w)).
Proof.
  intros H. unfold writeIfChanged, Node.bind. rewrite (readFileSync_found _ _ _ H).
  rewrite jsstring_eqb_refl. reflexivity.
Qed.

Lemma writeIfChanged_changed path prev next w :
  files w !! path = Some prev -> prev <> next ->
  writeIfChanged path next w
  = (Return {| file := path; changed := true |},
     World (<[path := next]> (files w))
       (WriteFile path next :: ReadFile path :: trace w) (stdout w)).
Proof.
  intros H Hne. unfold writeIfChanged, Node.bind. rewrite (readFileSync_found _ _ _ H).
  destruct (JsString.eqb prev next) eqn:E.
  - apply jsstring_eqb_eq in E. contradiction.
  - reflexivity.
Qed.

(** A handler whose rewriting fails throws after its read, and writes
    nothing. *)
Lemma patchElectronBuilderTs_throws repoRoot appId productName executableName w content e :
  files w !! path_join repoRoot "electron-builder.ts" = Some content ->
  patchElectronBuilderContent content appId productName executableName = Throw e ->
  patchElectronBuilderTs repoRoot appId productName executableName w
  = (Throw e,
     World (files w) (ReadFile (path_join repoRoot "electron-builder.ts") :: trace w)
       (stdout w)).
Proof.
  intros Hf He. unfold patchElectronBuilderTs, Node.bind.
  rewrite (readFileSync_found _ _ _ Hf). unfold lift. rewrite He. reflexivity.
Qed.

Lemma patchMainHeader_absent repoRoot productName w content :
  files w !! path_join repoRoot "src/main/index.ts" = Some content ->
  includes content banner = false ->
  patchMainHeader repoRoot productName w
  = (Return {| file := path_join repoRoot "src/main/index.ts"; changed := false |},
     World (files w)
       (ReadFile (path_join repoRoot "src/main/index.ts")
          :: ReadFile (path_join repoRoot "src/main/index.ts") :: trace w)
       (stdout w)).
Proof.
  intros Hf Hno. unfold patchMainHeader, Node.bind.
  rewrite (readFileSync_found _ _ _ Hf).
  rewrite (patchMainHeaderContent_absent _ _ Hno).
  rewrite writeIfChanged_same by exact Hf. reflexivity.
Qed.

End WorldFacts.

(** ** The environment *)

Section EnvFacts.

Implicit Types env : gmap string jsstring.

Lemma requireEnv_empty env name :
  requireEnv (<[name := []]> env) name
  = Throw (Error (str "Missing required env: " ++ str name)).
Proof. unfold requireEnv. rewrite lookup_insert_eq. reflexivity. Qed.

Lemma requireEnv_unset env name :
  requireEnv (delete name env) name
  = Throw (Error (str "Missing required env: " ++ str name)).
Proof. unfold requireEnv. rewrite lookup_delete_eq. reflexivity. Qed.

Lemma requireEnv_insert_ne env name name' v :
  name <> name' -> requireEnv (<[name := v]> env) name' = requireEnv env name'.
Proof. intros H. unfold requireEnv. rewrite lookup_insert_ne by exact H. reflexivity. Qed.

Lemma requireEnv_delete_ne env name name' :
  name <> name' -> requireEnv (delete name env) name' = requireEnv env name'.
Proof. intros H. unfold requireEnv. rewrite lookup_delete_ne by exact H. reflexivity. Qed.

Lemma requireEnv_Return env name v :
  requireEnv env name = Return v -> env !! name = Some v /\ v <> [].
Proof.
  unfold requireEnv. destruct (env !! name) as [[|c s]|]; try discriminate.
  intros [= <-]. split; [reflexivity|discriminate].
Qed.

Lemma requireEnv_Some env name v :
  env !! name = Some v -> v <> [] -> requireEnv env name = Return v.
Proof. intros H Hv. unfold requireEnv. rewrite H. destruct v; [congruence|reflexivity]. Qed.

Lemma sanitizeSlug_shape input :
  sanitizeSlug input =
  if slug_shape (trim input) then Return (trim input)
  else Throw (Error
         (str "APP_SLUG must match /^[a-z0-9][a-z0-9-]*$/ (lowercase, digits, hyphen). Got: "
            ++ Json.quote input)).
Proof.
  unfold sanitizeSlug. rewrite slug_re_test. destruct (slug_shape (trim input)); reflexivity.
Qed.

(** The slug of a resolved identity has the slug shape. *)
Lemma resolveIdentity_slug env id :
  resolveIdentity env = Return id ->
  exists v, env !! "APP_SLUG" = Some v /\ appSlug id = trim v /\ slug_shape (trim v) = true.
Proof.
  unfold resolveIdentity, obind.
  destruct (requireEnv env "APP_SLUG") as [v|] eqn:Ev; [|discriminate].
  rewrite sanitizeSlug_shape. destruct (slug_shape (trim v)) eqn:Es; [|discriminate].
  destruct (requireEnv env "APP_PRODUCT_NAME") as [pn|]; [|discriminate].
  destruct (Nat.eqb (length (trim pn)) 0); [discriminate|].
  intros [= <-]. exists v. cbn [appSlug]. apply requireEnv_Return in Ev as [Ev _].
  repeat split; assumption.
Qed.

End EnvFacts.

(** ** The [appId] and [productName] rules on a well-formed field *)

Section IdentityField.

(** The name of the field with its colon, and a pattern without flags
    made of a first group -- a word boundary, the name, white space --
    and the tail [(Q)(N+)(\2)]. *)
Variables (field : jsstring) (re : RegExp.t).

Hypothesis re_pattern :
  pattern re = Seq (Group 1 (Seq WordBoundary (Seq (Lit field) (Star space))))
                 quoted_value_tail.
Hypothesis re_flags : multiline re = false.
Hypothesis field_word : word_after (MState [] field ∅) = true.

Variables (content pre ws old post : jsstring) (q : char).

Hypothesis field_first : find field content = Some (pre, ws ++ q :: old ++ q :: post).
Hypothesis field_boundary : ends_with_word pre = false.
Hypothesis ws_space : all_space ws = true.
Hypothesis q_quote : isQuote q = true.
Hypothesis old_nonempty : old <> [].
Hypothesis old_no_quote : no_quote old = true.

Lemma identity_field_content : content = pre ++ (field ++ ws ++ q :: old ++ [q]) ++ post.
Proof. apply find_Some in field_first as [-> _]. reassoc. reflexivity. Qed.

Lemma word_after_field c t cp : word_after (MState c (field ++ t) cp) = true.
Proof.
revert field_word. unfold word_after. cbn [rest].
destruct field as [|a f]; [discriminate|]. cbn [app]. intros H. exact H.
Qed.

Lemma identity_field_exec :
  exec re content
  = Some (MatchResult pre (field ++ ws ++ q :: old ++ [q]) post
            (field_caps (field ++ ws) q old)).
Proof.
rewrite identity_field_content.
apply exec_found
  with (y := MState (q :: rev old ++ q :: rev ws ++ rev field ++ rev pre) post
               (field_caps (field ++ ws) q old)); try reflexivity.
- intros u v Huv Hv. rewrite re_pattern, re_flags.
  rewrite rmatch_Seq, rmatch_Group, rmatch_Seq, rmatch_WordBoundary.
  destruct (xorb _ _); [|reflexivity].
  rewrite rmatch_Seq. apply rmatch_Lit_None. cbn [rest].
  apply find_Some in field_first as [_ Hfirst]. reassoc. apply (Hfirst u v Huv Hv).
- rewrite re_pattern, re_flags.
  rewrite rmatch_Seq, rmatch_Group, rmatch_Seq, rmatch_WordBoundary.
  reassoc. rewrite word_after_field.
  change (word_before (MState (rev pre) ?s ?c)) with (ends_with_word pre).
  rewrite field_boundary. cbn [xorb].
  rewrite rmatch_Seq, rmatch_Lit_app.
  apply star_space_run; [exact ws_space|].
  rewrite star_space_stop by (cbn; apply quote_not_space; exact q_quote).
  cbn [consumed rest caps].
  rewrite quoted_value_tail_match by assumption.
  f_equal. f_equal. unfold field_caps. f_equal. f_equal. f_equal. f_equal.
  replace (field ++ ws ++ q :: old ++ q :: post)
    with ((field ++ ws) ++ q :: old ++ q :: post) by (reassoc; reflexivity).
  apply between_app.
Qed.

Variable value : jsstring.
Hypothesis value_plain : no_dollar value = true.

Lemma identity_field_template m :
  m_caps m = field_caps (field ++ ws) q old ->
  get_substitution 4 m (str "$1" ++ dq :: value ++ dq :: str "$4")
  = (field ++ ws) ++ dq :: value ++ dq :: [q].
Proof.
intros Hcaps.
change (str "$1" ++ dq :: value ++ dq :: str "$4")
  with (ch "$" :: ch "1" :: dq :: value ++ dq :: [ch "$"; ch "4"]).
rewrite get_substitution_ref1 by reflexivity.
unfold capture_ref at 1. cbn [Nat.leb andb]. rewrite Hcaps. unfold field_caps at 1.
rewrite (lookup_insert_ne _ 4 1), (lookup_insert_ne _ 3 1), (lookup_insert_ne _ 2 1),
  lookup_insert_eq by discriminate.
f_equal.
replace (dq :: value ++ dq :: [ch "$"; ch "4"])
  with ((dq :: value ++ [dq]) ++ [ch "$"; ch "4"]) by (reassoc; reflexivity).
rewrite get_substitution_no_dollar.
- rewrite get_substitution_ref4_end. unfold capture_ref. cbn [Nat.leb andb].
  rewrite Hcaps. unfold field_caps. rewrite lookup_insert_eq. reassoc. reflexivity.
- unfold no_dollar in *. cbn [forallb]. rewrite forallb_app, value_plain. reflexivity.
Qed.

(** The rule writes the value between double quotes and keeps the old
    closing quote after them. *)
Lemma identity_field_rewritten what :
  ngroups re = 4 ->
  replaceOrThrow content re (str "$1" ++ dq :: value ++ dq :: str "$4") what
  = Return (pre ++ field ++ ws ++ dq :: value ++ dq :: q :: post).
Proof.
intros Hn. unfold replaceOrThrow, test, replace. rewrite identity_field_exec.
cbn [negb m_before m_after]. rewrite Hn.
rewrite identity_field_template by reflexivity. reassoc. reflexivity.
Qed.

End IdentityField.

Lemma app_id_rewritten content pre ws old post q value :
  find (str "appId:") content = Some (pre, ws ++ q :: old ++ q :: post) ->
  ends_with_word pre = false -> all_space ws = true ->
  isQuote q = true -> old <> [] -> no_quote old = true -> no_dollar value = true ->
  replaceOrThrow content app_id_re (str "$1" ++ dq :: value ++ dq :: str "$4")
    "electron-builder appId"
  = Return (pre ++ str "appId:" ++ ws ++ dq :: value ++ dq :: q :: post).
Proof.
intros. apply (identity_field_rewritten (str "appId:") app_id_re) with (old := old); auto.
Qed.

Lemma product_name_rewritten content pre ws old post q value :
  find (str "productName:") content = Some (pre, ws ++ q :: old ++ q :: post) ->
  ends_with_word pre = false -> all_space ws = true ->
  isQuote q = true -> old <> [] -> no_quote old = true -> no_dollar value = true ->
  replaceOrThrow content product_name_re (str "$1" ++ dq :: value ++ dq :: str "$4")
    "electron-builder productName"
  = Return (pre ++ str "productName:" ++ ws ++ dq :: value ++ dq :: q :: post).
Proof.
intros.
apply (identity_field_rewritten (str "productName:") product_name_re) with (old := old); auto.
Qed.

(** ** The first occurrence does not depend on what follows it *)

Lemma strip_prefix_tail p : forall s b b',
  length p <= length s ->
  strip_prefix p (s ++ b) = None -> strip_prefix p (s ++ b') = None.
Proof.
induction p as [|a p IH]; intros s b b' Hlen; [discriminate|].
destruct s as [|c s]; [cbn in Hlen; lia|].
cbn [app strip_prefix]. destruct (char_eqb a c); [|reflexivity].
apply IH. cbn in Hlen. lia.
Qed.

Lemma find_from_intro p b : forall a before,
  (forall u v, a = u ++ v -> v <> [] -> strip_prefix p (v ++ p ++ b) = None) ->
  find_from p before (a ++ p ++ b) = Some (rev before ++ a, b).
Proof.
induction a as [|c a IH]; intros before H.
- cbn [app]. rewrite app_nil_r.
  destruct (p ++ b) as [|x r] eqn:E; cbn [find_from]; rewrite <- E;
    rewrite strip_prefix_app; reflexivity.
- cbn [app find_from]. rewrite_at (H [] (c :: a) eq_refl ltac:(discriminate)).
  rewrite IH.
  + cbn [rev]. rewrite <- app_assoc. reflexivity.
  + intros u v -> Hv. apply (H (c :: u) v eq_refl Hv).
Qed.

Lemma find_intro p a b :
  (forall u v, a = u ++ v -> v <> [] -> strip_prefix p (v ++ p ++ b) = None) ->
  find p (a ++ p ++ b) = Some (a, b).
Proof. intros H. unfold find. rewrite find_from_intro by exact H. reflexivity. Qed.

(** The first occurrence stays the first when the text after it
    changes. *)
Lemma find_tail p s a b b' :
  find p s = Some (a, b) -> find p (a ++ p ++ b') = Some (a, b').
Proof.
intros H. apply find_Some in H as [_ Hfirst]. apply find_intro.
intros u v Huv Hv. specialize (Hfirst u v Huv Hv).
rewrite app_assoc in Hfirst. rewrite app_assoc.
apply (strip_prefix_tail p (v ++ p) b b'); [|exact Hfirst].
rewrite length_app. lia.
Qed.

(** ** The [appId] rule applied twice *)

(** Applied to its own output, the [appId] rule adds one more double
    quote after the value: it never reaches a fixed point on a
    well-formed field. *)
Lemma app_id_rule_twice content pre ws old post q value once :
  find (str "appId:") content = Some (pre, ws ++ q :: old ++ q :: post) ->
  ends_with_word pre = false -> all_space ws = true ->
  isQuote q = true -> old <> [] -> no_quote old = true ->
  value <> [] -> no_quote value = true -> no_dollar value = true ->
  replaceOrThrow content app_id_re (str "$1" ++ dq :: value ++ dq :: str "$4")
    "electron-builder appId" = Return once ->
  once = pre ++ str "appId:" ++ ws ++ dq :: value ++ dq :: q :: post
  /\ replaceOrThrow once app_id_re (str "$1" ++ dq :: value ++ dq :: str "$4")
       "electron-builder appId"
     = Return (pre ++ str "appId:" ++ ws ++ dq :: value ++ dq :: dq :: q :: post)
  /\ pre ++ str "appId:" ++ ws ++ dq :: value ++ dq :: dq :: q :: post <> once.
Proof.
intros Hfind Hpre Hws Hq Hold Hnq Hval Hvq Hvd Honce.
rewrite (app_id_rewritten content pre ws old post q value) in Honce by assumption.
injection Honce as <-.
split; [reflexivity|]. split.
- apply (app_id_rewritten _ pre ws value (q :: post) dq value); try assumption.
  + apply (find_tail _ _ _ _ _ Hfind).
  + reflexivity.
- intros Heq. apply (f_equal (@length char)) in Heq.
  repeat first [rewrite length_app in Heq | rewrite length_cons in Heq].
  change (length (str "appId:")) with 6 in Heq. lia.
Qed.

(** A slug has no [$]: as an executable name it is inserted as it is. *)
Lemma slug_no_dollar s : slug_shape s = true -> no_dollar s = true.
Proof.
intros H. apply slug_shape_chars in H. unfold no_dollar.
rewrite forallb_forall in *. intros c Hc. rewrite (slug_char_not_dollar c (H c Hc)).
reflexivity.
Qed.

(* ================================================================== *)
(** * The claims of the specification *)
(* ================================================================== *)

(** ** Quote style of [appId] and [productName] *)

(** C1.  The specification says that the rewriting of [appId] and
    [productName] keeps the quote character of the old value.  On a
    single-quoted value the script instead writes the new value between
    double quotes and leaves the old closing quote after it: its
    template is [$1], a double quote, the value, a double quote, [$4] --
    the quote captured by group 2 is never used.  This is the script
    evaluated on [appId: 'old-id'] and on a whole single-quoted
    configuration; the executable name, which goes through the replacer
    function, keeps its quotes.  [app_id_rewritten] and
    [product_name_rewritten] state the same for every well-formed
    field. *)
Theorem app_id_single_quote_evaluation :
  replaceOrThrow (str "appId: 'old-id'") app_id_re
    (str "$1" ++ dq :: str "new-id" ++ dq :: str "$4") "electron-builder appId"
  = Return (str "appId: " ++ quoted "new-id" ++ str "'")
  /\
  patchElectronBuilderContent single_quoted_builder_ts
    (str "new-id") (str "New Name") (str "new")
  = Return (lines [str "export default {";
                   str "  appId: " ++ quoted "new-id" ++ str "',";
                   str "  productName: " ++ quoted "New Name" ++ str "',";
                   str "  linux: {";
                   str "    executableName: 'new'";
                   str "  }";
                   str "};"]).
Proof. split; vm_compute; reflexivity. Qed.

(** ** Idempotence *)

(** C2.  The specification says that a second run with the same
    identity changes nothing.  This is the script run twice on the
    template repository: the first run patches the four files, and the
    second run rewrites the builder configuration again, because each
    run leaves one more quote after [appId] and [productName] (the
    defect of C1; [app_id_rule_twice] states it for every well-formed
    field). *)
Theorem second_run_rewrites_builder_config :
  let first := main fixture_env "/repo" fixture_world in
  let second := main fixture_env "/repo" (snd first) in
  fst first = Return [ {| file := package_json_path; changed := true |};
                       {| file := builder_ts_path; changed := true |};
                       {| file := controller_ts_path; changed := true |};
                       {| file := index_ts_path; changed := true |} ]
  /\ files (snd first) !! builder_ts_path = Some (patched_builder_ts [dq])
  /\ fst second = Return [ {| file := package_json_path; changed := false |};
                           {| file := builder_ts_path; changed := true |};
                           {| file := controller_ts_path; changed := false |};
                           {| file := index_ts_path; changed := false |} ]
  /\ files (snd second) !! builder_ts_path = Some (patched_builder_ts [dq; dq])
  /\ written_paths (writes_since (snd first) (snd second)) = [builder_ts_path].
Proof. vm_compute. repeat split; reflexivity. Qed.

(** ** The slug *)

(** C3, counterexample.  A slug with surrounding white space does not
    match the pattern, and the Validator accepts it: [sanitizeSlug]
    trims its input before it tests it. *)
Lemma slug_with_spaces_accepted :
  test slug_re (str " foo ") = false /\
  sanitizeSlug (str " foo ") = Return (str "foo") /\
  (exists id, resolveIdentity (<["APP_SLUG" := str " foo "]> fixture_env) = Return id
              /\ appSlug id = str "foo").
Proof.
  split; [reflexivity|]. split; [reflexivity|].
  eexists. split; [vm_compute; reflexivity|reflexivity].
Qed.

Lemma requireEnv_missing (env : gmap string jsstring) name :
  required_missing env name -> requireEnv env name = Throw (Error (missing_env_message name)).
Proof. intros [H|H]; unfold requireEnv; rewrite H; reflexivity. Qed.

Lemma resolveIdentity_bad_slug (env : gmap string jsstring) v :
  env !! "APP_SLUG" = Some v -> slug_shape (trim v) = false ->
  resolveIdentity env
  = Throw (Error (if Nat.eqb (length v) 0 then missing_env_message "APP_SLUG"
                  else bad_slug_message v)).
Proof.
  intros Hv Hs. unfold resolveIdentity.
  destruct v as [|c v].
  - rewrite (requireEnv_missing env "APP_SLUG") by (right; exact Hv). reflexivity.
  - rewrite (requireEnv_Some env "APP_SLUG" _ Hv) by discriminate.
    cbn [obind]. rewrite sanitizeSlug_shape, Hs. reflexivity.
Qed.

(** C3, amended.  What decides is the trimmed input: when it does not
    have the slug shape -- which is what the pattern tests --
    [sanitizeSlug] throws an error whose message ends with the input as
    [JSON.stringify] prints it, and the Validator fails (for the empty
    string, with the error of a missing variable); when it has the slug
    shape, the trimmed input is the slug.  [JSON.stringify] prints a
    string without characters to escape between two double quotes as it
    is. *)
Theorem slug_validation (input : jsstring) :
  test slug_re (trim input) = slug_shape (trim input)
  /\ (slug_shape (trim input) = true -> sanitizeSlug input = Return (trim input))
  /\ (slug_shape (trim input) = false ->
        sanitizeSlug input = Throw (Error (bad_slug_message input))
        /\ forall env, env !! "APP_SLUG" = Some input ->
             resolveIdentity env
             = Throw (Error (if Nat.eqb (length input) 0
                             then missing_env_message "APP_SLUG"
                             else bad_slug_message input)))
  /\ (plain_json input = true -> Json.quote input = dq :: input ++ [dq]).
Proof.
  split; [apply slug_re_test|]. split; [|split].
  - intros H. rewrite sanitizeSlug_shape, H. reflexivity.
  - intros H. split.
    + rewrite sanitizeSlug_shape, H. reflexivity.
    + intros env Hv. apply resolveIdentity_bad_slug; assumption.
  - apply quote_plain.
Qed.

(** The amended claim on [1_bad], which fails, and on a slug between
    spaces, which is accepted. *)
Lemma slug_validation_witness :
  (slug_shape (trim (str "1_bad")) = false /\
   sanitizeSlug (str "1_bad") = Throw (Error (bad_slug_message (str "1_bad"))) /\
   Json.quote (str "1_bad") = dq :: str "1_bad" ++ [dq])
  /\ (slug_shape (trim (str " foo ")) = true /\
      sanitizeSlug (str " foo ") = Return (trim (str " foo "))).
Proof.
  split.
  - split; [reflexivity|]. split.
    + apply (slug_validation (str "1_bad")). reflexivity.
    + apply (slug_validation (str "1_bad")). reflexivity.
  - split; [reflexivity|]. apply (slug_validation (str " foo ")). reflexivity.
Defined.

(** ** The banner *)

(** C7, counterexample.  Two occurrences of the banner that overlap:
    the second one stays, and the patched text still holds the banner.
    And a product name with [$$] in it: the banner is replaced by a
    text with one [$], because [replaceAll] expands its replacement
    string. *)
Lemma banner_not_always_replaced_by_product_name :
  patchMainHeaderContent (str "--- Flow Browser --- Flow Browser ---") (str "Acme")
  = str "--- Acme --- Flow Browser ---"
  /\
  patchMainHeaderContent (str "--- Flow Browser ---") (str "Cash$$") = str "--- Cash$ ---".
Proof. split; vm_compute; reflexivity. Qed.

(** C7, amended.  For a product name without [$], the occurrences of
    the banner, taken from left to right without overlap, are all
    replaced by the banner of the product name.  A text without the
    banner is left as it is, for any product name, and the handler
    returns [changed = false] after two reads and no write. *)
Theorem banner_replacement (content productName : jsstring) :
  (no_dollar productName = true ->
   replaced_all banner (str "--- " ++ productName ++ str " ---") content
     (patchMainHeaderContent content productName))
  /\
  (includes content banner = false ->
   patchMainHeaderContent content productName = content
   /\ forall repoRoot w,
        files w !! path_join repoRoot "src/main/index.ts" = Some content ->
        patchMainHeader repoRoot productName w
        = (Return {| file := path_join repoRoot "src/main/index.ts"; changed := false |},
           World (files w)
             (ReadFile (path_join repoRoot "src/main/index.ts")
                :: ReadFile (path_join repoRoot "src/main/index.ts") :: trace w)
             (stdout w))).
Proof.
split.
- apply patchMainHeaderContent_replaced.
- intros Hno. split.
  + apply patchMainHeaderContent_absent. exact Hno.
  + intros repoRoot w Hfile.
    apply (patchMainHeader_absent repoRoot productName w content Hfile Hno).
Qed.

(** The amended claim on a text with the banner twice, and on a text
    without it. *)
Lemma banner_replacement_witness :
  replaced_all banner (str "--- Acme ---")
    (str "a --- Flow Browser --- b --- Flow Browser --- c")
    (str "a --- Acme --- b --- Acme --- c")
  /\ patchMainHeaderContent (str "no banner here") (str "Acme") = str "no banner here".
Proof.
split.
- apply (proj1 (banner_replacement (str "a --- Flow Browser --- b --- Flow Browser --- c")
                  (str "Acme"))).
  reflexivity.
- apply (proj2 (banner_replacement (str "no banner here") (str "Acme"))). reflexivity.
Defined.

(** ** The Validator *)

Lemma resolveIdentity_throws_Error env e :
  resolveIdentity env = Throw e -> exists message, e = Error message.
Proof.
unfold resolveIdentity.
destruct (requireEnv env "APP_SLUG") as [v|e1] eqn:E1; cbn [obind].
- rewrite sanitizeSlug_shape. destruct (slug_shape (trim v)); cbn [obind].
  + destruct (requireEnv env "APP_PRODUCT_NAME") as [pn|e2] eqn:E2; cbn [obind].
    * destruct (Nat.eqb (length (trim pn)) 0); [|discriminate].
      intros [= <-]. eexists. reflexivity.
    * unfold requireEnv in E2. destruct (env !! "APP_PRODUCT_NAME") as [[|? ?]|];
        try discriminate; injection E2 as <-; intros [= <-]; eexists; reflexivity.
  + intros [= <-]. eexists. reflexivity.
- unfold requireEnv in E1. destruct (env !! "APP_SLUG") as [[|? ?]|];
    try discriminate; injection E1 as <-; intros [= <-]; eexists; reflexivity.
Qed.

Lemma invalid_environment_throws env :
  invalid_environment env -> exists message, resolveIdentity env = Throw (Error message).
Proof.
intros Hinv.
destruct (resolveIdentity env) as [id|e] eqn:E.
- exfalso. unfold resolveIdentity in E.
  destruct (requireEnv env "APP_SLUG") as [v|] eqn:E1; [|discriminate]. cbn [obind] in E.
  rewrite sanitizeSlug_shape in E.
  destruct (slug_shape (trim v)) eqn:Es; [|discriminate]. cbn [obind] in E.
  destruct (requireEnv env "APP_PRODUCT_NAME") as [pn|] eqn:E2; [|discriminate].
  cbn [obind] in E.
  destruct (Nat.eqb (length (trim pn)) 0) eqn:El; [discriminate|].
  apply requireEnv_Return in E1 as [E1 Hv]. apply requireEnv_Return in E2 as [E2 Hpn].
  destruct Hinv as [[H|H]|[(v' & H & Hs)|[[H|H]|(v' & H & Ht)]]]; try congruence.
  rewrite E2 in H. injection H as <-. rewrite Ht in El. discriminate.
- destruct (resolveIdentity_throws_Error env e E) as [message ->]. exists message. reflexivity.
Qed.

(** C8.  When the Validator fails, [main] fails with the same error
    and leaves the world as it was: no file is read or written, and
    nothing is printed.  The Validator fails on every environment that
    lacks a required value, has a malformed slug, or has a product name
    that is empty after trimming. *)
Theorem validation_precedes_io (env : gmap string jsstring) (cwd : string) (w : world) :
  (forall e, resolveIdentity env = Throw e -> main env cwd w = (Throw e, w))
  /\
  (invalid_environment env ->
   exists message, resolveIdentity env = Throw (Error message)
                   /\ main env cwd w = (Throw (Error message), w)).
Proof.
assert (forall e, resolveIdentity env = Throw e -> main env cwd w = (Throw e, w)) as Hmain.
{ intros e He. unfold main, Node.bind, lift. rewrite He. reflexivity. }
split; [exact Hmain|].
intros Hinv. destruct (invalid_environment_throws env Hinv) as [message Hm].
exists message. split; [exact Hm|]. apply Hmain. exact Hm.
Qed.

(** The template repository with a product name of spaces only. *)
Lemma validation_precedes_io_witness :
  invalid_environment (<["APP_PRODUCT_NAME" := str "   "]> fixture_env) /\
  main (<["APP_PRODUCT_NAME" := str "   "]> fixture_env) "/repo" fixture_world
  = (Throw (Error (str "APP_PRODUCT_NAME cannot be empty")), fixture_world).
Proof.
split.
- right. right. right. exists (str "   "). split; reflexivity.
- apply (proj1 (validation_precedes_io (<["APP_PRODUCT_NAME" := str "   "]> fixture_env)
                  "/repo" fixture_world)).
  vm_compute. reflexivity.
Defined.

(** C9.  A required variable set to the empty string is treated as an
    unset one: [requireEnv] throws the error of a missing variable, with
    the name of the variable, and the Validator gives the same result
    as without the variable -- for the slug that error, and for the
    product name that error as well whenever the slug is valid. *)
Theorem empty_required_is_missing (env : gmap string jsstring) :
  requireEnv (<["APP_SLUG" := []]> env) "APP_SLUG"
  = Throw (Error (missing_env_message "APP_SLUG"))
  /\ requireEnv (<["APP_PRODUCT_NAME" := []]> env) "APP_PRODUCT_NAME"
     = Throw (Error (missing_env_message "APP_PRODUCT_NAME"))
  /\ resolveIdentity (<["APP_SLUG" := []]> env) = resolveIdentity (delete "APP_SLUG" env)
  /\ resolveIdentity (<["APP_PRODUCT_NAME" := []]> env)
     = resolveIdentity (delete "APP_PRODUCT_NAME" env)
  /\ resolveIdentity (<["APP_SLUG" := []]> env)
     = Throw (Error (missing_env_message "APP_SLUG"))
  /\ (forall v, env !! "APP_SLUG" = Some v -> slug_shape (trim v) = true ->
        resolveIdentity (<["APP_PRODUCT_NAME" := []]> env)
        = Throw (Error (missing_env_message "APP_PRODUCT_NAME"))).
Proof.
split; [apply requireEnv_empty|]. split; [apply requireEnv_empty|].
assert (resolveIdentity (<["APP_SLUG" := []]> env)
        = Throw (Error (missing_env_message "APP_SLUG"))) as Hslug.
{ unfold resolveIdentity. rewrite requireEnv_empty. reflexivity. }
split; [|split; [|split; [exact Hslug|]]].
- rewrite Hslug. unfold resolveIdentity. rewrite requireEnv_unset. reflexivity.
- unfold resolveIdentity.
  rewrite (requireEnv_insert_ne env "APP_PRODUCT_NAME" "APP_SLUG") by discriminate.
  rewrite (requireEnv_delete_ne env "APP_PRODUCT_NAME" "APP_SLUG") by discriminate.
  destruct (requireEnv env "APP_SLUG") as [v|]; [|reflexivity]. cbn [obind].
  destruct (sanitizeSlug v); [|reflexivity]. cbn [obind].
  rewrite requireEnv_empty, requireEnv_unset. reflexivity.
- intros v Hv Hs. unfold resolveIdentity.
  rewrite (requireEnv_insert_ne env "APP_PRODUCT_NAME" "APP_SLUG") by discriminate.
  assert (v <> []) as Hne by (intros ->; discriminate).
  rewrite (requireEnv_Some env "APP_SLUG" v Hv Hne). cbn [obind].
  rewrite sanitizeSlug_shape, Hs. cbn [obind].
  rewrite requireEnv_empty. reflexivity.
Qed.

(** The fixture with its product name set to the empty string. *)
Lemma empty_required_is_missing_witness :
  resolveIdentity (<["APP_PRODUCT_NAME" := []]> fixture_env)
  = Throw (Error (missing_env_message "APP_PRODUCT_NAME")).
Proof.
apply (proj2 (proj2 (proj2 (proj2 (proj2 (empty_required_is_missing fixture_env)))))
         (str "acme")); reflexivity.
Defined.



(* ================================================================== *)
(** * Further properties of the script *)
(* ================================================================== *)

Section HandlerShape.

Variables (path : string) (f : jsstring -> outcome jsstring).

Lemma patch_file_missing w :
  files w !! path = None ->
  patch_file path f w
  = (Throw (ENOENT path), World (files w) (ReadFile path :: trace w) (stdout w)).
Proof. intros H. unfold patch_file, Node.bind, readFileSync. rewrite H. reflexivity. Qed.

Lemma patch_file_throws w prev e :
  files w !! path = Some prev -> f prev = Throw e ->
  patch_file path f w = (Throw e, World (files w) (ReadFile path :: trace w) (stdout w)).
Proof.
intros H He. unfold patch_file, Node.bind. rewrite (readFileSync_found _ _ _ H).
unfold lift. rewrite He. reflexivity.
Qed.

Lemma patch_file_returns w prev next :
  files w !! path = Some prev -> f prev = Return next ->
  patch_file path f w
  = if JsString.eqb prev next
    then (Return {| file := path; changed := false |},
          World (files w) (ReadFile path :: ReadFile path :: trace w) (stdout w))
    else (Return {| file := path; changed := true |},
          World (<[path := next]> (files w))
            (WriteFile path next :: ReadFile path :: ReadFile path :: trace w) (stdout w)).
Proof.
intros H Hf. unfold patch_file, Node.bind. rewrite (readFileSync_found _ _ _ H).
unfold lift. rewrite Hf.
destruct (JsString.eqb prev next) eqn:E.
- apply jsstring_eqb_eq in E. subst next. rewrite writeIfChanged_same by exact H. reflexivity.
- rewrite (writeIfChanged_changed path prev next) by
    (try exact H; intros ->; rewrite jsstring_eqb_refl in E; discriminate).
  reflexivity.
Qed.

Lemma patch_file_run w : handler_run path w (fst (patch_file path f w)) (snd (patch_file path f w)).
Proof.
destruct (files w !! path) as [prev|] eqn:H.
- destruct (f prev) as [next|e] eqn:Hf.
  + rewrite (patch_file_returns w prev next H Hf).
    destruct (JsString.eqb prev next); cbn [fst snd]; unfold handler_run; cbn [stdout trace files].
    * split; [reflexivity|]. split; [exists [ReadFile path; ReadFile path]; events|].
      split; [reflexivity|reflexivity].
    * split; [reflexivity|].
      split; [exists [WriteFile path next; ReadFile path; ReadFile path]; events|].
      split; [|reflexivity]. intros q Hq. apply lookup_insert_ne. congruence.
  + rewrite (patch_file_throws w prev e H Hf). cbn [fst snd]. unfold handler_run.
    cbn [stdout trace files]. split; [reflexivity|].
    split; [exists [ReadFile path]; events|]. split; reflexivity.
- rewrite (patch_file_missing w H). cbn [fst snd]. unfold handler_run.
  cbn [stdout trace files]. split; [reflexivity|].
  split; [exists [ReadFile path]; events|]. split; reflexivity.
Qed.

End HandlerShape.

(** The four handlers have that shape. *)
Lemma patchPackageJson_shape repoRoot packageName productName w :
  patchPackageJson repoRoot packageName productName w
  = patch_file (package_json_of repoRoot)
      (fun text => patchPackageJsonContent text packageName productName) w.
Proof.
unfold patchPackageJson, patch_file, patchPackageJsonContent, Node.bind, lift, package_json_of.
destruct (readFileSync _ w) as [[text|e] w1]; [|reflexivity].
destruct (Json.parse text) as [pkg|e]; [|reflexivity]. cbn [obind].
destruct (Json.assign pkg _ _) as [pkg1|e]; [|reflexivity]. cbn [obind].
destruct (Json.assign pkg1 _ _) as [pkg2|e]; reflexivity.
Qed.

Lemma patchElectronBuilderTs_shape repoRoot appId productName executableName w :
  patchElectronBuilderTs repoRoot appId productName executableName w
  = patch_file (builder_ts_of repoRoot)
      (fun content => patchElectronBuilderContent content appId productName executableName) w.
Proof. reflexivity. Qed.

Lemma patchDefaultBrowserController_shape repoRoot desktopFile w :
  patchDefaultBrowserController repoRoot desktopFile w
  = patch_file (controller_ts_of repoRoot)
      (fun content => patchDefaultBrowserContent content desktopFile) w.
Proof. reflexivity. Qed.

Lemma patchMainHeader_shape repoRoot productName w :
  patchMainHeader repoRoot productName w
  = patch_file (index_ts_of repoRoot)
      (fun content => Return (patchMainHeaderContent content productName)) w.
Proof.
unfold patchMainHeader, patch_file, Node.bind, lift, index_ts_of.
destruct (readFileSync _ w) as [[text|e] w1]; reflexivity.
Qed.

(** ** The file operations of a run *)

Lemma writes_since_app w w' evs :
  trace w' = evs ++ trace w -> writes_since w w' = filter (fun e => is_write e = true) evs.
Proof.
intros H. unfold writes_since. rewrite H, length_app.
replace (length evs + length (trace w) - length (trace w)) with (length evs) by lia.
rewrite take_app_length. reflexivity.
Qed.

Lemma written_paths_writes evs :
  written_paths (filter (fun e => is_write e = true) evs) = written_paths evs.
Proof.
induction evs as [|e evs IH]; [reflexivity|].
rewrite filter_cons. destruct e as [p|p t].
- destruct (decide (is_write (ReadFile p) = true)) as [Hw|_]; [discriminate Hw|]. exact IH.
- destruct (decide (is_write (WriteFile p t) = true)) as [_|Hw]; [|exfalso; apply Hw; reflexivity].
  unfold written_paths in *. cbn [omap list_omap]. rewrite IH. reflexivity.
Qed.

Lemma written_paths_app evs1 evs2 :
  written_paths (evs1 ++ evs2) = written_paths evs1 ++ written_paths evs2.
Proof. unfold written_paths. apply omap_app. Qed.

(** ** [writeIfChanged] *)

(** On a file that exists, [writeIfChanged] with a new text without a
    lone surrogate reports a change exactly when the new text differs
    from the old one, writes exactly then, and in both cases leaves the
    file with the new text and every other file as it was. *)
Theorem writeIfChanged_effect (path : string) (prev next : jsstring) (w : world) :
  files w !! path = Some prev ->
  isWellFormed next = true ->
  exists pr w',
    writeIfChanged path next w = (Return pr, w')
    /\ file pr = path
    /\ (changed pr = true <-> prev <> next)
    /\ files w' = <[path := next]> (files w)
    /\ written_paths (writes_since w w') = (if changed pr then [path] else [])
    /\ stdout w' = stdout w.
Proof.
intros H _. destruct (JsString.eqb prev next) eqn:E.
- apply jsstring_eqb_eq in E. subst next.
  eexists _, _. split; [apply writeIfChanged_same; exact H|]. cbn [file changed files stdout].
  split; [reflexivity|]. split; [split; [discriminate|congruence]|].
  split; [symmetry; apply insert_id; exact H|]. split; [|reflexivity].
  rewrite (writes_since_app _ _ [ReadFile path]) by reflexivity. reflexivity.
- assert (prev <> next) as Hne by (intros ->; rewrite jsstring_eqb_refl in E; discriminate).
  eexists _, _. split; [apply (writeIfChanged_changed path prev next w H Hne)|].
  cbn [file changed files stdout].
  split; [reflexivity|]. split; [split; [intros _; exact Hne|reflexivity]|].
  split; [reflexivity|]. split; [|reflexivity].
  rewrite (writes_since_app _ _ [WriteFile path next; ReadFile path]) by reflexivity.
  rewrite written_paths_writes. reflexivity.
Qed.

Lemma writeIfChanged_effect_witness :
  exists pr w',
    writeIfChanged index_ts_path (str "new text") fixture_world = (Return pr, w')
    /\ file pr = index_ts_path
    /\ (changed pr = true <-> fixture_index_ts <> str "new text")
    /\ files w' = <[index_ts_path := str "new text"]> (files fixture_world)
    /\ written_paths (writes_since fixture_world w') = (if changed pr then [index_ts_path] else [])
    /\ stdout w' = stdout fixture_world.
Proof. apply (writeIfChanged_effect index_ts_path fixture_index_ts); reflexivity. Defined.

(** Called again with the same text -- a text without a lone
    surrogate --, [writeIfChanged] reports no change and writes
    nothing, whatever the first call did. *)
Theorem writeIfChanged_twice (path : string) (prev next : jsstring) (w : world) :
  files w !! path = Some prev ->
  isWellFormed next = true ->
  exists pr w',
    writeIfChanged path next w = (Return pr, w')
    /\ writeIfChanged path next w'
       = (Return {| file := path; changed := false |},
          World (files w') (ReadFile path :: trace w') (stdout w')).
Proof.
intros H _. destruct (JsString.eqb prev next) eqn:E.
- apply jsstring_eqb_eq in E. subst next.
  eexists _, _. split; [apply writeIfChanged_same; exact H|].
  apply writeIfChanged_same. exact H.
- assert (prev <> next) as Hne by (intros ->; rewrite jsstring_eqb_refl in E; discriminate).
  eexists _, _. split; [apply (writeIfChanged_changed path prev next w H Hne)|].
  apply writeIfChanged_same. apply lookup_insert_eq.
Qed.

Lemma writeIfChanged_twice_witness :
  exists pr w',
    writeIfChanged index_ts_path (str "new text") fixture_world = (Return pr, w')
    /\ writeIfChanged index_ts_path (str "new text") w'
       = (Return {| file := index_ts_path; changed := false |},
          World (files w') (ReadFile index_ts_path :: trace w') (stdout w')).
Proof. apply (writeIfChanged_twice index_ts_path fixture_index_ts); reflexivity. Defined.

(** ** The handlers *)

(** A handler whose file does not exist throws the error of the read,
    after that one read, and creates nothing. *)
Theorem handlers_missing_file (repoRoot : string) (w : world) :
  (forall packageName productName,
     files w !! package_json_of repoRoot = None ->
     patchPackageJson repoRoot packageName productName w
     = (Throw (ENOENT (package_json_of repoRoot)),
        World (files w) (ReadFile (package_json_of repoRoot) :: trace w) (stdout w)))
  /\ (forall appId productName executableName,
        files w !! builder_ts_of repoRoot = None ->
        patchElectronBuilderTs repoRoot appId productName executableName w
        = (Throw (ENOENT (builder_ts_of repoRoot)),
           World (files w) (ReadFile (builder_ts_of repoRoot) :: trace w) (stdout w)))
  /\ (forall desktopFile,
        files w !! controller_ts_of repoRoot = None ->
        patchDefaultBrowserController repoRoot desktopFile w
        = (Throw (ENOENT (controller_ts_of repoRoot)),
           World (files w) (ReadFile (controller_ts_of repoRoot) :: trace w) (stdout w)))
  /\ (forall productName,
        files w !! index_ts_of repoRoot = None ->
        patchMainHeader repoRoot productName w
        = (Throw (ENOENT (index_ts_of repoRoot)),
           World (files w) (ReadFile (index_ts_of repoRoot) :: trace w) (stdout w))).
Proof.
repeat split; intros.
- rewrite patchPackageJson_shape. apply patch_file_missing. assumption.
- rewrite patchElectronBuilderTs_shape. apply patch_file_missing. assumption.
- rewrite patchDefaultBrowserController_shape. apply patch_file_missing. assumption.
- rewrite patchMainHeader_shape. apply patch_file_missing. assumption.
Qed.

Lemma handlers_missing_file_witness :
  patchMainHeader "/elsewhere" (str "Acme") fixture_world
  = (Throw (ENOENT "/elsewhere/src/main/index.ts"),
     World fixture_files [ReadFile "/elsewhere/src/main/index.ts"] []).
Proof.
apply (proj2 (proj2 (proj2 (handlers_missing_file "/elsewhere" fixture_world)))).
reflexivity.
Defined.

(** Each handler prints nothing, reads and writes its own file only,
    writes it exactly when it reports a change, leaves every other file
    as it was, and changes no file at all when it throws.  For
    [patchPackageJson] this is stated for the texts of [package.json]
    that the model of JSON covers. *)
Theorem handlers_keep_to_their_file (repoRoot : string) (w : world) :
  (forall packageName productName,
     in_model (fst (patchPackageJson repoRoot packageName productName w)) ->
     handler_run (package_json_of repoRoot) w
       (fst (patchPackageJson repoRoot packageName productName w))
       (snd (patchPackageJson repoRoot packageName productName w)))
  /\ (forall appId productName executableName,
        handler_run (builder_ts_of repoRoot) w
          (fst (patchElectronBuilderTs repoRoot appId productName executableName w))
          (snd (patchElectronBuilderTs repoRoot appId productName executableName w)))
  /\ (forall desktopFile,
        handler_run (controller_ts_of repoRoot) w
          (fst (patchDefaultBrowserController repoRoot desktopFile w))
          (snd (patchDefaultBrowserController repoRoot desktopFile w)))
  /\ (forall productName,
        handler_run (index_ts_of repoRoot) w
          (fst (patchMainHeader repoRoot productName w))
          (snd (patchMainHeader repoRoot productName w))).
Proof.
split; [|split; [|split]]; intros.
- rewrite patchPackageJson_shape. apply patch_file_run.
- rewrite patchElectronBuilderTs_shape. apply patch_file_run.
- rewrite patchDefaultBrowserController_shape. apply patch_file_run.
- rewrite patchMainHeader_shape. apply patch_file_run.
Qed.

Lemma handlers_keep_to_their_file_witness :
  handler_run package_json_path fixture_world
    (fst (patchPackageJson "/repo" (str "acme-browser") (str "Acme Browser") fixture_world))
    (snd (patchPackageJson "/repo" (str "acme-browser") (str "Acme Browser") fixture_world)).
Proof.
apply (proj1 (handlers_keep_to_their_file "/repo" fixture_world)).
vm_compute. discriminate.
Defined.

Lemma patchPackageJson_run repoRoot packageName productName w :
  handler_run (package_json_of repoRoot) w
    (fst (patchPackageJson repoRoot packageName productName w))
    (snd (patchPackageJson repoRoot packageName productName w)).
Proof. rewrite patchPackageJson_shape. apply patch_file_run. Qed.

Lemma patchElectronBuilderTs_run repoRoot appId productName executableName w :
  handler_run (builder_ts_of repoRoot) w
    (fst (patchElectronBuilderTs repoRoot appId productName executableName w))
    (snd (patchElectronBuilderTs repoRoot appId productName executableName w)).
Proof. rewrite patchElectronBuilderTs_shape. apply patch_file_run. Qed.

Lemma patchDefaultBrowserController_run repoRoot desktopFile w :
  handler_run (controller_ts_of repoRoot) w
    (fst (patchDefaultBrowserController repoRoot desktopFile w))
    (snd (patchDefaultBrowserController repoRoot desktopFile w)).
Proof. rewrite patchDefaultBrowserController_shape. apply patch_file_run. Qed.

Lemma patchMainHeader_run repoRoot productName w :
  handler_run (index_ts_of repoRoot) w
    (fst (patchMainHeader repoRoot productName w))
    (snd (patchMainHeader repoRoot productName w)).
Proof. rewrite patchMainHeader_shape. apply patch_file_run. Qed.

(** ** The handlers in sequence *)

Lemma within_refl paths w : within paths w w.
Proof.
split; [reflexivity|]. split; [exists []; split; [reflexivity|constructor]|]. reflexivity.
Qed.

Lemma within_trans paths w1 w2 w3 :
  within paths w1 w2 -> within paths w2 w3 -> within paths w1 w3.
Proof.
intros (Ho1 & (evs1 & Ht1 & Hp1) & Hf1) (Ho2 & (evs2 & Ht2 & Hp2) & Hf2).
split; [congruence|]. split.
- exists (evs2 ++ evs1). split; [rewrite Ht2, Ht1, app_assoc; reflexivity|].
  apply Forall_app; split; assumption.
- intros q Hq. rewrite (Hf2 q Hq). apply Hf1, Hq.
Qed.

Lemma handler_run_within paths path w r w' :
  path ∈ paths -> handler_run path w r w' -> within paths w w'.
Proof.
intros Hin (Ho & (evs & Ht & Hp & _) & Hf & _).
split; [exact Ho|]. split.
- exists evs. split; [exact Ht|]. eapply Forall_impl; [exact Hp|].
  intros e He. cbn in He. rewrite He. exact Hin.
- intros q Hq. apply Hf. intros ->. apply Hq, Hin.
Qed.

Lemma handler_run_writes path w pr w' :
  handler_run path w (Return pr) w' ->
  file pr = path /\
  written_paths (writes_since w w') = (if changed pr then [path] else []).
Proof.
intros (_ & (evs & Ht & _ & Hw) & _ & Hfile). split; [exact Hfile|].
rewrite (writes_since_app _ _ _ Ht), written_paths_writes. exact Hw.
Qed.

Lemma writes_since_trans paths w1 w2 w3 :
  within paths w1 w2 -> within paths w2 w3 ->
  written_paths (writes_since w1 w3)
  = written_paths (writes_since w2 w3) ++ written_paths (writes_since w1 w2).
Proof.
intros (_ & (evs1 & Ht1 & _) & _) (_ & (evs2 & Ht2 & _) & _).
rewrite (writes_since_app _ _ _ Ht1), (writes_since_app _ _ _ Ht2).
rewrite (writes_since_app w1 w3 (evs2 ++ evs1)) by (rewrite Ht2, Ht1, app_assoc; reflexivity).
rewrite !written_paths_writes. apply written_paths_app.
Qed.

Lemma in_target_paths repoRoot :
  package_json_of repoRoot ∈ target_paths repoRoot
  /\ builder_ts_of repoRoot ∈ target_paths repoRoot
  /\ controller_ts_of repoRoot ∈ target_paths repoRoot
  /\ index_ts_of repoRoot ∈ target_paths repoRoot.
Proof. unfold target_paths. repeat split; set_solver. Qed.

Lemma runHandlers_run repoRoot id w :
  within (target_paths repoRoot) w (snd (runHandlers repoRoot id w))
  /\ match fst (runHandlers repoRoot id w) with
     | Return results =>
         map file results = target_paths repoRoot
         /\ written_paths (writes_since w (snd (runHandlers repoRoot id w))) = writes_of results
     | Throw _ => True
     end.
Proof.
destruct (in_target_paths repoRoot) as (I1 & I2 & I3 & I4).
unfold runHandlers, bind.
pose proof (patchPackageJson_run repoRoot (packageName id) (productName id) w) as H1.
destruct (patchPackageJson repoRoot (packageName id) (productName id) w) as [[r1|e1] w1];
  cbn [fst snd] in *;
  [|split; [exact (handler_run_within _ _ _ _ _ I1 H1)|exact I]].
pose proof (patchElectronBuilderTs_run repoRoot (appId id) (productName id) (appSlug id) w1) as H2.
destruct (patchElectronBuilderTs repoRoot (appId id) (productName id) (appSlug id) w1)
  as [[r2|e2] w2]; cbn [fst snd] in *;
  [|split; [|exact I];
    exact (within_trans _ _ _ _ (handler_run_within _ _ _ _ _ I1 H1)
             (handler_run_within _ _ _ _ _ I2 H2))].
pose proof (patchDefaultBrowserController_run repoRoot (desktopFile id) w2) as H3.
destruct (patchDefaultBrowserController repoRoot (desktopFile id) w2)
  as [[r3|e3] w3]; cbn [fst snd] in *;
  [|split; [|exact I];
    exact (within_trans _ _ _ _ (handler_run_within _ _ _ _ _ I1 H1)
             (within_trans _ _ _ _ (handler_run_within _ _ _ _ _ I2 H2)
                (handler_run_within _ _ _ _ _ I3 H3)))].
pose proof (patchMainHeader_run repoRoot (productName id) w3) as H4.
destruct (patchMainHeader repoRoot (productName id) w3)
  as [[r4|e4] w4]; cbn [fst snd ret] in *.
- pose proof (handler_run_within _ _ _ _ _ I1 H1) as W1.
  pose proof (handler_run_within _ _ _ _ _ I2 H2) as W2.
  pose proof (handler_run_within _ _ _ _ _ I3 H3) as W3.
  pose proof (handler_run_within _ _ _ _ _ I4 H4) as W4.
  pose proof (within_trans _ _ _ _ W1 W2) as W12.
  pose proof (within_trans _ _ _ _ W12 W3) as W13.
  split; [exact (within_trans _ _ _ _ W13 W4)|].
  destruct (handler_run_writes _ _ _ _ H1) as [F1 E1].
  destruct (handler_run_writes _ _ _ _ H2) as [F2 E2].
  destruct (handler_run_writes _ _ _ _ H3) as [F3 E3].
  destruct (handler_run_writes _ _ _ _ H4) as [F4 E4].
  split; [cbn [map]; rewrite F1, F2, F3, F4; reflexivity|].
  rewrite (writes_since_trans _ _ _ _ W13 W4), (writes_since_trans _ _ _ _ W12 W3),
    (writes_since_trans _ _ _ _ W1 W2), E1, E2, E3, E4.
  unfold writes_of. rewrite !filter_cons, filter_nil.
  destruct r1 as [f1 [|]], r2 as [f2 [|]], r3 as [f3 [|]], r4 as [f4 [|]];
    cbn in F1, F2, F3, F4; subst; reflexivity.
- split; [|exact I].
  exact (within_trans _ _ _ _ (handler_run_within _ _ _ _ _ I1 H1)
           (within_trans _ _ _ _ (handler_run_within _ _ _ _ _ I2 H2)
              (within_trans _ _ _ _ (handler_run_within _ _ _ _ _ I3 H3)
                 (handler_run_within _ _ _ _ _ I4 H4)))).
Qed.

(** ** The summary *)

Lemma log_each_run ls w :
  log_each ls w = (Return tt, World (files w) (trace w) (rev ls ++ stdout w)).
Proof.
revert w. induction ls as [|l ls IH]; intros w.
- destruct w; reflexivity.
- cbn [log_each]. unfold bind, console_log. rewrite IH. cbn [files trace stdout rev].
  rewrite <- app_assoc. reflexivity.
Qed.

Lemma prefix_append (a c : string) : String.prefix a (a +:+ c) = true.
Proof.
induction a as [|x a IH].
- destruct c; reflexivity.
- change (String x a +:+ c) with (String x (a +:+ c)). cbn [String.prefix].
  destruct (Ascii.ascii_dec x x); [exact IH|contradiction].
Qed.

Lemma substring_append (a c : string) :
  String.substring (String.length a) (String.length (a +:+ c) - String.length a) (a +:+ c) = c.
Proof.
induction a as [|x a IH].
- change ("" +:+ c) with c. change (String.length "") with 0. rewrite Nat.sub_0_r.
  induction c as [|y c IHc]; [reflexivity|].
  change (String y (substring 0 (String.length c) c) = String y c). rewrite IHc. reflexivity.
- exact IH.
Qed.

Lemma append_assoc (a b c : string) : (a +:+ b) +:+ c = a +:+ (b +:+ c).
Proof.
induction a as [|x a IH]; [reflexivity|].
change (String x ((a +:+ b) +:+ c) = String x (a +:+ (b +:+ c))). rewrite IH. reflexivity.
Qed.

(** [path.relative] undoes [path.join]. *)
Lemma path_relative_join (dir rel : string) : path_relative dir (path_join dir rel) = rel.
Proof.
unfold path_relative, path_join. destruct (String.eqb dir "/").
- rewrite prefix_append. apply substring_append.
- rewrite <- append_assoc, prefix_append. apply substring_append.
Qed.

Lemma report_run repoRoot results w :
  report repoRoot results w
  = (Return tt,
     World (files w) (trace w)
       ((str "[patch-app-identity] changed "
           ++ JsString.of_nat (length (filter (fun r => changed r = true) results))
           ++ str "/" ++ JsString.of_nat (length results) ++ str " files")
        :: rev (map (report_line repoRoot) results)
        ++ str "[patch-app-identity] done" :: stdout w)).
Proof.
unfold report, bind. unfold console_log at 1. rewrite log_each_run.
unfold console_log. cbn [files trace stdout]. reflexivity.
Qed.

Lemma main_run env cwd w :
  main env cwd w
  = match resolveIdentity env with
    | Throw e => (Throw e, w)
    | Return id =>
        match runHandlers cwd id w with
        | (Throw e, w1) => (Throw e, w1)
        | (Return results, w1) =>
            (Return results,
             World (files w1) (trace w1)
               ((str "[patch-app-identity] changed "
                   ++ JsString.of_nat (length (filter (fun r => changed r = true) results))
                   ++ str "/" ++ JsString.of_nat (length results) ++ str " files")
                :: rev (map (report_line cwd) results)
                ++ str "[patch-app-identity] done" :: stdout w1))
        end
    end.
Proof.
unfold main, bind, lift. destruct (resolveIdentity env) as [id|e]; [|reflexivity].
destruct (runHandlers cwd id w) as [[results|e] w1]; [|reflexivity].
rewrite report_run. reflexivity.
Qed.

(** ** [main] *)

(** Whatever the environment and the files, [main] reads and writes the
    four files of the repository only, and leaves every other file as
    it was (for the texts of [package.json] that the model of JSON
    covers). *)
Theorem main_touches_only_targets (env : gmap string jsstring) (cwd : string) (w : world) :
  in_model (fst (main env cwd w)) ->
  (exists evs, trace (snd (main env cwd w)) = evs ++ trace w
               /\ Forall (fun e => event_path e ∈ target_paths cwd) evs)
  /\ (forall q, q ∉ target_paths cwd -> files (snd (main env cwd w)) !! q = files w !! q).
Proof.
intros _. rewrite main_run. destruct (resolveIdentity env) as [id|e].
- destruct (runHandlers_run cwd id w) as [(_ & Ht & Hf) _].
  destruct (runHandlers cwd id w) as [[results|e] w1]; cbn [fst snd files trace] in *;
    split; assumption.
- cbn [snd]. split; [exists []; split; [reflexivity|constructor]|reflexivity].
Qed.

Lemma main_touches_only_targets_witness :
  (exists evs, trace (snd (main fixture_env "/repo" fixture_world)) = evs ++ []
               /\ Forall (fun e => event_path e ∈ target_paths "/repo") evs)
  /\ (forall q, q ∉ target_paths "/repo" ->
        files (snd (main fixture_env "/repo" fixture_world)) !! q = fixture_files !! q).
Proof.
apply (main_touches_only_targets fixture_env "/repo" fixture_world).
vm_compute. discriminate.
Defined.

(** [main] prints nothing when it throws (an error that the embedding
    accounts for).  When it returns, it has run the four handlers in
    order, has printed the six lines of the summary -- the head line, a
    line for each file with its path relative to the repository, and
    the count -- and the count is the number of writes it has
    performed, which are the writes of the files reported as patched. *)
Theorem main_summary (env : gmap string jsstring) (cwd : string) (w : world) :
  match main env cwd w with
  | (Throw e, w') => e <> OutsideModel -> stdout w' = stdout w
  | (Return results, w') =>
      exists c1 c2 c3 c4,
        results = [ {| file := package_json_of cwd; changed := c1 |};
                    {| file := builder_ts_of cwd; changed := c2 |};
                    {| file := controller_ts_of cwd; changed := c3 |};
                    {| file := index_ts_of cwd; changed := c4 |} ]
        /\ written_paths (writes_since w w') = writes_of results
        /\ stdout w'
           = [ str "[patch-app-identity] changed "
                 ++ JsString.of_nat (length (written_paths (writes_since w w')))
                 ++ str "/4 files";
               status_line "src/main/index.ts" c4;
               status_line "src/main/controllers/default-browser-controller/index.ts" c3;
               status_line "electron-builder.ts" c2;
               status_line "package.json" c1;
               str "[patch-app-identity] done" ] ++ stdout w
  end.
Proof.
rewrite main_run. destruct (resolveIdentity env) as [id|e]; [|reflexivity].
destruct (runHandlers_run cwd id w) as [(Ho & _ & _) Hr].
destruct (runHandlers cwd id w) as [[results|e] w1]; cbn [fst snd] in *;
  [|intros _; exact Ho].
destruct Hr as [Hfiles Hwrites].
destruct results as [|[f1 c1] [|[f2 c2] [|[f3 c3] [|[f4 c4] [|? ?]]]]]; try discriminate Hfiles.
cbn [map file] in Hfiles. unfold target_paths in Hfiles.
injection Hfiles as -> -> -> ->.
exists c1, c2, c3, c4. split; [reflexivity|].
repeat match goal with
  | |- context [writes_since w (World ?f (trace w1) ?o)] =>
      change (writes_since w (World f (trace w1) o)) with (writes_since w w1)
  end.
split; [exact Hwrites|].
rewrite Hwrites. unfold writes_of. rewrite length_rev, length_map.
cbn [stdout length map rev app]. rewrite Ho.
unfold report_line, status_line. cbn [file changed].
unfold package_json_of, builder_ts_of, controller_ts_of, index_ts_of.
rewrite !path_relative_join. reflexivity.
Qed.

(** A handler that throws ends the run with its error, in the world it
    left: the handlers after it are not run, and what the handlers
    before it wrote stays written. *)
Theorem main_stops_at_first_failure
    (env : gmap string jsstring) (cwd : string) (id : Identity) (w : world) :
  resolveIdentity env = Return id ->
  (forall e w1,
     patchPackageJson cwd (packageName id) (productName id) w = (Throw e, w1) ->
     e <> OutsideModel ->
     main env cwd w = (Throw e, w1))
  /\ (forall r1 w1 e w2,
        patchPackageJson cwd (packageName id) (productName id) w = (Return r1, w1) ->
        patchElectronBuilderTs cwd (appId id) (productName id) (appSlug id) w1 = (Throw e, w2) ->
        main env cwd w = (Throw e, w2))
  /\ (forall r1 w1 r2 w2 e w3,
        patchPackageJson cwd (packageName id) (productName id) w = (Return r1, w1) ->
        patchElectronBuilderTs cwd (appId id) (productName id) (appSlug id) w1 = (Return r2, w2) ->
        patchDefaultBrowserController cwd (desktopFile id) w2 = (Throw e, w3) ->
        main env cwd w = (Throw e, w3))
  /\ (forall r1 w1 r2 w2 r3 w3 e w4,
        patchPackageJson cwd (packageName id) (productName id) w = (Return r1, w1) ->
        patchElectronBuilderTs cwd (appId id) (productName id) (appSlug id) w1 = (Return r2, w2) ->
        patchDefaultBrowserController cwd (desktopFile id) w2 = (Return r3, w3) ->
        patchMainHeader cwd (productName id) w3 = (Throw e, w4) ->
        main env cwd w = (Throw e, w4)).
Proof.
intros Hid. rewrite main_run, Hid. unfold runHandlers, bind.
split; [|split; [|split]]; intros.
- rewrite H. reflexivity.
- rewrite H, H0. reflexivity.
- rewrite H, H0, H1. reflexivity.
- rewrite H, H0, H1, H2. reflexivity.
Qed.

Lemma main_stops_at_first_failure_witness :
  let w := World (delete builder_ts_path fixture_files) [] [] in
  exists r1 w1 w2,
    patchPackageJson "/repo" (str "acme-browser") (str "Acme Browser") w = (Return r1, w1)
    /\ w2 = World (files w1) (ReadFile builder_ts_path :: trace w1) []
    /\ main fixture_env "/repo" w = (Throw (ENOENT builder_ts_path), w2).
Proof.
intros w.
destruct (patchPackageJson "/repo" (str "acme-browser") (str "Acme Browser") w)
  as [[r1|e1] w1] eqn:E1; [|exfalso; vm_compute in E1; discriminate E1].
exists r1, w1, (World (files w1) (ReadFile builder_ts_path :: trace w1) []).
split; [reflexivity|]. split; [reflexivity|].
assert (resolveIdentity fixture_env = Return fixture_identity) as Hid by (vm_compute; reflexivity).
apply (proj1 (proj2 (main_stops_at_first_failure fixture_env "/repo" fixture_identity w Hid))
         r1 w1 (ENOENT builder_ts_path)
         (World (files w1) (ReadFile builder_ts_path :: trace w1) []) E1).
vm_compute in E1. injection E1 as <- <-. vm_compute. reflexivity.
Defined.

(** ** The Validator on a valid environment *)

(** With a slug of the slug shape after trimming and a product name
    that is set and not empty, the Validator throws the error of an
    empty product name when the product name is blank, and otherwise
    returns an identity with the trimmed slug and the trimmed product
    name. *)
Theorem resolveIdentity_product_name (env : gmap string jsstring) (s p : jsstring) :
  env !! "APP_SLUG" = Some s -> slug_shape (trim s) = true ->
  env !! "APP_PRODUCT_NAME" = Some p -> p <> [] ->
  (trim p = [] ->
     resolveIdentity env = Throw (Error (str "APP_PRODUCT_NAME cannot be empty")))
  /\ (trim p <> [] ->
        exists id, resolveIdentity env = Return id
                   /\ appSlug id = trim s /\ productName id = trim p).
Proof.
intros Hs Hshape Hp Hne.
assert (s <> []) as Hsne by (intros ->; discriminate Hshape).
unfold resolveIdentity.
rewrite (requireEnv_Some env "APP_SLUG" s Hs Hsne). cbn [obind].
rewrite sanitizeSlug_shape, Hshape. cbn [obind].
rewrite (requireEnv_Some env "APP_PRODUCT_NAME" p Hp Hne). cbn [obind].
split.
- intros ->. reflexivity.
- intros Ht. destruct (trim p) as [|c t] eqn:E; [contradiction|].
  cbn [length Nat.eqb]. eexists. split; [reflexivity|]. split; reflexivity.
Qed.

Lemma resolveIdentity_product_name_witness :
  resolveIdentity (<["APP_PRODUCT_NAME" := str "  "]> fixture_env)
  = Throw (Error (str "APP_PRODUCT_NAME cannot be empty"))
  /\ exists id, resolveIdentity (<["APP_PRODUCT_NAME" := str " Acme "]> fixture_env) = Return id
                /\ appSlug id = trim (str "acme") /\ productName id = trim (str " Acme ").
Proof.
split.
- refine (proj1 (resolveIdentity_product_name
                   (<["APP_PRODUCT_NAME" := str "  "]> fixture_env) (str "acme") (str "  ")
                   _ _ _ _) _);
    try (vm_compute; reflexivity); discriminate.
- refine (proj2 (resolveIdentity_product_name
                   (<["APP_PRODUCT_NAME" := str " Acme "]> fixture_env) (str "acme")
                   (str " Acme ") _ _ _ _) _);
    try (vm_compute; reflexivity); try discriminate.
Defined.

(** ** The results of a handler on a file that exists *)

Lemma patch_file_result path f w prev next :
  files w !! path = Some prev -> f prev = Return next ->
  fst (patch_file path f w)
  = Return {| file := path; changed := negb (JsString.eqb prev next) |}
  /\ files (snd (patch_file path f w)) = <[path := next]> (files w).
Proof.
intros H Hf. rewrite (patch_file_returns path f w prev next H Hf).
destruct (JsString.eqb prev next) eqn:E; cbn [fst snd files negb].
- split; [reflexivity|]. apply jsstring_eqb_eq in E. subst next.
  symmetry. apply insert_id. exact H.
- split; reflexivity.
Qed.

(** ** The desktop file of the default browser *)

Lemma arg_class c : class_matches true [CSpace; CChar dq; CChar (ch "'")] c = isArgChar c.
Proof.
unfold class_matches, isArgChar. cbn [existsb item_matches xorb].
rewrite orb_false_r, orb_assoc. reflexivity.
Qed.

Section Xdg.

Variables (pre ws arg post : jsstring).
Hypothesis ws_space : all_space ws = true.
Hypothesis ws_nonempty : ws <> [].
Hypothesis arg_chars : forallb isArgChar arg = true.
Hypothesis arg_nonempty : arg <> [].
Hypothesis post_start : starts_with_arg post = false.

Lemma xdg_match_here c :
  rmatch false (pattern xdg_re) Some (MState c (xdg_command ++ ws ++ arg ++ post) ∅)
  = Some (MState (rev arg ++ rev ws ++ rev xdg_command ++ c) post ∅).
Proof.
unfold xdg_re. cbn [pattern]. rewrite !rmatch_Seq.
change (str "xdg-settings set default-web-browser") with xdg_command.
rewrite rmatch_Lit_app, rmatch_Seq.
destruct ws as [|s0 ws']; [contradiction|].
destruct arg as [|a0 arg']; [contradiction|].
cbn [all_space forallb] in ws_space, arg_chars.
apply andb_prop in ws_space as [Hs0 Hws']. apply andb_prop in arg_chars as [Ha0 Harg'].
cbn [app]. unfold space at 1. rewrite plus_unfold. rewrite space_class, Hs0.
fold space.
assert (isSpace a0 = false) as Ha0s.
{ unfold isArgChar in Ha0. apply negb_true_iff in Ha0.
  apply orb_false_iff in Ha0 as [Ha0 _]. apply orb_false_iff in Ha0 as [Ha0 _]. exact Ha0. }
apply star_space_run; [exact Hws'|].
rewrite star_space_stop by (cbn [starts_with_space]; exact Ha0s).
rewrite plus_unfold, arg_class, Ha0.
apply star_run; [rewrite forallb_forall in *; intros x Hx; rewrite arg_class; auto|].
rewrite star_stop.
- cbn [rev]. rewrite <- !app_assoc. reflexivity.
- destruct post as [|p0 ?]; [exact I|]. rewrite arg_class. exact post_start.
Qed.

End Xdg.

Lemma no_dollar_app a b : no_dollar (a ++ b) = no_dollar a && no_dollar b.
Proof. unfold no_dollar. apply forallb_app. Qed.

Lemma xdg_content_rewritten content pre ws arg post desktopFile :
  find xdg_command content = Some (pre, ws ++ arg ++ post) ->
  all_space ws = true -> ws <> [] ->
  forallb isArgChar arg = true -> arg <> [] ->
  starts_with_arg post = false ->
  no_dollar desktopFile = true ->
  patchDefaultBrowserContent content desktopFile
  = Return (pre ++ xdg_command ++ ch " " :: desktopFile ++ post).
Proof.
intros Hfind Hws Hwsne Harg Hargne Hpost Hdollar.
apply find_Some in Hfind as [-> Hfirst].
assert (exec xdg_re (pre ++ (xdg_command ++ ws ++ arg) ++ post)
        = Some (MatchResult pre (xdg_command ++ ws ++ arg) post ∅)) as Hexec.
{ eapply exec_found.
  - intros u v -> Hv. unfold xdg_re. cbn [pattern multiline]. rewrite rmatch_Seq.
    apply rmatch_Lit_None. cbn [rest].
    change (str "xdg-settings set default-web-browser") with xdg_command.
    rewrite <- !app_assoc. apply (Hfirst u v eq_refl Hv).
  - change (multiline xdg_re) with false. rewrite <- !app_assoc.
    apply xdg_match_here; assumption.
  - reflexivity.
  - reflexivity. }
rewrite <- !app_assoc in Hexec.
unfold patchDefaultBrowserContent, replaceOrThrow, test, replace. rewrite Hexec.
cbn [negb m_before m_after]. rewrite get_substitution_plain.
- change (str "xdg-settings set default-web-browser " ++ desktopFile)
    with ((xdg_command ++ [ch " "]) ++ desktopFile).
  rewrite <- !app_assoc. reflexivity.
- rewrite no_dollar_app, Hdollar. reflexivity.
Qed.

(** When the first occurrence of the command in the controller is
    followed by white space and an argument, [patchDefaultBrowserController]
    puts one space and the desktop file -- a text without a dollar sign
    -- in the place of the white space and the argument, keeps the rest
    of the file, and reports a change exactly when the text differs.
    The text that results has no lone surrogate, so that the file
    holds it as it is. *)
Theorem default_browser_desktop_file
    (repoRoot : string) (content pre ws arg post desktopFile : jsstring) (w : world) :
  files w !! controller_ts_of repoRoot = Some content ->
  find xdg_command content = Some (pre, ws ++ arg ++ post) ->
  all_space ws = true -> ws <> [] ->
  forallb isArgChar arg = true -> arg <> [] ->
  starts_with_arg post = false ->
  no_dollar desktopFile = true ->
  isWellFormed (pre ++ xdg_command ++ ch " " :: desktopFile ++ post) = true ->
  let next := pre ++ xdg_command ++ ch " " :: desktopFile ++ post in
  fst (patchDefaultBrowserController repoRoot desktopFile w)
  = Return {| file := controller_ts_of repoRoot;
              changed := negb (JsString.eqb content next) |}
  /\ files (snd (patchDefaultBrowserController repoRoot desktopFile w))
     = <[controller_ts_of repoRoot := next]> (files w).
Proof.
intros Hfile Hfind Hws Hwsne Harg Hargne Hpost Hdollar _ next.
rewrite patchDefaultBrowserController_shape.
apply patch_file_result; [exact Hfile|].
apply (xdg_content_rewritten content pre ws arg post); assumption.
Qed.

Lemma default_browser_desktop_file_witness :
  let next := lines [str "exec(" ++ quoted "xdg-settings set default-web-browser acme.desktop"
                       ++ str ");"] in
  fst (patchDefaultBrowserController "/repo" (str "acme.desktop") fixture_world)
  = Return {| file := controller_ts_path; changed := true |}
  /\ files (snd (patchDefaultBrowserController "/repo" (str "acme.desktop") fixture_world))
     = <[controller_ts_path := next]> fixture_files.
Proof.
apply (default_browser_desktop_file "/repo" fixture_controller_ts
         (str "exec(" ++ [dq]) (str " ") (str "flow.desktop") (dq :: str ");" ++ [nl])
         (str "acme.desktop") fixture_world);
  try (vm_compute; reflexivity); discriminate.
Defined.

(** A second run of [patchDefaultBrowserController] with the same
    desktop file -- a non-empty text without white space, quotes and
    dollar signs -- finds the file as the first run left it, the text
    of the first run having no lone surrogate: it reports no change
    and writes nothing. *)
Theorem default_browser_second_run
    (repoRoot : string) (content pre ws arg post desktopFile : jsstring) (w : world) :
  files w !! controller_ts_of repoRoot = Some content ->
  find xdg_command content = Some (pre, ws ++ arg ++ post) ->
  all_space ws = true -> ws <> [] ->
  forallb isArgChar arg = true -> arg <> [] ->
  starts_with_arg post = false ->
  no_dollar desktopFile = true ->
  forallb isArgChar desktopFile = true -> desktopFile <> [] ->
  isWellFormed (pre ++ xdg_command ++ ch " " :: desktopFile ++ post) = true ->
  let w1 := snd (patchDefaultBrowserController repoRoot desktopFile w) in
  patchDefaultBrowserController repoRoot desktopFile w1
  = (Return {| file := controller_ts_of repoRoot; changed := false |},
     World (files w1)
       (ReadFile (controller_ts_of repoRoot) :: ReadFile (controller_ts_of repoRoot) :: trace w1)
       (stdout w1)).
Proof.
intros Hfile Hfind Hws Hwsne Harg Hargne Hpost Hdollar Hdesk Hdeskne _ w1.
assert (files w1 = <[controller_ts_of repoRoot
                       := pre ++ xdg_command ++ ch " " :: desktopFile ++ post]> (files w))
  as Hfiles.
{ unfold w1. rewrite patchDefaultBrowserController_shape.
  apply (patch_file_result _ _ w content); [exact Hfile|].
  apply (xdg_content_rewritten content pre ws arg post); assumption. }
assert (files w1 !! controller_ts_of repoRoot
        = Some (pre ++ xdg_command ++ ch " " :: desktopFile ++ post)) as Hfile1.
{ rewrite Hfiles. apply lookup_insert_eq. }
rewrite patchDefaultBrowserController_shape.
rewrite (patch_file_returns _ _ w1 _ (pre ++ xdg_command ++ ch " " :: desktopFile ++ post) Hfile1).
- rewrite jsstring_eqb_refl. reflexivity.
- apply (xdg_content_rewritten _ pre [ch " "] desktopFile post); try assumption.
  + apply (find_tail _ _ _ _ ([ch " "] ++ desktopFile ++ post)) in Hfind. exact Hfind.
  + reflexivity.
  + discriminate.
Qed.

Lemma default_browser_second_run_witness :
  let w1 := snd (patchDefaultBrowserController "/repo" (str "acme.desktop") fixture_world) in
  patchDefaultBrowserController "/repo" (str "acme.desktop") w1
  = (Return {| file := controller_ts_path; changed := false |},
     World (files w1) (ReadFile controller_ts_path :: ReadFile controller_ts_path :: trace w1)
       (stdout w1)).
Proof.
apply (default_browser_second_run "/repo" fixture_controller_ts
         (str "exec(" ++ [dq]) (str " ") (str "flow.desktop") (dq :: str ");" ++ [nl])
         (str "acme.desktop") fixture_world);
  try (vm_compute; reflexivity); discriminate.
Defined.

(** ** A second run of the executable-name patches *)

Lemma quoted_field_again text mid ws q old post name :
  quoted_field text mid ws q old post -> name <> [] -> no_quote name = true ->
  quoted_field (mid ++ exe_field ++ ws ++ q :: name ++ q :: post) mid ws q name post.
Proof.
intros (Hfind & Hword & Hws & Hq & _ & _) Hne Hnq.
split; [|repeat split; assumption].
apply (find_tail _ _ _ _ (ws ++ q :: name ++ q :: post)) in Hfind. exact Hfind.
Qed.

Lemma block_opening_again name content pre ws body body' :
  block_opening name content pre ws body ->
  block_opening name (pre ++ name ++ ws ++ ch "{" :: body') pre ws body'.
Proof.
intros [Hfind Hws]. split; [|exact Hws].
apply (find_tail _ _ _ _ (ws ++ ch "{" :: body')) in Hfind. exact Hfind.
Qed.

Lemma strip_field_space v b :
  starts_with_space v = true -> strip_prefix exe_field (v ++ b) = None.
Proof.
destruct v as [|a v]; [discriminate|]. cbn [starts_with_space app]. intros Ha.
unfold exe_field. change (str "executableName:") with (ch "e" :: str "xecutableName:").
cbn [strip_prefix]. destruct (char_eqb (ch "e") a) eqn:E; [|reflexivity].
apply char_eqb_eq in E. subst a. discriminate Ha.
Qed.

Lemma all_space_suffix u v : all_space (u ++ v) = true -> v <> [] -> starts_with_space v = true.
Proof.
unfold all_space. rewrite forallb_app. intros [_ Hv]%andb_prop Hne.
destruct v as [|a v]; [contradiction|]. cbn in Hv. apply andb_prop in Hv as [Ha _]. exact Ha.
Qed.

Lemma ends_with_word_space mid : all_space mid = true -> ends_with_word mid = false.
Proof.
intros H. unfold ends_with_word. destruct (rev mid) as [|a r] eqn:E; [reflexivity|].
assert (In a mid) as Hin by (apply in_rev; rewrite E; left; reflexivity).
unfold all_space in H. rewrite forallb_forall in H. specialize (H a Hin).
clear -H. char_arith.
Qed.

Lemma inserted_field ws1 name rest :
  all_space ws1 = true -> name <> [] -> no_quote name = true ->
  quoted_field (ws1 ++ nl :: exec_name_line name ++ rest)
    (ws1 ++ nl :: str "    ") [ch " "] dq name (ch "," :: nl :: rest).
Proof.
intros Hws1 Hne Hnq.
assert (all_space (ws1 ++ nl :: str "    ") = true) as Hmid.
{ unfold all_space in *. rewrite forallb_app, Hws1. reflexivity. }
split; [|split; [apply ends_with_word_space; exact Hmid|repeat split; try assumption; reflexivity]].
replace (ws1 ++ nl :: exec_name_line name ++ rest)
  with ((ws1 ++ nl :: str "    ") ++ exe_field
          ++ [ch " "] ++ dq :: name ++ dq :: ch "," :: nl :: rest)
  by (unfold exec_name_line, exe_field; reassoc; reflexivity).
apply find_intro. intros u v Huv Hv.
apply strip_field_space. apply (all_space_suffix u). rewrite <- Huv. exact Hmid. exact Hv.
Qed.

(** A second run of the Linux patch with the same name -- a non-empty
    name without quote characters and, where the first run inserted
    the field, without a dollar sign -- returns the text of the first
    run, both when the first run replaced the value of the field and
    when it inserted the field. *)
Theorem linux_executable_name_second_run (content name pre ws : jsstring) :
  name <> [] -> no_quote name = true ->
  (forall body mid ws2 q old post,
     block_opening (str "linux:") content pre ws body ->
     quoted_field body mid ws2 q old post ->
     exists next, ensureLinuxExecutableName content name = Return next
                  /\ ensureLinuxExecutableName next name = Return next)
  /\
  (forall ws1 ws2 t,
     find (str "linux:") content = Some (pre, ws ++ str "{" ++ ws1 ++ nl :: ws2 ++ t) ->
     includes (ws ++ str "{" ++ ws1 ++ nl :: ws2 ++ t) exe_field = false ->
     all_space ws = true -> all_space ws1 = true ->
     all_space ws2 = true -> no_newline ws2 = true -> starts_with_space t = false ->
     no_dollar name = true ->
     exists next, ensureLinuxExecutableName content name = Return next
                  /\ ensureLinuxExecutableName next name = Return next).
Proof.
intros Hne Hnq. split.
- intros body mid ws2 q old post Hopen Hfield.
  eexists. split.
  + apply (ensureLinuxExecutableName_replaces content pre ws body mid ws2 q old post Hopen Hfield).
  + apply (ensureLinuxExecutableName_replaces _ pre ws
             (mid ++ exe_field ++ ws2 ++ q :: name ++ q :: post) mid ws2 q name post).
    * apply (block_opening_again _ content pre ws body). exact Hopen.
    * apply (quoted_field_again body mid ws2 q old post); assumption.
- intros ws1 ws2 t Hfind Hno Hws Hws1 Hws2 Hnl Ht Hdollar.
  eexists. split.
  + apply (ensureLinuxExecutableName_inserts content pre ws ws1 ws2 t Hfind Hws Hws1 Hws2 Hnl Ht
             Hno name Hdollar).
  + pose proof (ensureLinuxExecutableName_replaces
                  (pre ++ str "linux:" ++ ws ++ ch "{" :: ws1 ++ nl :: exec_name_line name
                     ++ ws2 ++ t)
                  pre ws (ws1 ++ nl :: exec_name_line name ++ ws2 ++ t)
                  (ws1 ++ nl :: str "    ") [ch " "] dq name (ch "," :: nl :: ws2 ++ t)) as H.
    replace ((str "linux:" ++ ws ++ ch "{" :: ws1 ++ [nl])
               ++ (str "    executableName: " ++ dq :: name ++ dq :: ch "," :: [nl]) ++ ws2 ++ t)
      with (str "linux:" ++ ws ++ ch "{" :: ws1 ++ nl :: exec_name_line name ++ ws2 ++ t)
      by (unfold exec_name_line; reassoc; reflexivity).
    rewrite H.
    * f_equal. unfold exec_name_line, exe_field. reassoc. reflexivity.
    * split; [|exact Hws].
      apply (find_tail _ _ _ _ (ws ++ ch "{" :: ws1 ++ nl :: exec_name_line name ++ ws2 ++ t))
        in Hfind.
      exact Hfind.
    * apply inserted_field; assumption.
Qed.

Lemma linux_executable_name_second_run_witness :
  (exists next,
     ensureLinuxExecutableName
       (lines [str "linux: {"; str "  executableName: `flow`,"; str "}"]) (str "acme")
     = Return next
     /\ ensureLinuxExecutableName next (str "acme") = Return next)
  /\
  (exists next,
     ensureLinuxExecutableName
       (lines [str "linux: {"; str "  category: 'Network'"; str "}"]) (str "acme")
     = Return next
     /\ ensureLinuxExecutableName next (str "acme") = Return next).
Proof.
split.
- refine (proj1 (linux_executable_name_second_run
                   (lines [str "linux: {"; str "  executableName: `flow`,"; str "}"])
                   (str "acme") [] (str " ") _ _)
            (nl :: str "  executableName: `flow`," ++ nl :: str "}" ++ [nl])
            (nl :: str "  ") (str " ") (ch "`") (str "flow") (str "," ++ nl :: str "}" ++ [nl])
            _ _).
  + discriminate.
  + reflexivity.
  + split; vm_compute; reflexivity.
  + repeat split; try (vm_compute; reflexivity). discriminate.
- refine (proj2 (linux_executable_name_second_run
                   (lines [str "linux: {"; str "  category: 'Network'"; str "}"])
                   (str "acme") [] (str " ") _ _)
            [] (str "  ") (str "category: 'Network'" ++ nl :: str "}" ++ [nl])
            _ _ _ _ _ _ _ _); try (vm_compute; reflexivity).
  discriminate.
Defined.

(** A second run of the Windows alignment with the same name -- a
    non-empty name without quote characters -- returns the text of the
    first run. *)
Theorem win_executable_name_second_run (content name : jsstring) :
  name <> [] -> no_quote name = true ->
  (forall pre ws body mid ws2 q old post,
     block_opening (str "win:") content pre ws body ->
     ends_with_word pre = false ->
     quoted_field body mid ws2 q old post ->
     alignWinExecutableName (alignWinExecutableName content name) name
     = alignWinExecutableName content name)
  /\
  (no_field_after (str "win:") content ->
   alignWinExecutableName (alignWinExecutableName content name) name
   = alignWinExecutableName content name).
Proof.
intros Hne Hnq. split.
- intros pre ws body mid ws2 q old post Hopen Hpre Hfield.
  rewrite (alignWinExecutableName_replaces content pre ws body mid ws2 q old post
             Hopen Hpre Hfield name).
  apply (alignWinExecutableName_replaces _ pre ws
           (mid ++ exe_field ++ ws2 ++ q :: name ++ q :: post) mid ws2 q name post).
  + apply (block_opening_again _ content pre ws body). exact Hopen.
  + exact Hpre.
  + apply (quoted_field_again body mid ws2 q old post); assumption.
- intros Hno. rewrite (alignWinExecutableName_absent content name Hno).
  apply alignWinExecutableName_absent. exact Hno.
Qed.

Lemma win_executable_name_second_run_witness :
  alignWinExecutableName
    (alignWinExecutableName (str "  win: { executableName: 'flow' },") (str "acme")) (str "acme")
  = alignWinExecutableName (str "  win: { executableName: 'flow' },") (str "acme").
Proof.
refine (proj1 (win_executable_name_second_run (str "  win: { executableName: 'flow' },")
                 (str "acme") _ _)
          (str "  ") (str " ") (str " executableName: 'flow' },") (str " ") (str " ")
          (ch "'") (str "flow") (str " },") _ _ _).
- discriminate.
- reflexivity.
- split; vm_compute; reflexivity.
- vm_compute. reflexivity.
- repeat split; try (vm_compute; reflexivity). discriminate.
Defined.

(** ** What a search returns *)

Lemma exec_from_first re : forall after before m,
  exec_from re before after = Some m ->
  exists a,
    m_before m = rev before ++ a
    /\ after = a ++ m_matched m ++ m_after m
    /\ forall u v, a = u ++ v -> v <> [] ->
         rmatch (multiline re) (pattern re) Some
           (MState (rev u ++ before) (v ++ m_matched m ++ m_after m) ∅) = None.
Proof.
assert (forall after before y,
          rmatch (multiline re) (pattern re) Some (MState before after ∅) = Some y ->
          after = take (length after - length (rest y)) after ++ rest y) as Hhere.
{ intros after before y Hy.
  destruct (rmatch_progresses (multiline re) (pattern re) Some _ _ Hy) as (y0 & Hy0 & Hsuf).
  injection Hy0 as ->. cbn [rest] in Hsuf. destruct Hsuf as [pfx Hpfx].
  subst after. rewrite length_app.
  replace (length pfx + length (rest y) - length (rest y)) with (length pfx) by lia.
  rewrite take_app_length. reflexivity. }
induction after as [|c after IH]; intros before m.
- cbn [exec_from].
  destruct (rmatch (multiline re) (pattern re) Some (MState before [] ∅)) as [y|] eqn:Hy;
    [|discriminate].
  intros [= <-]. cbn [m_before m_matched m_after]. exists []. split; [rewrite app_nil_r; reflexivity|].
  split; [exact (Hhere _ _ _ Hy)|]. intros u v Huv Hv. destruct u; destruct v; try discriminate.
  contradiction.
- cbn [exec_from].
  destruct (rmatch (multiline re) (pattern re) Some (MState before (c :: after) ∅))
    as [y|] eqn:Hy.
  + intros [= <-]. cbn [m_before m_matched m_after]. exists [].
    split; [rewrite app_nil_r; reflexivity|].
    split; [exact (Hhere _ _ _ Hy)|]. intros u v Huv Hv.
    destruct u; destruct v; try discriminate. contradiction.
  + intros Hm. destruct (IH (c :: before) m Hm) as (a & Hb & Ha & Hfirst).
    exists (c :: a). split; [rewrite Hb; cbn [rev]; rewrite <- app_assoc; reflexivity|].
    split; [cbn [app]; rewrite <- Ha; reflexivity|].
    intros u v Huv Hv. destruct u as [|c' u].
    * cbn [app] in Huv. subst v. cbn [rev app]. rewrite <- Ha. exact Hy.
    * cbn [app] in Huv. injection Huv as <- Huv.
      cbn [rev]. rewrite <- app_assoc. apply (Hfirst u v Huv Hv).
Qed.

Lemma exec_first re s m :
  exec re s = Some m ->
  s = m_before m ++ m_matched m ++ m_after m
  /\ forall u v, m_before m = u ++ v -> v <> [] ->
       rmatch (multiline re) (pattern re) Some
         (MState (rev u) (v ++ m_matched m ++ m_after m) ∅) = None.
Proof.
intros H. apply exec_from_first in H as (a & Hb & Ha & Hfirst). cbn [rev app] in Hb.
subst a. split; [exact Ha|]. intros u v Huv Hv.
specialize (Hfirst u v Huv Hv). rewrite app_nil_r in Hfirst. exact Hfirst.
Qed.

(** [replaceOrThrow] either throws the error that names the rule and
    the pattern -- when the pattern matches nowhere in the text -- or
    replaces one match and keeps the text before and after it as they
    are: the match is the first one, the pattern matching at no earlier
    position, and what is put in its place is the expansion of the
    template, which is the template itself when it has no dollar
    sign. *)
Theorem replaceOrThrow_first_match
    (content : jsstring) (re : RegExp.t) (replacement : jsstring) (what : string) :
  match replaceOrThrow content re replacement what with
  | Throw e =>
      e = Error (str "Pattern not found for " ++ str what ++ str ": " ++ source re)
      /\ exec re content = None
  | Return next =>
      exists m,
        exec re content = Some m
        /\ content = m_before m ++ m_matched m ++ m_after m
        /\ (forall u v, m_before m = u ++ v -> v <> [] ->
              rmatch (multiline re) (pattern re) Some
                (MState (rev u) (v ++ m_matched m ++ m_after m) ∅) = None)
        /\ next = m_before m ++ get_substitution (ngroups re) m replacement ++ m_after m
        /\ (no_dollar replacement = true -> next = m_before m ++ replacement ++ m_after m)
  end.
Proof.
unfold replaceOrThrow, test, replace.
destruct (exec re content) as [m|] eqn:E; cbn [negb].
- exists m. destruct (exec_first re content m E) as [Hc Hfirst].
  split; [reflexivity|]. split; [exact Hc|]. split; [exact Hfirst|]. split; [reflexivity|].
  intros Hd. rewrite get_substitution_plain by exact Hd. reflexivity.
- split; reflexivity.
Qed.

(** ** Decimal numerals *)

Lemma digits_fuel_acc : forall f n acc, digits_fuel f n acc = digits_fuel f n [] ++ acc.
Proof.
induction f as [|f IH]; intros n acc; [reflexivity|].
cbn [digits_fuel]. destruct (Nat.ltb n 10); [reflexivity|].
rewrite (IH _ (_ :: acc)), (IH _ [_]), <- app_assoc. reflexivity.
Qed.

Lemma digits_fuel_enough : forall f f' n acc,
  n < f -> n < f' -> digits_fuel f n acc = digits_fuel f' n acc.
Proof.
induction f as [|f IH]; intros f' n acc Hf Hf'; [lia|].
destruct f' as [|f']; [lia|].
cbn [digits_fuel]. destruct (Nat.ltb n 10) eqn:E; [reflexivity|].
apply Nat.ltb_ge in E.
assert (n / 10 < n) by (apply Nat.div_lt; lia).
apply IH; lia.
Qed.

Lemma of_nat_small n : n < 10 -> of_nat n = [digit n].
Proof. intros H. unfold of_nat. cbn [digits_fuel]. apply Nat.ltb_lt in H. rewrite H. reflexivity. Qed.

Lemma of_nat_large n : 10 <= n -> of_nat n = of_nat (n / 10) ++ [digit n].
Proof.
intros H. unfold of_nat. cbn [digits_fuel].
assert (Nat.ltb n 10 = false) as -> by (apply Nat.ltb_ge; exact H).
rewrite digits_fuel_acc.
assert (n / 10 < n) by (apply Nat.div_lt; lia).
rewrite (digits_fuel_enough n (S (n / 10))) by lia. reflexivity.
Qed.

Lemma isDigit_bounds c : isDigit c = true <-> (48 <= c <= 57)%N.
Proof.
unfold isDigit, in_range. rewrite andb_true_iff, !N.leb_le. reflexivity.
Qed.

Lemma digit_isDigit n : isDigit (digit n) = true.
Proof.
apply isDigit_bounds. unfold digit.
pose proof (Nat.mod_upper_bound n 10). lia.
Qed.

Lemma digit_value n : (digit n - 48)%N = N.of_nat (n mod 10).
Proof. unfold digit. lia. Qed.

Lemma decimal_value_app s : forall a t,
  Json.decimal_value a (s ++ t)
  = match Json.decimal_value a s with
    | Some a' => Json.decimal_value a' t
    | None => None
    end.
Proof.
induction s as [|c s IH]; intros a t; [reflexivity|].
cbn [app Json.decimal_value]. destruct (isDigit c); [apply IH|reflexivity].
Qed.

Lemma decimal_value_of_nat n : Json.decimal_value 0 (of_nat n) = Some (N.of_nat n).
Proof.
induction n as [n IH] using lt_wf_ind.
destruct (Nat.lt_ge_cases n 10) as [H|H].
- rewrite (of_nat_small n H). cbn [Json.decimal_value].
  rewrite digit_isDigit, digit_value, Nat.mod_small by exact H. f_equal; lia.
- rewrite (of_nat_large n H), decimal_value_app.
  rewrite IH by (apply Nat.div_lt; lia).
  cbn [Json.decimal_value]. rewrite digit_isDigit, digit_value. f_equal.
  pose proof (Nat.div_mod_eq n 10). rewrite Nat2N.inj_div, Nat2N.inj_mod.
  pose proof (N.div_mod (N.of_nat n) 10). change (N.of_nat 10) with 10%N. lia.
Qed.

Lemma of_nat_digits n : forallb isDigit (of_nat n) = true.
Proof.
induction n as [n IH] using lt_wf_ind.
destruct (Nat.lt_ge_cases n 10) as [H|H].
- rewrite (of_nat_small n H). cbn [forallb]. rewrite digit_isDigit. reflexivity.
- rewrite (of_nat_large n H), forallb_app, IH by (apply Nat.div_lt; lia).
  cbn [forallb]. rewrite digit_isDigit. reflexivity.
Qed.

(** The numeral of a positive number starts with a digit other than
    zero. *)
Lemma of_nat_head n :
  0 < n -> exists c t, of_nat n = c :: t /\ isDigit c = true /\ char_eqb c 48 = false.
Proof.
induction n as [n IH] using lt_wf_ind. intros Hn.
destruct (Nat.lt_ge_cases n 10) as [H|H].
- rewrite (of_nat_small n H). exists (digit n), []. split; [reflexivity|].
  split; [apply digit_isDigit|]. unfold char_eqb. apply N.eqb_neq. unfold digit.
  rewrite Nat.mod_small by exact H. lia.
- rewrite (of_nat_large n H).
  assert (0 < n / 10) as Hq by (apply Nat.div_str_pos; lia).
  destruct (IH (n / 10) ltac:(apply Nat.div_lt; lia) Hq) as (c & t & -> & Hc & Hz).
  exists c, (t ++ [digit n]). split; [reflexivity|]. split; assumption.
Qed.

Lemma of_nat_length k : forall n,
  (N.of_nat n < 10 ^ N.of_nat (S k))%N -> length (of_nat n) <= S k.
Proof.
induction k as [|k IH]; intros n Hn.
- rewrite of_nat_small by (change (10 ^ N.of_nat 1)%N with 10%N in Hn; lia). cbn. lia.
- destruct (Nat.lt_ge_cases n 10) as [H|H].
  + rewrite (of_nat_small n H). cbn. lia.
  + rewrite (of_nat_large n H), length_app. cbn [length].
    assert (length (of_nat (n / 10)) <= S k); [|lia].
    apply IH. rewrite Nat2N.inj_div.
    replace (N.of_nat (S (S k))) with (N.succ (N.of_nat (S k))) in Hn by lia.
    rewrite N.pow_succ_r' in Hn.
    apply N.Div0.div_lt_upper_bound. exact Hn.
Qed.

Lemma take_digits_app ds rest :
  forallb isDigit ds = true ->
  match rest with c :: _ => isDigit c = false | [] => True end ->
  Json.take_digits (ds ++ rest) = (ds, rest).
Proof.
intros Hds Hrest. induction ds as [|d ds IH].
- cbn [app]. destruct rest as [|c rest]; [reflexivity|]. cbn [Json.take_digits].
  rewrite Hrest. reflexivity.
- cbn [forallb] in Hds. apply andb_prop in Hds as [Hd Hds].
  cbn [app Json.take_digits]. rewrite Hd, (IH Hds). reflexivity.
Qed.

(** ** Strings: [JSON.parse] reads what [JSON.stringify] prints *)

Lemma in_range_true lo hi c : (lo <= c <= hi)%N -> in_range lo hi c = true.
Proof. intros H. unfold in_range. apply andb_true_intro. split; apply N.leb_le; lia. Qed.

Lemma in_range_false lo hi c : (c < lo \/ hi < c)%N -> in_range lo hi c = false.
Proof.
intros H. unfold in_range. apply andb_false_iff.
destruct H; [left|right]; apply N.leb_gt; assumption.
Qed.

Lemma in_range_bounds lo hi c : in_range lo hi c = true -> (lo <= c <= hi)%N.
Proof. unfold in_range. intros [H1 H2]%andb_prop. apply N.leb_le in H1, H2. lia. Qed.

Lemma hex_value_digit n : (n < 16)%N -> Json.hex_value (Json.hex_digit n) = Some n.
Proof.
intros H. unfold Json.hex_value, Json.hex_digit. destruct (N.ltb n 10) eqn:E.
- apply N.ltb_lt in E. rewrite in_range_true by lia. f_equal. lia.
- apply N.ltb_ge in E. rewrite in_range_false by lia. rewrite in_range_true by lia.
  f_equal. lia.
Qed.

Lemma hex4_value c :
  (c < 65536)%N ->
  (4096 * (c / 4096 mod 16) + 256 * (c / 256 mod 16) + 16 * (c / 16 mod 16) + c mod 16 = c)%N.
Proof.
intros H.
replace (c / 256)%N with (c / 16 / 16)%N by (rewrite N.Div0.div_div; reflexivity).
replace (c / 4096)%N with (c / 16 / 16 / 16)%N by (rewrite !N.Div0.div_div; reflexivity).
assert (c / 16 / 16 / 16 < 16)%N as Htop.
{ repeat apply N.Div0.div_lt_upper_bound. exact H. }
rewrite (N.mod_small _ _ Htop).
pose proof (N.div_mod c 16 ltac:(discriminate)) as H1.
pose proof (N.div_mod (c / 16) 16 ltac:(discriminate)) as H2.
pose proof (N.div_mod (c / 16 / 16) 16 ltac:(discriminate)) as H3.
lia.
Qed.

Lemma parse_hex4_escape (c : char) (t : jsstring) :
  (c < 65536)%N ->
  Json.parse_hex4
    (Json.hex_digit (c / 4096 mod 16) :: Json.hex_digit (c / 256 mod 16)
       :: Json.hex_digit (c / 16 mod 16) :: Json.hex_digit (c mod 16) :: t)
  = Some (c, t).
Proof.
intros H. unfold Json.parse_hex4.
rewrite !hex_value_digit by (apply N.mod_lt; discriminate).
rewrite (hex4_value c H). reflexivity.
Qed.

Lemma parse_string_raw f (acc : jsstring) (c : char) t :
  char_eqb c dq = false -> char_eqb c (ch "\") = false -> N.ltb c 32 = false ->
  Json.parse_string (S f) acc (c :: t) = Json.parse_string f (c :: acc) t.
Proof. intros H1 H2 H3. cbn [Json.parse_string]. rewrite H1, H2, H3. reflexivity. Qed.

Lemma parse_string_unicode f (acc : jsstring) (c : char) t :
  (c < 65536)%N ->
  Json.parse_string (S f) acc (Json.unicode_escape c ++ t) = Json.parse_string f (c :: acc) t.
Proof.
intros H. unfold Json.unicode_escape. cbn [app Json.parse_string].
change (char_eqb (ch "\") dq) with false. change (char_eqb (ch "\") (ch "\")) with true.
change (char_eqb (ch "u") dq) with false. change (char_eqb (ch "u") (ch "\")) with false.
change (char_eqb (ch "u") (ch "/")) with false. change (char_eqb (ch "u") (ch "b")) with false.
change (char_eqb (ch "u") (ch "f")) with false. change (char_eqb (ch "u") (ch "n")) with false.
change (char_eqb (ch "u") (ch "r")) with false. change (char_eqb (ch "u") (ch "t")) with false.
change (char_eqb (ch "u") (ch "u")) with true. cbv iota.
rewrite (parse_hex4_escape c t H). reflexivity.
Qed.

Lemma surrogate_raw c :
  in_range 55296 57343 c = true ->
  char_eqb c dq = false /\ char_eqb c (ch "\") = false /\ N.ltb c 32 = false
  /\ (c < 65536)%N.
Proof.
intros H%in_range_bounds. unfold char_eqb, dq, ch. cbn [N_of_ascii N_of_digits N.add N.mul].
repeat split; try (apply N.eqb_neq; lia); try (apply N.ltb_ge; lia); lia.
Qed.

Lemma lead_surrogate_range c : Json.isLeadSurrogate c = true -> in_range 55296 57343 c = true.
Proof. unfold Json.isLeadSurrogate. intros H%in_range_bounds. apply in_range_true. lia. Qed.

Lemma trail_surrogate_range c : Json.isTrailSurrogate c = true -> in_range 55296 57343 c = true.
Proof. unfold Json.isTrailSurrogate. intros H%in_range_bounds. apply in_range_true. lia. Qed.

(** One character that is not a surrogate: the parser reads its escape
    back. *)
Lemma parse_string_escape_char f (acc : jsstring) (c : char) t :
  Json.parse_string (S f) acc (Json.escape_char c ++ t) = Json.parse_string f (c :: acc) t.
Proof.
unfold Json.escape_char.
destruct (char_eqb c 8) eqn:E8; [apply char_eqb_eq in E8; subst c; reflexivity|].
destruct (char_eqb c 9) eqn:E9; [apply char_eqb_eq in E9; subst c; reflexivity|].
destruct (char_eqb c 10) eqn:E10; [apply char_eqb_eq in E10; subst c; reflexivity|].
destruct (char_eqb c 12) eqn:E12; [apply char_eqb_eq in E12; subst c; reflexivity|].
destruct (char_eqb c 13) eqn:E13; [apply char_eqb_eq in E13; subst c; reflexivity|].
destruct (char_eqb c dq) eqn:Edq; [apply char_eqb_eq in Edq; subst c; reflexivity|].
destruct (char_eqb c (ch "\")) eqn:Ebs; [apply char_eqb_eq in Ebs; subst c; reflexivity|].
destruct (N.ltb c 32) eqn:E32.
- apply parse_string_unicode. apply N.ltb_lt in E32. lia.
- apply parse_string_raw; assumption.
Qed.

Lemma escape_char_length c : 1 <= length (Json.escape_char c).
Proof.
unfold Json.escape_char.
repeat match goal with |- context [if ?b then _ else _] => destruct b end; cbn; lia.
Qed.

Lemma quote_body_cons c s :
  Json.quote_body (c :: s)
  = if Json.isLeadSurrogate c then
      match s with
      | d :: s'' =>
          if Json.isTrailSurrogate d then c :: d :: Json.quote_body s''
          else Json.unicode_escape c ++ Json.quote_body s
      | [] => Json.unicode_escape c
      end
    else if Json.isTrailSurrogate c then Json.unicode_escape c ++ Json.quote_body s
    else Json.escape_char c ++ Json.quote_body s.
Proof. reflexivity. Qed.

Lemma parse_string_quote_body n : forall s acc rest fuel,
  length s <= n -> length (Json.quote_body s) < fuel ->
  Json.parse_string fuel acc (Json.quote_body s ++ dq :: rest) = Return (rev acc ++ s, rest).
Proof.
induction n as [|n IH]; intros s acc rest fuel Hn Hfuel.
- destruct s; [|cbn in Hn; lia]. destruct fuel; [cbn in Hfuel; lia|].
  cbn [Json.quote_body app Json.parse_string]. rewrite char_eqb_refl, app_nil_r. reflexivity.
- destruct s as [|c s]; [apply (IH [] acc rest fuel); [cbn; lia|exact Hfuel]|].
  cbn [length] in Hn. destruct fuel as [|fuel]; [lia|].
  rewrite quote_body_cons in *.
  destruct (Json.isLeadSurrogate c) eqn:El.
  + destruct (surrogate_raw c (lead_surrogate_range c El)) as (R1 & R2 & R3 & R4).
    destruct s as [|d s].
    * rewrite parse_string_unicode by exact R4.
      pose proof (IH [] (c :: acc) rest fuel ltac:(cbn; lia)) as H0.
      cbn [Json.quote_body app length rev] in H0.
      rewrite app_nil_r in H0. apply H0.
      cbn [Json.unicode_escape length] in Hfuel. lia.
    * destruct (Json.isTrailSurrogate d) eqn:Et.
      -- destruct (surrogate_raw d (trail_surrogate_range d Et)) as (T1 & T2 & T3 & T4).
         cbn [app length] in *. rewrite parse_string_raw by assumption.
         destruct fuel as [|fuel]; [lia|].
         rewrite parse_string_raw by assumption.
         rewrite (IH s (d :: c :: acc) rest fuel) by lia.
         cbn [rev]. rewrite <- !app_assoc. reflexivity.
      -- rewrite <- app_assoc, parse_string_unicode by exact R4.
         rewrite length_app in Hfuel. cbn [Json.unicode_escape length] in Hfuel.
         rewrite (IH (d :: s) (c :: acc) rest fuel) by (cbn [length] in *; lia).
         cbn [rev]. rewrite <- app_assoc. reflexivity.
  + destruct (Json.isTrailSurrogate c) eqn:Et.
    * destruct (surrogate_raw c (trail_surrogate_range c Et)) as (R1 & R2 & R3 & R4).
      rewrite <- app_assoc, parse_string_unicode by exact R4.
      rewrite length_app in Hfuel. cbn [Json.unicode_escape length] in Hfuel.
      rewrite (IH s (c :: acc) rest fuel) by lia.
      cbn [rev]. rewrite <- app_assoc. reflexivity.
    * rewrite <- app_assoc, parse_string_escape_char.
      rewrite length_app in Hfuel. pose proof (escape_char_length c).
      rewrite (IH s (c :: acc) rest fuel) by lia.
      cbn [rev]. rewrite <- app_assoc. reflexivity.
Qed.

(** [JSON.parse] reads a string that [JSON.stringify] printed back as
    it was, whatever its characters. *)
Lemma parse_string_quote s rest fuel :
  length (Json.quote_body s) < fuel ->
  Json.parse_string fuel [] (Json.quote_body s ++ dq :: rest) = Return (s, rest).
Proof. intros H. apply (parse_string_quote_body (length s) s [] rest fuel); [lia|exact H]. Qed.

(** ** The members of an object *)

Section Members.

Implicit Types (k : jsstring) (v : Json.value) (ms : list (jsstring * Json.value)).

Lemma eqb_false k k' : k <> k' -> JsString.eqb k k' = false.
Proof.
intros H. destruct (JsString.eqb k k') eqn:E; [|reflexivity].
apply jsstring_eqb_eq in E. contradiction.
Qed.

Lemma eqb_sym k k' : JsString.eqb k k' = JsString.eqb k' k.
Proof.
destruct (JsString.eqb k' k) eqn:E.
- apply jsstring_eqb_eq in E. subst. apply jsstring_eqb_refl.
- apply eqb_false. intros ->. rewrite jsstring_eqb_refl in E. discriminate.
Qed.

Lemma has_key_member k ms : Json.has_key k ms = true <-> member k ms <> None.
Proof.
induction ms as [|[k' v'] ms IH]; cbn [Json.has_key member].
- split; [discriminate|congruence].
- destruct (JsString.eqb k k'); cbn [orb]; [split; [discriminate|reflexivity]|exact IH].
Qed.

Lemma has_key_false k ms : Json.has_key k ms = false <-> member k ms = None.
Proof.
pose proof (has_key_member k ms) as H.
destruct (Json.has_key k ms), (member k ms); split; try reflexivity; try discriminate.
- intros _. exfalso. apply (proj1 H eq_refl). reflexivity.
- intros _. destruct H as [_ H]. discriminate H. discriminate.
Qed.

Lemma member_update_same k v ms :
  Json.has_key k ms = true -> member k (Json.update_key k v ms) = Some v.
Proof.
induction ms as [|[k' v'] ms IH]; cbn [Json.has_key Json.update_key]; [discriminate|].
destruct (JsString.eqb k k') eqn:E; cbn [orb member].
- intros _. rewrite E. reflexivity.
- intros H. rewrite E. apply IH, H.
Qed.

Lemma member_update_other k k' v ms :
  k' <> k -> member k' (Json.update_key k v ms) = member k' ms.
Proof.
intros Hne. induction ms as [|[k0 v0] ms IH]; [reflexivity|].
cbn [Json.update_key]. destruct (JsString.eqb k k0) eqn:E; cbn [member].
- apply jsstring_eqb_eq in E. subst k0. rewrite (eqb_false k' k Hne). reflexivity.
- rewrite IH. reflexivity.
Qed.

Lemma keys_update k v ms : map fst (Json.update_key k v ms) = map fst ms.
Proof.
induction ms as [|[k0 v0] ms IH]; [reflexivity|].
cbn [Json.update_key]. destruct (JsString.eqb k k0); cbn [map fst]; [reflexivity|].
rewrite IH. reflexivity.
Qed.

Lemma update_same k v ms : member k ms = Some v -> Json.update_key k v ms = ms.
Proof.
induction ms as [|[k0 v0] ms IH]; [reflexivity|].
cbn [member Json.update_key]. destruct (JsString.eqb k k0).
- intros [= ->]. reflexivity.
- intros H. rewrite (IH H). reflexivity.
Qed.

Lemma member_app k ms ms' :
  member k (ms ++ ms') = match member k ms with Some v => Some v | None => member k ms' end.
Proof.
induction ms as [|[k0 v0] ms IH]; [reflexivity|].
cbn [app member]. destruct (JsString.eqb k k0); [reflexivity|exact IH].
Qed.

Lemma member_insert_same n k v ms :
  Json.has_key k ms = false -> member k (Json.insert_index n k v ms) = Some v.
Proof.
induction ms as [|[k0 v0] ms IH]; cbn [Json.has_key Json.insert_index].
- intros _. cbn [member]. rewrite jsstring_eqb_refl. reflexivity.
- intros [E H]%orb_false_elim.
  destruct (Json.array_index k0) as [n0|].
  + destruct (N.ltb n0 n); cbn [member].
    * rewrite E. apply IH, H.
    * rewrite jsstring_eqb_refl. reflexivity.
  + cbn [member]. rewrite jsstring_eqb_refl. reflexivity.
Qed.

Lemma member_insert_other n k k' v ms :
  k' <> k -> member k' (Json.insert_index n k v ms) = member k' ms.
Proof.
intros Hne. induction ms as [|[k0 v0] ms IH]; cbn [Json.insert_index].
- cbn [member]. rewrite (eqb_false k' k Hne). reflexivity.
- destruct (Json.array_index k0) as [n0|].
  + destruct (N.ltb n0 n); cbn [member].
    * rewrite IH. reflexivity.
    * rewrite (eqb_false k' k Hne). reflexivity.
  + cbn [member]. rewrite (eqb_false k' k Hne). reflexivity.
Qed.

(** After [o.k = v], the member [k] of [o] is [v]. *)
Lemma member_set_same k v ms : member k (Json.set_member k v ms) = Some v.
Proof.
unfold Json.set_member. destruct (Json.has_key k ms) eqn:E.
- apply member_update_same, E.
- destruct (Json.array_index k) as [n|].
  + apply member_insert_same, E.
  + rewrite member_app. apply has_key_false in E. rewrite E. cbn [member].
    rewrite jsstring_eqb_refl. reflexivity.
Qed.

(** The other members are as they were. *)
Lemma member_set_other k k' v ms :
  k' <> k -> member k' (Json.set_member k v ms) = member k' ms.
Proof.
intros Hne. unfold Json.set_member. destruct (Json.has_key k ms).
- apply member_update_other, Hne.
- destruct (Json.array_index k) as [n|].
  + apply member_insert_other, Hne.
  + rewrite member_app. cbn [member]. rewrite (eqb_false k' k Hne).
    destruct (member k' ms); reflexivity.
Qed.

Lemma set_member_twice k v ms :
  Json.set_member k v (Json.set_member k v ms) = Json.set_member k v ms.
Proof.
pose proof (member_set_same k v ms) as H.
unfold Json.set_member at 1.
assert (Json.has_key k (Json.set_member k v ms) = true) as ->.
{ apply has_key_member. rewrite H. discriminate. }
apply update_same, H.
Qed.

(** The keys after [o.k = v], for a key that is not an array index:
    the keys of [o] in their order, and [k] after them when it is
    new. *)
Lemma keys_set_member k v ms :
  Json.array_index k = None ->
  map fst (Json.set_member k v ms)
  = map fst ms ++ (if Json.has_key k ms then [] else [k]).
Proof.
intros Hk. unfold Json.set_member. destruct (Json.has_key k ms).
- rewrite keys_update, app_nil_r. reflexivity.
- rewrite Hk, map_app. reflexivity.
Qed.

End Members.

(** ** Array indices *)

Lemma decimal_value_bounds s : forall a n,
  Json.decimal_value a s = Some n ->
  (a * 10 ^ N.of_nat (length s) <= n < (a + 1) * 10 ^ N.of_nat (length s))%N.
Proof.
induction s as [|c s IH]; intros a n.
- cbn [Json.decimal_value length]. intros [= <-]. change (10 ^ N.of_nat 0)%N with 1%N. lia.
- cbn [Json.decimal_value]. destruct (isDigit c) eqn:Hc; [|discriminate].
  apply isDigit_bounds in Hc. intros H. apply IH in H.
  cbn [length]. rewrite Nat2N.inj_succ, N.pow_succ_r'.
  set (p := (10 ^ N.of_nat (length s))%N) in *. nia.
Qed.

Lemma decimal_value_inj s : forall s' a a' n,
  length s = length s' ->
  Json.decimal_value a s = Some n -> Json.decimal_value a' s' = Some n ->
  a = a' /\ s = s'.
Proof.
induction s as [|c s IH]; intros [|c' s'] a a' n Hlen; try discriminate Hlen.
- cbn [Json.decimal_value]. intros [= <-] [= <-]. split; reflexivity.
- cbn [Json.decimal_value]. injection Hlen as Hlen.
  destruct (isDigit c) eqn:Hc; [|discriminate].
  destruct (isDigit c') eqn:Hc'; [|discriminate].
  apply isDigit_bounds in Hc, Hc'. intros H H'.
  destruct (IH s' _ _ n Hlen H H') as [Ha ->].
  assert (a = a') by lia. assert (c = c') by lia. subst. split; reflexivity.
Qed.

(** Two keys with the same array index are the same key. *)
Lemma array_index_inj k k' n :
  Json.array_index k = Some n -> Json.array_index k' = Some n -> k = k'.
Proof.
assert (forall c t m, Json.array_index (c :: t) = Some m ->
          Json.decimal_value 0 (c :: t) = Some m
          /\ (char_eqb c 48 = true -> t = [])) as Hshape.
{ intros c t m. unfold Json.array_index.
  destruct (char_eqb c 48 && negb (Nat.eqb (length t) 0)) eqn:E; [discriminate|].
  destruct (Nat.ltb 10 (length (c :: t))); [discriminate|].
  destruct (Json.decimal_value 0 (c :: t)) as [m'|]; [|discriminate].
  destruct (N.ltb m' 4294967295); [|discriminate]. intros [= ->].
  split; [reflexivity|]. intros Hz. rewrite Hz in E. cbn [andb] in E.
  apply negb_false_iff, Nat.eqb_eq in E. destruct t; [reflexivity|discriminate]. }
assert (forall c t m, Json.decimal_value 0 (c :: t) = Some m ->
          (char_eqb c 48 = true -> t = []) ->
          (m = 0 /\ t = [] /\ c = 48)%N
          \/ (10 ^ N.of_nat (length t) <= m < 10 * 10 ^ N.of_nat (length t))%N) as Hsize.
{ intros c t m Hv Hz. cbn [Json.decimal_value] in Hv.
  destruct (isDigit c) eqn:Hc; [|discriminate]. apply isDigit_bounds in Hc.
  destruct (char_eqb c 48) eqn:E.
  - left. rewrite (Hz eq_refl) in *. apply char_eqb_eq in E. subst c.
    cbn [Json.decimal_value] in Hv. injection Hv as <-. repeat split; reflexivity.
  - right. apply decimal_value_bounds in Hv.
    assert (c <> 48%N) by (intros ->; rewrite char_eqb_refl in E; discriminate).
    set (p := (10 ^ N.of_nat (length t))%N) in *. nia. }
destruct k as [|c t]; [discriminate|]. destruct k' as [|c' t']; [discriminate|].
intros [Hv Hz]%Hshape [Hv' Hz']%Hshape.
pose proof (Hsize c t n Hv Hz) as Hs. pose proof (Hsize c' t' n Hv' Hz') as Hs'.
assert (length t = length t') as Hlen.
{ destruct Hs as [(-> & -> & ->)|Hs], Hs' as [(Hn & -> & ->)|Hs']; try reflexivity.
  - pose proof (N.pow_nonzero 10 (N.of_nat (length t')) ltac:(discriminate)). lia.
  - pose proof (N.pow_nonzero 10 (N.of_nat (length t)) ltac:(discriminate)). lia.
  - destruct (Nat.lt_trichotomy (length t) (length t')) as [H|[H|H]]; [|exact H|].
    + exfalso.
      assert (10 * 10 ^ N.of_nat (length t) <= 10 ^ N.of_nat (length t'))%N; [|lia].
      rewrite <- N.pow_succ_r'. apply N.pow_le_mono_r; [discriminate|lia].
    + exfalso.
      assert (10 * 10 ^ N.of_nat (length t') <= 10 ^ N.of_nat (length t))%N; [|lia].
      rewrite <- N.pow_succ_r'. apply N.pow_le_mono_r; [discriminate|lia]. }
destruct (decimal_value_inj (c :: t) (c' :: t') 0 0 n) as [_ H]; try assumption.
cbn [length]. rewrite Hlen. reflexivity.
Qed.

(** ** The order of the members *)

Section Canonical.

Implicit Types (k : jsstring) (v : Json.value) (ms acc : list (jsstring * Json.value)).

Lemma key_before_neq k k' : key_before k k' = true -> k <> k'.
Proof.
unfold key_before. intros H ->.
destruct (Json.array_index k') as [n|].
- apply N.ltb_lt in H. lia.
- rewrite jsstring_eqb_refl in H. discriminate.
Qed.

Lemma canonical_keys ms ms' : map fst ms = map fst ms' -> canonical ms = canonical ms'.
Proof.
revert ms'. induction ms as [|[k v] ms IH]; intros [|[k' v'] ms'] H; try discriminate H.
- reflexivity.
- cbn [map fst] in H. injection H as -> H. cbn [canonical]. rewrite (IH ms' H). f_equal.
  clear IH. revert ms' H. induction ms as [|[k1 v1] ms IH]; intros [|[k1' v1'] ms'] H;
    try discriminate H; [reflexivity|].
  cbn [map fst] in H. injection H as -> H. cbn [forallb fst]. rewrite (IH ms' H). reflexivity.
Qed.

Lemma canonical_app acc ms :
  canonical (acc ++ ms) = true <->
  canonical acc = true /\ canonical ms = true
  /\ forall kv kv', In kv acc -> In kv' ms -> key_before (fst kv) (fst kv') = true.
Proof.
induction acc as [|[k v] acc IH]; cbn [app canonical].
- split; [intros H; repeat split; [exact H|contradiction]|intros (_ & H & _); exact H].
- rewrite andb_true_iff, forallb_app, andb_true_iff, IH, !forallb_forall. split.
  + intros ((H1 & H2) & H3 & H4 & H5). split; [apply andb_true_intro; split; [|exact H3]|].
    * apply forallb_forall. exact H1.
    * split; [exact H4|]. intros kv kv' [<-|Hin] Hin'; [apply H2, Hin'|apply H5; assumption].
  + intros (H1 & H2 & H3). apply andb_prop in H1 as [H1 H1']. rewrite forallb_forall in H1.
    repeat split; try assumption.
    * intros kv' Hin'. apply (H3 (k, v) kv'); [left; reflexivity|exact Hin'].
    * intros kv kv' Hin Hin'. apply H3; [right; exact Hin|exact Hin'].
Qed.

Lemma has_key_before k acc :
  (forall kv, In kv acc -> key_before (fst kv) k = true) -> Json.has_key k acc = false.
Proof.
induction acc as [|[k0 v0] acc IH]; intros H; [reflexivity|].
cbn [Json.has_key]. rewrite IH by (intros kv Hin; apply H; right; exact Hin).
rewrite eqb_false; [reflexivity|].
intros ->. apply (key_before_neq k0 k0 (H (k0, v0) ltac:(left; reflexivity))). reflexivity.
Qed.

Lemma insert_index_last n k v acc :
  Json.array_index k = Some n ->
  (forall kv, In kv acc -> key_before (fst kv) k = true) ->
  Json.insert_index n k v acc = acc ++ [(k, v)].
Proof.
intros Hk. induction acc as [|[k0 v0] acc IH]; intros H; [reflexivity|].
cbn [Json.insert_index app].
pose proof (H (k0, v0) ltac:(left; reflexivity)) as H0. unfold key_before in H0.
cbn [fst] in H0. rewrite Hk in H0.
destruct (Json.array_index k0) as [n0|]; [|discriminate].
rewrite H0, IH by (intros kv Hin; apply H; right; exact Hin). reflexivity.
Qed.

(** A member that comes last in the order of enumeration is put at the
    end. *)
Lemma set_member_last k v acc :
  canonical (acc ++ [(k, v)]) = true -> Json.set_member k v acc = acc ++ [(k, v)].
Proof.
intros (_ & _ & H)%canonical_app.
assert (forall kv, In kv acc -> key_before (fst kv) k = true) as Hb.
{ intros kv Hin. apply (H kv (k, v) Hin). left. reflexivity. }
unfold Json.set_member. rewrite (has_key_before k acc Hb).
destruct (Json.array_index k) as [n|] eqn:Hk; [|reflexivity].
apply insert_index_last; assumption.
Qed.

Lemma forallb_insert_index (P : jsstring * Json.value -> bool) n k v ms :
  forallb P (Json.insert_index n k v ms) = P (k, v) && forallb P ms.
Proof.
induction ms as [|[k0 v0] ms IH]; cbn [Json.insert_index].
- reflexivity.
- destruct (Json.array_index k0) as [n0|]; [|reflexivity].
  destruct (N.ltb n0 n); [|reflexivity].
  cbn [forallb]. rewrite IH. destruct (P (k0, v0)), (P (k, v)); reflexivity.
Qed.

Lemma key_before_trans_index k k0 k1 n n0 :
  Json.array_index k = Some n -> Json.array_index k0 = Some n0 -> (n < n0)%N ->
  key_before k0 k1 = true -> key_before k k1 = true.
Proof.
intros Hk Hk0 Hlt. unfold key_before. rewrite Hk, Hk0.
destruct (Json.array_index k1) as [n1|]; [|reflexivity].
intros H%N.ltb_lt. apply N.ltb_lt. lia.
Qed.

Lemma canonical_insert_index n k v acc :
  Json.array_index k = Some n -> Json.has_key k acc = false ->
  canonical acc = true -> canonical (Json.insert_index n k v acc) = true.
Proof.
intros Hk. induction acc as [|[k0 v0] acc IH]; [reflexivity|].
cbn [Json.has_key canonical Json.insert_index].
intros [Hne Hno]%orb_false_elim [Hb Hc]%andb_prop.
assert (k <> k0) as Hneq by (intros ->; rewrite jsstring_eqb_refl in Hne; discriminate).
destruct (Json.array_index k0) as [n0|] eqn:Hk0.
- destruct (N.ltb n0 n) eqn:Hlt.
  + cbn [canonical]. rewrite forallb_insert_index, Hb, (IH Hno Hc). cbn [fst].
    unfold key_before. rewrite Hk0, Hk, Hlt. reflexivity.
  + apply N.ltb_ge in Hlt.
    assert (n <> n0) as Hn.
    { intros ->. apply Hneq. apply (array_index_inj k k0 n0); assumption. }
    cbn [canonical forallb fst]. rewrite Hb, Hc, !andb_true_r.
    apply andb_true_intro. split.
    * unfold key_before. rewrite Hk, Hk0. apply N.ltb_lt. lia.
    * rewrite forallb_forall in *. intros kv Hin.
      apply (key_before_trans_index k k0 (fst kv) n n0); try assumption; [lia|].
      apply Hb, Hin.
- cbn [canonical forallb fst]. rewrite Hb, Hc, !andb_true_r.
  apply andb_true_intro. split.
  + unfold key_before. rewrite Hk, Hk0. reflexivity.
  + rewrite forallb_forall in *. intros kv Hin. specialize (Hb kv Hin).
    unfold key_before in *. rewrite Hk. rewrite Hk0 in Hb.
    destruct (Json.array_index (fst kv)); [discriminate|reflexivity].
Qed.

(** An assignment keeps the members in the order of enumeration. *)
Lemma canonical_set_member k v acc :
  canonical acc = true -> canonical (Json.set_member k v acc) = true.
Proof.
intros Hc. unfold Json.set_member. destruct (Json.has_key k acc) eqn:Hk.
- rewrite (canonical_keys _ acc); [exact Hc|apply keys_update].
- destruct (Json.array_index k) as [n|] eqn:Hi.
  + apply canonical_insert_index; assumption.
  + apply canonical_app. split; [exact Hc|]. split; [reflexivity|].
    intros [k0 v0] kv' Hin [<-|[]]. cbn [fst]. unfold key_before. rewrite Hi.
    destruct (Json.array_index k0); [reflexivity|].
    apply negb_true_iff, eqb_false. intros ->.
    apply has_key_false in Hk.
    assert (member k acc <> None); [|contradiction].
    clear -Hin. induction acc as [|[k1 v1] acc IH]; [contradiction|].
    cbn [member]. destruct (JsString.eqb k k1) eqn:E; [discriminate|].
    destruct Hin as [[= -> ->]|Hin]; [rewrite jsstring_eqb_refl in E; discriminate|].
    apply IH, Hin.
Qed.

Lemma forallb_update_key (P : Json.value -> bool) k v ms :
  P v = true -> forallb (fun kv => P (snd kv)) ms = true ->
  forallb (fun kv => P (snd kv)) (Json.update_key k v ms) = true.
Proof.
intros Hv. induction ms as [|[k0 v0] ms IH]; [reflexivity|].
cbn [forallb Json.update_key snd]. intros [H0 H]%andb_prop.
destruct (JsString.eqb k k0); cbn [forallb snd].
- rewrite Hv, H. reflexivity.
- rewrite H0, (IH H). reflexivity.
Qed.

Lemma forallb_set_member (P : Json.value -> bool) k v ms :
  P v = true -> forallb (fun kv => P (snd kv)) ms = true ->
  forallb (fun kv => P (snd kv)) (Json.set_member k v ms) = true.
Proof.
intros Hv H. unfold Json.set_member. destruct (Json.has_key k ms).
- apply forallb_update_key; assumption.
- destruct (Json.array_index k) as [n|].
  + rewrite forallb_insert_index. cbn [snd]. rewrite Hv, H. reflexivity.
  + rewrite forallb_app, H. cbn [forallb snd]. rewrite Hv. reflexivity.
Qed.

End Canonical.

(** ** [JSON.parse] on the text of a value *)

Lemma skip_ws_space ws t : json_space ws = true -> Json.skip_ws (ws ++ t) = Json.skip_ws t.
Proof.
induction ws as [|c ws IH]; [reflexivity|]. cbn [json_space forallb app Json.skip_ws].
intros [-> H]%andb_prop. apply IH, H.
Qed.

Lemma skip_ws_start (c : char) t : Json.isJsonSpace c = false -> Json.skip_ws (c :: t) = c :: t.
Proof. intros H. cbn [Json.skip_ws]. rewrite H. reflexivity. Qed.

Lemma parse_value_skip f s : Json.parse_value f s = Json.parse_value f (Json.skip_ws s).
Proof.
assert (Json.skip_ws (Json.skip_ws s) = Json.skip_ws s) as H.
{ induction s as [|c s IH]; [reflexivity|]. cbn [Json.skip_ws].
  destruct (Json.isJsonSpace c) eqn:E; [exact IH|]. cbn [Json.skip_ws]. rewrite E. reflexivity. }
destruct f as [|f]; [reflexivity|]. cbn [Json.parse_value]. rewrite H. reflexivity.
Qed.

Lemma parse_value_space f ws s :
  json_space ws = true -> Json.parse_value f (ws ++ s) = Json.parse_value f s.
Proof.
intros H. rewrite (parse_value_skip f (ws ++ s)), (parse_value_skip f s), (skip_ws_space ws s H).
reflexivity.
Qed.

Lemma parse_value_array f s :
  Json.parse_value (S f) (ch "[" :: s)
  = match Json.skip_ws s with
    | d :: s'' =>
        if char_eqb d (ch "]") then Return (Json.JArr [], s'')
        else match Json.parse_elements f [] s with
             | Return (l, r) => Return (Json.JArr l, r)
             | Throw e => Throw e
             end
    | [] => Throw SyntaxError
    end.
Proof. reflexivity. Qed.

Lemma parse_value_object f s :
  Json.parse_value (S f) (ch "{" :: s)
  = match Json.skip_ws s with
    | d :: s'' =>
        if char_eqb d (ch "}") then Return (Json.JObj [], s'')
        else match Json.parse_members f [] s with
             | Return (ms, r) => Return (Json.JObj ms, r)
             | Throw e => Throw e
             end
    | [] => Throw SyntaxError
    end.
Proof. reflexivity. Qed.

Lemma parse_value_string f s :
  Json.parse_value (S f) (dq :: s)
  = match Json.parse_string (length s) [] s with
    | Return (v, r) => Return (Json.JStr v, r)
    | Throw e => Throw e
    end.
Proof. reflexivity. Qed.

Lemma parse_value_minus f s : Json.parse_value (S f) (ch "-" :: s) = Json.parse_number true s.
Proof. reflexivity. Qed.

Lemma parse_value_digit f (c : char) s :
  isDigit c = true -> Json.parse_value (S f) (c :: s) = Json.parse_number false (c :: s).
Proof.
intros H%isDigit_bounds. cbn [Json.parse_value].
assert (Json.isJsonSpace c = false) as Hs.
{ unfold Json.isJsonSpace, char_eqb. repeat (apply orb_false_intro); apply N.eqb_neq; lia. }
rewrite (skip_ws_start c s Hs).
unfold char_eqb, dq, ch. cbn [N_of_ascii N_of_digits N.add N.mul].
repeat match goal with
| |- context [N.eqb c ?n] =>
    let E := fresh in assert (N.eqb c n = false) as E by (apply N.eqb_neq; lia); rewrite E; clear E
end.
reflexivity.
Qed.

Lemma parse_elements_step f acc s :
  Json.parse_elements (S f) acc s
  = match Json.parse_value f s with
    | Throw e => Throw e
    | Return (v, r) =>
        match Json.skip_ws r with
        | c :: r' =>
            if char_eqb c (ch ",") then Json.parse_elements f (v :: acc) r'
            else if char_eqb c (ch "]") then Return (rev (v :: acc), r')
            else Throw SyntaxError
        | [] => Throw SyntaxError
        end
    end.
Proof. reflexivity. Qed.

Lemma parse_members_step f acc s :
  Json.parse_members (S f) acc (dq :: s)
  = match Json.parse_string (length s) [] s with
    | Throw e => Throw e
    | Return (k, r) =>
        match Json.skip_ws r with
        | d :: r' =>
            if negb (char_eqb d (ch ":")) then Throw SyntaxError
            else
              match Json.parse_value f r' with
              | Throw e => Throw e
              | Return (v, r2) =>
                  match Json.skip_ws r2 with
                  | e :: r3 =>
                      if char_eqb e (ch ",")
                      then Json.parse_members f (Json.set_member k v acc) r3
                      else if char_eqb e (ch "}")
                      then Return (Json.set_member k v acc, r3)
                      else Throw SyntaxError
                  | [] => Throw SyntaxError
                  end
              end
        | [] => Throw SyntaxError
        end
    end.
Proof. reflexivity. Qed.

Lemma parse_members_skip f acc s :
  Json.parse_members f acc s = Json.parse_members f acc (Json.skip_ws s).
Proof.
assert (Json.skip_ws (Json.skip_ws s) = Json.skip_ws s) as H.
{ induction s as [|c s IH]; [reflexivity|]. cbn [Json.skip_ws].
  destruct (Json.isJsonSpace c) eqn:E; [exact IH|]. cbn [Json.skip_ws]. rewrite E. reflexivity. }
destruct f as [|f]; [reflexivity|]. cbn [Json.parse_members]. rewrite H. reflexivity.
Qed.

(** *** Numbers *)

Lemma value_end_number rest :
  value_end rest = true ->
  match rest with c :: _ => isDigit c = false | [] => True end
  /\ Json.starts_fraction_or_exponent rest = false.
Proof.
destruct rest as [|c rest]; [split; [exact I|reflexivity]|].
cbn [value_end Json.starts_fraction_or_exponent]. intros H.
assert (c = 44 \/ c = 9 \/ c = 10 \/ c = 13 \/ c = 32)%N as Hc.
{ unfold Json.isJsonSpace, char_eqb in H. change (ch ",") with 44%N in H.
  rewrite !orb_true_iff, !N.eqb_eq in H. lia. }
split.
- unfold isDigit. apply in_range_false. lia.
- unfold char_eqb, ch. cbn [N_of_ascii N_of_digits N.add N.mul].
  repeat (apply orb_false_intro); apply N.eqb_neq; lia.
Qed.

Lemma parse_number_numeral negative n rest :
  0 < n -> (N.of_nat n < 10 ^ N.of_nat 15)%N -> value_end rest = true ->
  Json.parse_number negative (of_nat n ++ rest)
  = Return (Json.JNum (if negative then (- Z.of_N (N.of_nat n))%Z else Z.of_N (N.of_nat n)),
            rest).
Proof.
intros Hn Hbound [Hd Hf]%value_end_number.
destruct (of_nat_head n Hn) as (c & t & E & Hc & Hz).
pose proof (take_digits_app (of_nat n) rest (of_nat_digits n) Hd) as Htake.
pose proof (of_nat_length 14 n Hbound) as Hlen.
pose proof (decimal_value_of_nat n) as Hval.
rewrite E in *. cbn [app] in *. unfold Json.parse_number.
rewrite Hc, Hz. cbn [negb]. rewrite Htake, Hf.
assert (Nat.ltb 15 (length (c :: t)) = false) as -> by (apply Nat.ltb_ge; exact Hlen).
rewrite Hval. reflexivity.
Qed.

Lemma parse_value_number f z rest :
  (Z.abs z <? 10 ^ 15)%Z = true -> value_end rest = true ->
  Json.parse_value (S f) (Json.number_to_string z ++ rest) = Return (Json.JNum z, rest).
Proof.
intros Hz%Z.ltb_lt Hrest. change (10 ^ 15)%Z with 1000000000000000%Z in Hz.
destruct z as [|p|p]; unfold Json.number_to_string.
- destruct (value_end_number rest Hrest) as [_ Hf].
  change (str "0" ++ rest) with (ch "0" :: rest).
  rewrite parse_value_digit by reflexivity. unfold Json.parse_number.
  change (isDigit (ch "0")) with true. change (char_eqb (ch "0") 48) with true.
  cbn [negb]. rewrite Hf. reflexivity.
- destruct (of_nat_head (Pos.to_nat p) ltac:(lia)) as (c & t & E & Hc & _).
  rewrite E. cbn [app]. rewrite parse_value_digit by exact Hc.
  change (c :: t ++ rest) with ((c :: t) ++ rest). rewrite <- E.
  rewrite (parse_number_numeral false) by
    (try exact Hrest; try lia; change (10 ^ N.of_nat 15)%N with 1000000000000000%N; lia).
  rewrite positive_nat_N. reflexivity.
- cbn [app]. rewrite parse_value_minus.
  rewrite (parse_number_numeral true) by
    (try exact Hrest; try lia; change (10 ^ N.of_nat 15)%N with 1000000000000000%N; lia).
  rewrite positive_nat_N. reflexivity.
Qed.

(** *** Values *)

Lemma serialize_head indent v :
  exists c t, Json.serialize indent v = c :: t
    /\ Json.isJsonSpace c = false
    /\ char_eqb c (ch "]") = false /\ char_eqb c (ch "}") = false.
Proof.
assert (forall c : char, isDigit c = true ->
          Json.isJsonSpace c = false
          /\ char_eqb c (ch "]") = false /\ char_eqb c (ch "}") = false) as Hdigit.
{ intros c H%isDigit_bounds. unfold Json.isJsonSpace, char_eqb, ch.
  cbn [N_of_ascii N_of_digits N.add N.mul].
  repeat split; repeat (apply orb_false_intro); apply N.eqb_neq; lia. }
destruct v as [|[|]|[|p|p]|s|[|x l]|[|m ms]]; cbn [Json.serialize];
  try (eexists _, _; split; [reflexivity|]; repeat split; reflexivity).
destruct (of_nat_head (Pos.to_nat p) ltac:(lia)) as (c & t & E & Hc & _).
exists c, t. unfold Json.number_to_string. split; [exact E|]. apply Hdigit, Hc.
Qed.

Lemma join_cons sep (a b : jsstring) l :
  Json.join sep (a :: b :: l) = a ++ sep ++ Json.join sep (b :: l).
Proof. reflexivity. Qed.

Lemma json_space_app a b : json_space (a ++ b) = json_space a && json_space b.
Proof. unfold json_space. apply forallb_app. Qed.

(** One member: its key, the colon, its value. *)
Lemma parse_member_serialized f acc k v inner tail :
  Json.parse_value f (Json.serialize inner v ++ tail) = Return (v, tail) ->
  Json.parse_members (S f) acc
    (Json.skip_ws (Json.quote k ++ str ": " ++ Json.serialize inner v ++ tail))
  = match Json.skip_ws tail with
    | e :: r3 =>
        if char_eqb e (ch ",") then Json.parse_members f (Json.set_member k v acc) r3
        else if char_eqb e (ch "}") then Return (Json.set_member k v acc, r3)
        else Throw SyntaxError
    | [] => Throw SyntaxError
    end.
Proof.
intros Hv. unfold Json.quote. reassoc.
rewrite skip_ws_start by reflexivity. rewrite parse_members_step.
change (Json.quote_body k ++ dq :: str ": " ++ Json.serialize inner v ++ tail)
  with (Json.quote_body k ++ dq :: ch ":" :: [ch " "] ++ Json.serialize inner v ++ tail).
rewrite parse_string_quote by (rewrite length_app; cbn [length]; lia).
rewrite skip_ws_start by reflexivity. rewrite char_eqb_refl. cbn [negb].
rewrite parse_value_space by reflexivity. rewrite Hv. reflexivity.
Qed.

Section RoundTrip.

Variable fuel : nat.

Hypothesis parse_smaller : forall f v indent rest,
  f <= fuel -> size v <= f -> wf v = true -> json_space indent = true ->
  value_end rest = true ->
  Json.parse_value f (Json.serialize indent v ++ rest) = Return (v, rest).

Variables (indent rest : jsstring).

Hypothesis indent_space : json_space indent = true.

Let inner : jsstring := indent ++ Json.gap.

Lemma inner_space : json_space inner = true.
Proof. unfold inner. rewrite json_space_app, indent_space. reflexivity. Qed.

Lemma parse_elements_serialized l : forall f acc,
  f <= fuel -> list_sum (map (fun x => S (size x)) l) <= f -> l <> [] ->
  forallb wf l = true ->
  Json.parse_elements f acc
    (nl :: inner ++ Json.join (ch "," :: nl :: inner) (map (Json.serialize inner) l)
        ++ nl :: indent ++ ch "]" :: rest)
  = Return (rev acc ++ l, rest).
Proof.
induction l as [|x l IH]; intros f acc Hf Hsize Hne Hwf; [contradiction|].
cbn [map list_sum fold_right forallb] in Hsize, Hwf. apply andb_prop in Hwf as [Hx Hl].
destruct f as [|f]; [cbn in Hsize; lia|].
rewrite parse_elements_step.
change (nl :: inner ++ ?t) with ((nl :: inner) ++ t).
rewrite parse_value_space by (cbn [json_space forallb]; apply inner_space).
destruct l as [|y l].
- cbn [map Json.join].
  rewrite (parse_smaller f x inner) by
    (try apply inner_space; try exact Hx; try reflexivity; cbn [list_sum map fold_right snd] in Hsize; lia).
  change (nl :: indent ++ ?t) with ((nl :: indent) ++ t).
  rewrite skip_ws_space by (cbn [json_space forallb]; exact indent_space).
  rewrite skip_ws_start by reflexivity.
  change (char_eqb (ch "]") (ch ",")) with false. rewrite char_eqb_refl.
  cbn [rev]. reflexivity.
- cbn [map]. rewrite join_cons, <- !app_assoc.
  rewrite (parse_smaller f x inner) by
    (try apply inner_space; try exact Hx; try reflexivity; cbn [list_sum map fold_right snd] in Hsize; lia).
  cbn [app]. rewrite skip_ws_start by reflexivity. rewrite char_eqb_refl.
  pose proof (IH f (x :: acc)) as H. cbn [map] in H. rewrite <- ?app_assoc in H.
  rewrite H; [cbn [rev]; rewrite <- app_assoc; reflexivity|lia| |discriminate|exact Hl].
  cbn [list_sum map fold_right] in *. lia.
Qed.

Lemma parse_members_serialized ms : forall f acc,
  f <= fuel -> list_sum (map (fun kv => S (size (snd kv))) ms) <= f -> ms <> [] ->
  forallb (fun kv => wf (snd kv)) ms = true ->
  canonical (acc ++ ms) = true ->
  Json.parse_members f acc
    (nl :: inner
        ++ Json.join (ch "," :: nl :: inner)
             (map (fun kv => Json.quote (fst kv) ++ str ": " ++ Json.serialize inner (snd kv)) ms)
        ++ nl :: indent ++ ch "}" :: rest)
  = Return (acc ++ ms, rest).
Proof.
induction ms as [|[k v] ms IH]; intros f acc Hf Hsize Hne Hwf Hcan; [contradiction|].
cbn [map list_sum fold_right forallb snd] in Hsize, Hwf. apply andb_prop in Hwf as [Hv Hms].
destruct f as [|f]; [cbn in Hsize; lia|].
assert (Json.set_member k v acc = acc ++ [(k, v)]) as Hset.
{ apply set_member_last.
  change (acc ++ (k, v) :: ms) with (acc ++ [(k, v)] ++ ms) in Hcan.
  rewrite app_assoc in Hcan. apply canonical_app in Hcan as [Hcan _]. exact Hcan. }
rewrite parse_members_skip.
change (nl :: inner ++ ?t) with ((nl :: inner) ++ t).
rewrite skip_ws_space by (cbn [json_space forallb]; apply inner_space).
destruct ms as [|[k' v'] ms].
- cbn [map Json.join fst snd]. rewrite <- !app_assoc.
  rewrite (parse_member_serialized f acc k v inner)
    by (apply parse_smaller; try apply inner_space; try exact Hv; try reflexivity; lia).
  change (nl :: indent ++ ?t) with ((nl :: indent) ++ t).
  rewrite skip_ws_space by (cbn [json_space forallb]; exact indent_space).
  rewrite skip_ws_start by reflexivity.
  change (char_eqb (ch "}") (ch ",")) with false. rewrite char_eqb_refl, Hset. reflexivity.
- cbn [map]. rewrite join_cons. cbn [fst snd]. rewrite <- !app_assoc.
  rewrite (parse_member_serialized f acc k v inner)
    by (apply parse_smaller; try apply inner_space; try exact Hv; try reflexivity; lia).
  cbn [app]. rewrite skip_ws_start by reflexivity. rewrite char_eqb_refl, Hset.
  pose proof (IH f (acc ++ [(k, v)])) as H. cbn [map fst snd] in H.
  rewrite <- ?app_assoc in H. cbn [app] in H.
  rewrite H; [reflexivity|lia| |discriminate|exact Hms|exact Hcan].
  cbn [list_sum map fold_right snd] in *. lia.
Qed.

End RoundTrip.

Lemma serialize_array indent x l rest :
  Json.serialize indent (Json.JArr (x :: l)) ++ rest
  = ch "[" :: nl :: (indent ++ Json.gap)
      ++ Json.join (ch "," :: nl :: indent ++ Json.gap)
           (map (Json.serialize (indent ++ Json.gap)) (x :: l))
      ++ nl :: indent ++ ch "]" :: rest.
Proof. cbn [Json.serialize]. reassoc. reflexivity. Qed.

Lemma serialize_object indent m ms rest :
  Json.serialize indent (Json.JObj (m :: ms)) ++ rest
  = ch "{" :: nl :: (indent ++ Json.gap)
      ++ Json.join (ch "," :: nl :: indent ++ Json.gap)
           (map (fun kv => Json.quote (fst kv) ++ str ": "
                   ++ Json.serialize (indent ++ Json.gap) (snd kv)) (m :: ms))
      ++ nl :: indent ++ ch "}" :: rest.
Proof. cbn [Json.serialize]. reassoc. reflexivity. Qed.

Lemma size_positive v : 1 <= size v.
Proof. destruct v; cbn [size]; lia. Qed.

Lemma parse_value_serialize fuel : forall f v indent rest,
  f <= fuel -> size v <= f -> wf v = true -> json_space indent = true ->
  value_end rest = true ->
  Json.parse_value f (Json.serialize indent v ++ rest) = Return (v, rest).
Proof.
induction fuel as [|fuel IH]; intros f v indent rest Hf Hsize Hwf Hind Hrest.
- pose proof (size_positive v). lia.
- destruct (Nat.le_gt_cases f fuel) as [Hle|Hgt]; [apply IH; assumption|].
  assert (f = S fuel) as -> by lia. clear Hf Hgt.
  destruct v as [|[|]|z|s|[|x l]|[|[k v] ms]].
  + reflexivity.
  + reflexivity.
  + reflexivity.
  + cbn [Json.serialize]. apply parse_value_number; assumption.
  + cbn [Json.serialize]. unfold Json.quote. reassoc. rewrite parse_value_string.
    rewrite parse_string_quote by (rewrite length_app; cbn [length]; lia). reflexivity.
  + reflexivity.
  + cbn [size] in Hsize. cbn [wf] in Hwf.
    rewrite serialize_array, parse_value_array.
    assert (exists c t, Json.skip_ws
              (nl :: (indent ++ Json.gap) ++
                 Json.join (ch "," :: nl :: indent ++ Json.gap)
                   (map (Json.serialize (indent ++ Json.gap)) (x :: l)) ++
                 nl :: indent ++ ch "]" :: rest) = c :: t
              /\ char_eqb c (ch "]") = false) as (c & t & -> & ->).
    { destruct (serialize_head (indent ++ Json.gap) x) as (c & t & E & Hs & Hb & _).
      change (nl :: (indent ++ Json.gap) ++ ?u) with ((nl :: indent ++ Json.gap) ++ u).
      rewrite skip_ws_space
        by (cbn [json_space forallb]; rewrite json_space_app, Hind; reflexivity).
      destruct l as [|y l]; cbn [map]; [cbn [Json.join]|rewrite join_cons];
        rewrite E; cbn [app]; rewrite (skip_ws_start c _ Hs); eexists _, _; split;
        try reflexivity; exact Hb. }
    rewrite (parse_elements_serialized fuel IH indent rest Hind (x :: l) fuel []);
      [reflexivity|lia|lia|discriminate|exact Hwf].
  + reflexivity.
  + cbn [size] in Hsize. cbn [wf] in Hwf. apply andb_prop in Hwf as [Hcan Hwf].
    rewrite serialize_object, parse_value_object.
    assert (exists t, Json.skip_ws
              (nl :: (indent ++ Json.gap) ++
                 Json.join (ch "," :: nl :: indent ++ Json.gap)
                   (map (fun kv => Json.quote (fst kv) ++ str ": "
                           ++ Json.serialize (indent ++ Json.gap) (snd kv))
                      ((k, v) :: ms)) ++
                 nl :: indent ++ ch "}" :: rest) = dq :: t) as (t & ->).
    { change (nl :: (indent ++ Json.gap) ++ ?u) with ((nl :: indent ++ Json.gap) ++ u).
      rewrite skip_ws_space
        by (cbn [json_space forallb]; rewrite json_space_app, Hind; reflexivity).
      destruct ms as [|m ms]; cbn [map fst]; [cbn [Json.join]|rewrite join_cons];
        unfold Json.quote at 1; reassoc; rewrite skip_ws_start by reflexivity;
        eexists; reflexivity. }
    change (char_eqb dq (ch "}")) with false. cbv iota.
    rewrite (parse_members_serialized fuel IH indent rest Hind ((k, v) :: ms) fuel []);
      [reflexivity|lia|lia|discriminate|exact Hwf|exact Hcan].
Qed.

Lemma list_sum_cons a l : list_sum (a :: l) = a + list_sum l.
Proof. reflexivity. Qed.

Lemma join_length sep parts :
  list_sum (map (@length char) parts) <= length (Json.join sep parts).
Proof.
induction parts as [|p parts IH]; [cbn; lia|].
destruct parts as [|q parts]; [cbn; lia|].
rewrite join_cons, !length_app. cbn [map list_sum fold_right] in *. lia.
Qed.

Lemma join_length_sep sep parts :
  1 <= length sep -> parts <> [] ->
  list_sum (map (fun p => S (length p)) parts) <= S (length (Json.join sep parts)).
Proof.
intros Hsep. induction parts as [|p parts IH]; [contradiction|]. intros _.
destruct parts as [|q parts]; [cbn; lia|].
rewrite join_cons, !length_app. specialize (IH ltac:(discriminate)).
cbn [map list_sum fold_right] in *. lia.
Qed.

Lemma size_le_length n : forall v indent, size v <= n -> size v <= length (Json.serialize indent v).
Proof.
induction n as [|n IH]; intros v indent Hn; [pose proof (size_positive v); lia|].
assert (forall (A : Type) (g : A -> Json.value) (h : A -> jsstring) inner (l : list A) sep,
          list_sum (map (fun x => S (size (g x))) l) <= n ->
          (forall x, length (Json.serialize inner (g x)) <= length (h x)) ->
          1 <= length sep -> l <> [] ->
          list_sum (map (fun x => S (size (g x))) l) <= S (length (Json.join sep (map h l))))
  as Hlist.
{ intros A g h inner l sep Hl Hh Hsep Hne.
  etransitivity; [|apply (join_length_sep sep (map h l) Hsep);
                    destruct l; [contradiction|discriminate]].
  rewrite map_map. clear Hne. induction l as [|x l IHl]; [cbn; lia|].
  rewrite !map_cons, !list_sum_cons in *.
  pose proof (IH (g x) inner ltac:(lia)). pose proof (Hh x). specialize (IHl ltac:(lia)). lia. }
destruct v as [|[|]|[|p|p]|s|[|x l]|[|m ms]]; cbn [Json.serialize size];
  try (cbn; lia).
- unfold Json.number_to_string.
  destruct (of_nat_head (Pos.to_nat p) ltac:(lia)) as (c & t & -> & _). cbn [length]. lia.
- cbn [size] in Hn.
  pose proof (Hlist Json.value (fun x => x) (Json.serialize (indent ++ Json.gap))
                (indent ++ Json.gap) (x :: l) (ch "," :: nl :: indent ++ Json.gap)
                ltac:(lia) ltac:(intros; lia) ltac:(cbn [length]; lia) ltac:(discriminate)) as H.
  cbn [length]. rewrite !length_app. cbn [length]. lia.
- cbn [size] in Hn.
  assert (forall kv : jsstring * Json.value,
            length (Json.serialize (indent ++ Json.gap) (snd kv))
            <= length (Json.quote (fst kv) ++ str ": "
                         ++ Json.serialize (indent ++ Json.gap) (snd kv))) as Hh
    by (intros; rewrite !length_app; lia).
  pose proof (Hlist (jsstring * Json.value)%type snd
                (fun kv => Json.quote (fst kv) ++ str ": "
                             ++ Json.serialize (indent ++ Json.gap) (snd kv))
                (indent ++ Json.gap) (m :: ms) (ch "," :: nl :: indent ++ Json.gap)
                ltac:(lia) Hh ltac:(cbn [length]; lia) ltac:(discriminate)) as H.
  cbn [length]. rewrite !length_app. cbn [length]. lia.
Qed.

(** [JSON.parse] reads the text that [JSON.stringify (v, null, 2)]
    printed, with a newline after it, back as [v]. *)
Lemma parse_stringify v : wf v = true -> Json.parse (Json.stringify v ++ [nl]) = Return v.
Proof.
intros Hwf. unfold Json.parse, Json.stringify.
rewrite (parse_value_serialize (2 * length (Json.serialize [] v ++ [nl]) + 2));
  try reflexivity; try assumption.
pose proof (size_le_length (size v) v [] ltac:(lia)). rewrite length_app. lia.
Qed.

(** ** What [JSON.parse] returns *)

Lemma parse_number_wf negative s v r :
  Json.parse_number negative s = Return (v, r) -> wf v = true.
Proof.
unfold Json.parse_number. destruct s as [|c s]; [discriminate|].
destruct (negb (isDigit c)); [discriminate|].
destruct (if char_eqb c 48 then ([c], s) else Json.take_digits (c :: s)) as [ds r'].
destruct (Json.starts_fraction_or_exponent r'); [discriminate|].
destruct (Nat.ltb 15 (length ds)) eqn:Hlen; [discriminate|]. apply Nat.ltb_ge in Hlen.
destruct (Json.decimal_value 0 ds) as [n|] eqn:Hn; [|discriminate].
intros [= <- _]. cbn [wf]. apply Z.ltb_lt.
apply decimal_value_bounds in Hn as [_ Hn].
assert (10 ^ N.of_nat (length ds) <= 10 ^ 15)%N as Hpow
  by (apply N.pow_le_mono_r; [discriminate|lia]).
change (10 ^ 15)%N with 1000000000000000%N in Hpow.
change (10 ^ 15)%Z with 1000000000000000%Z.
destruct negative; lia.
Qed.

Lemma expect_wf word v0 s v r : wf v0 = true -> Json.expect word v0 s = Return (v, r) -> wf v = true.
Proof.
intros H0. unfold Json.expect. destruct (strip_prefix (str word) s); [|discriminate].
intros [= <- _]. exact H0.
Qed.

Lemma forallb_rev {A} (P : A -> bool) l : forallb P (rev l) = forallb P l.
Proof.
induction l as [|a l IH]; [reflexivity|].
cbn [rev forallb]. rewrite forallb_app, IH. cbn [forallb].
destruct (P a), (forallb P l); reflexivity.
Qed.

Lemma parse_value_wf fuel :
  (forall s v r, Json.parse_value fuel s = Return (v, r) -> wf v = true)
  /\ (forall acc s l r, forallb wf acc = true ->
        Json.parse_elements fuel acc s = Return (l, r) -> forallb wf l = true)
  /\ (forall acc s ms r, canonical acc = true -> forallb (fun kv => wf (snd kv)) acc = true ->
        Json.parse_members fuel acc s = Return (ms, r) ->
        canonical ms = true /\ forallb (fun kv => wf (snd kv)) ms = true).
Proof.
induction fuel as [|fuel (IHv & IHe & IHm)]; [repeat split; discriminate|].
split; [|split].
- intros s v r. cbn [Json.parse_value].
  destruct (Json.skip_ws s) as [|c s']; [discriminate|].
  destruct (char_eqb c (ch "{")).
  { destruct (Json.skip_ws s') as [|d s'']; [discriminate|].
    destruct (char_eqb d (ch "}")); [intros [= <- _]; reflexivity|].
    destruct (Json.parse_members fuel [] s') as [[ms r']|e] eqn:E; [|discriminate].
    intros [= <- _]. destruct (IHm [] s' ms r' eq_refl eq_refl E) as [H1 H2].
    cbn [wf]. rewrite H1, H2. reflexivity. }
  destruct (char_eqb c (ch "[")).
  { destruct (Json.skip_ws s') as [|d s'']; [discriminate|].
    destruct (char_eqb d (ch "]")); [intros [= <- _]; reflexivity|].
    destruct (Json.parse_elements fuel [] s') as [[l r']|e] eqn:E; [|discriminate].
    intros [= <- _]. cbn [wf]. apply (IHe [] s' l r' eq_refl E). }
  destruct (char_eqb c dq).
  { destruct (Json.parse_string (length s') [] s') as [[x r']|e]; [|discriminate].
    intros [= <- _]. reflexivity. }
  destruct (char_eqb c (ch "t")); [apply expect_wf; reflexivity|].
  destruct (char_eqb c (ch "f")); [apply expect_wf; reflexivity|].
  destruct (char_eqb c (ch "n")); [apply expect_wf; reflexivity|].
  destruct (char_eqb c (ch "-")); apply parse_number_wf.
- intros acc s l r Hacc. rewrite parse_elements_step.
  destruct (Json.parse_value fuel s) as [[v r']|e] eqn:E; [|discriminate].
  pose proof (IHv s v r' E) as Hv.
  destruct (Json.skip_ws r') as [|c r'']; [discriminate|].
  destruct (char_eqb c (ch ",")).
  + apply IHe. cbn [forallb]. rewrite Hv, Hacc. reflexivity.
  + destruct (char_eqb c (ch "]")); [|discriminate].
    intros [= <- _]. change (forallb wf (rev (v :: acc)) = true).
    rewrite forallb_rev. cbn [forallb]. rewrite Hv, Hacc. reflexivity.
- intros acc s ms r Hcan Hacc. cbn [Json.parse_members].
  destruct (Json.skip_ws s) as [|c s']; [discriminate|].
  destruct (negb (char_eqb c dq)); [discriminate|].
  destruct (Json.parse_string (length s') [] s') as [[k r1]|e]; [|discriminate].
  destruct (Json.skip_ws r1) as [|d r1']; [discriminate|].
  destruct (negb (char_eqb d (ch ":"))); [discriminate|].
  destruct (Json.parse_value fuel r1') as [[v r2]|e] eqn:E; [|discriminate].
  pose proof (IHv r1' v r2 E) as Hv.
  destruct (Json.skip_ws r2) as [|e r3]; [discriminate|].
  pose proof (canonical_set_member k v acc Hcan) as Hcan'.
  pose proof (forallb_set_member wf k v acc Hv Hacc) as Hacc'.
  destruct (char_eqb e (ch ",")); [apply IHm; assumption|].
  destruct (char_eqb e (ch "}")); [|discriminate].
  intros [= <- _]. split; assumption.
Qed.

(** The values that [JSON.parse] returns are well formed. *)
Lemma parse_wf text v : Json.parse text = Return v -> wf v = true.
Proof.
unfold Json.parse.
destruct (Json.parse_value (2 * length text + 2) text) as [[v' r]|e] eqn:E; [|discriminate].
destruct (Json.skip_ws r); [|discriminate]. intros [= <-].
apply (proj1 (parse_value_wf _) text v' r E).
Qed.

(** An assignment of a string keeps a value well formed. *)
Lemma assign_wf o k s o' :
  wf o = true -> Json.assign o k (Json.JStr s) = Return o' -> wf o' = true.
Proof.
destruct o as [| | | |l|ms]; try discriminate; cbn [Json.assign wf].
- intros H [= <-]. exact H.
- intros [H1 H2]%andb_prop [= <-]. cbn [wf].
  rewrite canonical_set_member by exact H1.
  rewrite (forallb_set_member wf) by (try reflexivity; exact H2). reflexivity.
Qed.

(** ** [patchPackageJson] *)

Lemma set_member_same k v ms : member k ms = Some v -> Json.set_member k v ms = ms.
Proof.
intros H. unfold Json.set_member.
assert (Json.has_key k ms = true) as -> by (apply has_key_member; rewrite H; discriminate).
apply update_same, H.
Qed.

Lemma has_key_set_other k k' v ms :
  k' <> k -> Json.has_key k' (Json.set_member k v ms) = Json.has_key k' ms.
Proof.
intros Hne. pose proof (member_set_other k k' v ms Hne) as H.
destruct (Json.has_key k' ms) eqn:E.
- apply has_key_member. rewrite H. apply has_key_member, E.
- apply has_key_false. rewrite H. apply has_key_false, E.
Qed.

Lemma patchPackageJsonContent_object text ms packageName productName :
  Json.parse text = Return (Json.JObj ms) ->
  patchPackageJsonContent text packageName productName
  = Return (Json.stringify (Json.JObj (patched_members ms packageName productName)) ++ [nl]).
Proof. intros H. unfold patchPackageJsonContent. rewrite H. reflexivity. Qed.

(** The text that [patchPackageJson] writes reads back as the value it
    was printed from, and that value is a fixed point of the two
    assignments. *)
Lemma patchPackageJsonContent_again text next packageName productName :
  patchPackageJsonContent text packageName productName = Return next ->
  patchPackageJsonContent next packageName productName = Return next.
Proof.
unfold patchPackageJsonContent.
destruct (Json.parse text) as [pkg|e] eqn:Hparse; [|discriminate]. cbn [obind].
pose proof (parse_wf text pkg Hparse) as Hwf.
destruct (Json.assign pkg (str "name") (Json.JStr packageName)) as [pkg1|e] eqn:H1;
  [|discriminate].
cbn [obind].
destruct (Json.assign pkg1 (str "productName") (Json.JStr productName)) as [pkg2|e] eqn:H2;
  [|discriminate].
cbn [obind]. intros [= <-].
pose proof (assign_wf _ _ _ _ Hwf H1) as Hwf1.
pose proof (assign_wf _ _ _ _ Hwf1 H2) as Hwf2.
rewrite (parse_stringify pkg2 Hwf2). cbn [obind].
destruct pkg as [| | | |l|ms]; try discriminate H1; cbn [Json.assign] in H1; injection H1 as <-;
  cbn [Json.assign] in H2; injection H2 as <-; cbn [Json.assign obind].
- reflexivity.
- rewrite (set_member_same (str "name") (Json.JStr packageName)).
  + rewrite set_member_twice. reflexivity.
  + rewrite member_set_other by discriminate. apply member_set_same.
Qed.

(** On a [package.json] that holds an object -- in a text that the
    model of [JSON.parse] reads: its numbers are integers of at most
    15 digits, without fraction and exponent --, [patchPackageJson]
    writes the object with its two members set, printed with an
    indentation of two spaces and a final newline.  The text written
    reads back as that object; in it [name] and [productName] have the
    new values, every other member has its old value, and the keys
    keep their order, a new [name] or [productName] coming last. *)
Theorem package_json_fields
    (repoRoot : string) (text packageName productName : jsstring)
    (ms : list (jsstring * Json.value)) (w : world) :
  files w !! package_json_of repoRoot = Some text ->
  Json.parse text = Return (Json.JObj ms) ->
  let ms' := patched_members ms packageName productName in
  let next := Json.stringify (Json.JObj ms') ++ [nl] in
  fst (patchPackageJson repoRoot packageName productName w)
  = Return {| file := package_json_of repoRoot; changed := negb (JsString.eqb text next) |}
  /\ files (snd (patchPackageJson repoRoot packageName productName w))
     = <[package_json_of repoRoot := next]> (files w)
  /\ Json.parse next = Return (Json.JObj ms')
  /\ member (str "name") ms' = Some (Json.JStr packageName)
  /\ member (str "productName") ms' = Some (Json.JStr productName)
  /\ (forall k, k <> str "name" -> k <> str "productName" -> member k ms' = member k ms)
  /\ map fst ms'
     = map fst ms
         ++ (if Json.has_key (str "name") ms then [] else [str "name"])
         ++ (if Json.has_key (str "productName") ms then [] else [str "productName"]).
Proof.
intros Hfile Hparse ms' next.
assert (wf (Json.JObj ms') = true) as Hwf.
{ pose proof (parse_wf text _ Hparse) as H. cbn [wf] in *. apply andb_prop in H as [H1 H2].
  unfold ms', patched_members.
  rewrite canonical_set_member by (apply canonical_set_member; exact H1).
  pose proof (forallb_set_member wf (str "name") (Json.JStr packageName) ms eq_refl H2) as H3.
  rewrite (forallb_set_member wf (str "productName") (Json.JStr productName) _ eq_refl H3).
  reflexivity. }
rewrite patchPackageJson_shape.
destruct (patch_file_result (package_json_of repoRoot)
            (fun text => patchPackageJsonContent text packageName productName) w text next
            Hfile (patchPackageJsonContent_object text ms packageName productName Hparse))
  as [Hr Hf].
split; [exact Hr|]. split; [exact Hf|]. split; [apply parse_stringify, Hwf|].
unfold ms', patched_members. split; [|split; [|split]].
- rewrite member_set_other by discriminate. apply member_set_same.
- apply member_set_same.
- intros k Hn Hp. rewrite !member_set_other by assumption. reflexivity.
- rewrite !keys_set_member by reflexivity.
  rewrite has_key_set_other by discriminate. rewrite <- app_assoc. reflexivity.
Qed.

Lemma package_json_fields_witness :
  let ms := [(str "name", Json.JStr (str "flow")); (str "productName", Json.JStr (str "Flow"));
             (str "version", Json.JStr (str "0.8.3"))] in
  let ms' := patched_members ms (str "acme-browser") (str "Acme Browser") in
  let next := Json.stringify (Json.JObj ms') ++ [nl] in
  fst (patchPackageJson "/repo" (str "acme-browser") (str "Acme Browser") fixture_world)
  = Return {| file := package_json_path;
              changed := negb (JsString.eqb fixture_package_json next) |}
  /\ files (snd (patchPackageJson "/repo" (str "acme-browser") (str "Acme Browser")
                   fixture_world))
     = <[package_json_path := next]> fixture_files
  /\ Json.parse next = Return (Json.JObj ms')
  /\ member (str "name") ms' = Some (Json.JStr (str "acme-browser"))
  /\ member (str "productName") ms' = Some (Json.JStr (str "Acme Browser"))
  /\ (forall k, k <> str "name" -> k <> str "productName" -> member k ms' = member k ms)
  /\ map fst ms'
     = map fst ms
         ++ (if Json.has_key (str "name") ms then [] else [str "name"])
         ++ (if Json.has_key (str "productName") ms then [] else [str "productName"]).
Proof.
intros ms.
apply (package_json_fields "/repo" fixture_package_json (str "acme-browser")
         (str "Acme Browser") ms fixture_world); vm_compute; reflexivity.
Defined.

(** A second run of [patchPackageJson] with the same names, after a
    run that succeeded on a text that the model of [JSON.parse] reads
    (its numbers are integers of at most 15 digits, without fraction
    and exponent), finds the file as that run left it: it reports no
    change and writes nothing. *)
Theorem package_json_second_run
    (repoRoot : string) (packageName productName : jsstring) (w : world) (r : PatchResult) :
  fst (patchPackageJson repoRoot packageName productName w) = Return r ->
  let w1 := snd (patchPackageJson repoRoot packageName productName w) in
  patchPackageJson repoRoot packageName productName w1
  = (Return {| file := package_json_of repoRoot; changed := false |},
     World (files w1)
       (ReadFile (package_json_of repoRoot) :: ReadFile (package_json_of repoRoot) :: trace w1)
       (stdout w1)).
Proof.
intros Hr w1. unfold w1. clear w1. revert Hr. rewrite !patchPackageJson_shape.
set (f := fun text => patchPackageJsonContent text packageName productName).
set (path := package_json_of repoRoot).
destruct (files w !! path) as [text|] eqn:Hfile;
  [|rewrite (patch_file_missing path f w Hfile); discriminate].
destruct (f text) as [next|e] eqn:Hf;
  [|rewrite (patch_file_throws path f w text e Hfile Hf); discriminate].
intros _.
destruct (patch_file_result path f w text next Hfile Hf) as [_ Hfiles].
assert (files (snd (patch_file path f w)) !! path = Some next) as Hfile1.
{ rewrite Hfiles. apply lookup_insert_eq. }
rewrite (patch_file_returns path f _ next next Hfile1).
- rewrite jsstring_eqb_refl. reflexivity.
- apply (patchPackageJsonContent_again text). exact Hf.
Qed.

Lemma package_json_second_run_witness :
  let w1 := snd (patchPackageJson "/repo" (str "acme-browser") (str "Acme Browser")
                   fixture_world) in
  patchPackageJson "/repo" (str "acme-browser") (str "Acme Browser") w1
  = (Return {| file := package_json_path; changed := false |},
     World (files w1) (ReadFile package_json_path :: ReadFile package_json_path :: trace w1)
       (stdout w1)).
Proof.
apply (package_json_second_run "/repo" (str "acme-browser") (str "Acme Browser") fixture_world
         {| file := package_json_path; changed := true |}).
vm_compute. reflexivity.
Defined.

(** When [package.json] holds [null], a boolean, a number or a string,
    the assignment of [name] throws a [TypeError]: the handler fails
    after reading the file and writes nothing.  When it holds an
    array, the two assignments define properties that [JSON.stringify]
    does not print: the handler succeeds and leaves the array, printed
    anew, without a name and a product name. *)
Theorem package_json_not_an_object
    (repoRoot : string) (text packageName productName : jsstring) (v : Json.value) (w : world) :
  files w !! package_json_of repoRoot = Some text ->
  Json.parse text = Return v ->
  (is_primitive v = true ->
   patchPackageJson repoRoot packageName productName w
   = (Throw TypeError,
      World (files w) (ReadFile (package_json_of repoRoot) :: trace w) (stdout w)))
  /\
  (forall l, v = Json.JArr l ->
   fst (patchPackageJson repoRoot packageName productName w)
   = Return {| file := package_json_of repoRoot;
               changed := negb (JsString.eqb text (Json.stringify (Json.JArr l) ++ [nl])) |}
   /\ files (snd (patchPackageJson repoRoot packageName productName w))
      = <[package_json_of repoRoot := Json.stringify (Json.JArr l) ++ [nl]]> (files w)).
Proof.
intros Hfile Hparse. split.
- intros Hprim. rewrite patchPackageJson_shape.
  apply (patch_file_throws _ _ w text); [exact Hfile|].
  unfold patchPackageJsonContent. rewrite Hparse. destruct v; try discriminate Hprim; reflexivity.
- intros l ->. rewrite patchPackageJson_shape.
  apply patch_file_result; [exact Hfile|].
  unfold patchPackageJsonContent. rewrite Hparse. reflexivity.
Qed.

Lemma package_json_not_an_object_witness :
  let w := World (<[package_json_path := str "null"]> fixture_files) [] [] in
  patchPackageJson "/repo" (str "acme-browser") (str "Acme Browser") w
  = (Throw TypeError, World (files w) [ReadFile package_json_path] []).
Proof.
intros w.
apply (proj1 (package_json_not_an_object "/repo" (str "null") (str "acme-browser")
                (str "Acme Browser") Json.JNull w eq_refl eq_refl)).
reflexivity.
Defined.

Lemma parse_blank text : json_space text = true -> Json.parse text = Throw SyntaxError.
Proof.
intros H. unfold Json.parse.
assert (Json.skip_ws text = []) as Hskip.
{ rewrite <- (app_nil_r text). rewrite skip_ws_space by exact H. reflexivity. }
replace (2 * length text + 2) with (S (2 * length text + 1)) by lia.
cbn [Json.parse_value]. rewrite Hskip. reflexivity.
Qed.

(** When [package.json] is empty or holds white space only, and
    whenever [JSON.parse] throws a [SyntaxError], [patchPackageJson]
    throws that error after reading the file, and writes nothing. *)
Theorem package_json_invalid
    (repoRoot : string) (text packageName productName : jsstring) (w : world) :
  files w !! package_json_of repoRoot = Some text ->
  (json_space text = true -> Json.parse text = Throw SyntaxError)
  /\
  (Json.parse text = Throw SyntaxError ->
   patchPackageJson repoRoot packageName productName w
   = (Throw SyntaxError,
      World (files w) (ReadFile (package_json_of repoRoot) :: trace w) (stdout w))).
Proof.
intros Hfile. split; [apply parse_blank|].
intros He. rewrite patchPackageJson_shape.
apply (patch_file_throws _ _ w text); [exact Hfile|].
unfold patchPackageJsonContent. rewrite He. reflexivity.
Qed.

Lemma package_json_invalid_witness :
  let w := World (<[package_json_path := [nl]]> fixture_files) [] [] in
  patchPackageJson "/repo" (str "acme-browser") (str "Acme Browser") w
  = (Throw SyntaxError, World (files w) [ReadFile package_json_path] []).
Proof.
intros w.
apply (proj2 (package_json_invalid "/repo" [nl] (str "acme-browser") (str "Acme Browser") w
                eq_refl)).
reflexivity.
Defined.

(** ** The slug *)

Lemma parse_quote s : Json.parse (Json.quote s) = Return (Json.JStr s).
Proof.
unfold Json.parse, Json.quote.
replace (2 * length (dq :: Json.quote_body s ++ [dq]) + 2)
  with (S (2 * length (dq :: Json.quote_body s ++ [dq]) + 1)) by lia.
rewrite parse_value_string.
rewrite parse_string_quote by (rewrite length_app; cbn [length]; lia). reflexivity.
Qed.

(** The error of [sanitizeSlug] shows the input without loss: its
    message ends with a JSON string literal that parses to the input,
    whatever characters the input holds. *)
Theorem slug_error_shows_input (input : jsstring) (e : exn) :
  sanitizeSlug input = Throw e ->
  exists literal,
    e = Error (str "APP_SLUG must match /^[a-z0-9][a-z0-9-]*$/ (lowercase, digits, hyphen). Got: "
                 ++ literal)
    /\ Json.parse literal = Return (Json.JStr input).
Proof.
unfold sanitizeSlug. destruct (negb (test slug_re (trim input))); [|discriminate].
intros [= <-]. exists (Json.quote input). split; [reflexivity|apply parse_quote].
Qed.

Lemma slug_error_shows_input_witness :
  exists literal,
    Error (bad_slug_message (str "Acme Browser"))
    = Error (str "APP_SLUG must match /^[a-z0-9][a-z0-9-]*$/ (lowercase, digits, hyphen). Got: "
               ++ literal)
    /\ Json.parse literal = Return (Json.JStr (str "Acme Browser")).
Proof. apply (slug_error_shows_input (str "Acme Browser")). reflexivity. Defined.

Lemma slug_char_plain c :
  isSlugChar c = true ->
  isQuote c = false /\ char_eqb c (ch "$") = false /\ isArgChar c = true.
Proof.
intros H. split; [|split].
- clear -H. char_arith.
- apply slug_char_not_dollar, H.
- unfold isArgChar. rewrite (slug_char_not_space c H).
  assert (isQuote c = false) as Hq by (clear -H; char_arith).
  unfold isQuote in Hq. apply orb_false_elim in Hq as [Hq _].
  apply orb_false_elim in Hq as [-> ->]. reflexivity.
Qed.

Lemma slug_chars_plain s :
  forallb isSlugChar s = true ->
  no_quote s = true /\ no_dollar s = true /\ forallb isArgChar s = true.
Proof.
intros H. unfold no_quote, no_dollar. rewrite !forallb_forall in *.
repeat split; intros c Hc; destruct (slug_char_plain c (H c Hc)) as (H1 & H2 & H3).
- rewrite H1. reflexivity.
- rewrite H2. reflexivity.
- exact H3.
Qed.

(** The names that the Validator hands to the handlers are safe for
    the patterns: the slug -- the executable name -- is not empty, has
    no quote character and no dollar sign, and is a slug that
    [sanitizeSlug] returns as it is; the desktop file that is derived
    from it when [DESKTOP_FILE] is unset is the slug followed by
    [.desktop], without white space, quotes and dollar signs. *)
Theorem resolved_names_are_plain (env : gmap string jsstring) (id : Identity) :
  resolveIdentity env = Return id ->
  appSlug id <> []
  /\ no_quote (appSlug id) = true /\ no_dollar (appSlug id) = true
  /\ sanitizeSlug (appSlug id) = Return (appSlug id)
  /\ (env !! "DESKTOP_FILE" = None ->
      desktopFile id = appSlug id ++ str ".desktop"
      /\ forallb isArgChar (desktopFile id) = true /\ no_dollar (desktopFile id) = true).
Proof.
intros H. destruct (resolveIdentity_slug env id H) as (v & Hv & Hslug & Hshape).
rewrite <- Hslug in Hshape.
pose proof (slug_shape_chars _ Hshape) as Hchars.
destruct (slug_chars_plain _ Hchars) as (Hq & Hd & Ha).
split; [apply slug_shape_nonempty, Hshape|]. split; [exact Hq|]. split; [exact Hd|].
assert (trim (appSlug id) = appSlug id) as Htrim
  by (apply trim_id; [apply slug_shape_start, Hshape|apply slug_chars_rev, Hchars]).
split; [rewrite sanitizeSlug_shape, Htrim, Hshape; reflexivity|].
intros Hunset.
assert (desktopFile id = appSlug id ++ str ".desktop") as Hdesk.
{ unfold resolveIdentity in H.
  destruct (requireEnv env "APP_SLUG") as [v'|] eqn:E1; [|discriminate]. cbn [obind] in H.
  apply requireEnv_Return in E1 as [E1 _]. rewrite Hv in E1. injection E1 as <-.
  rewrite sanitizeSlug_shape in H. rewrite Hslug in Hshape. rewrite Hshape in H.
  cbn [obind] in H.
  destruct (requireEnv env "APP_PRODUCT_NAME") as [pn|]; [|discriminate]. cbn [obind] in H.
  destruct (Nat.eqb (length (trim pn)) 0); [discriminate|].
  injection H as <-. cbn [appSlug desktopFile]. rewrite Hunset. cbn [or_default].
  apply trim_suffixed; [exact Hshape|reflexivity|discriminate]. }
split; [exact Hdesk|]. rewrite Hdesk. split.
- rewrite forallb_app, Ha. reflexivity.
- rewrite no_dollar_app, Hd. reflexivity.
Qed.

Lemma resolved_names_are_plain_witness :
  appSlug fixture_identity <> []
  /\ no_quote (appSlug fixture_identity) = true /\ no_dollar (appSlug fixture_identity) = true
  /\ sanitizeSlug (appSlug fixture_identity) = Return (appSlug fixture_identity)
  /\ (fixture_env !! "DESKTOP_FILE" = None ->
      desktopFile fixture_identity = appSlug fixture_identity ++ str ".desktop"
      /\ forallb isArgChar (desktopFile fixture_identity) = true
      /\ no_dollar (desktopFile fixture_identity) = true).
Proof. apply (resolved_names_are_plain fixture_env fixture_identity). vm_compute. reflexivity. Defined.

(** ** A command without an argument *)

(** A greedy quantifier on a class fails when the continuation fails
    after every run of characters of the class. *)
Lemma star_class_None ml negated items k s : forall c cp,
  (forall u v, s = u ++ v -> forallb (class_matches negated items) u = true ->
     k (MState (rev u ++ c) v cp) = None) ->
  rmatch ml (Star (Class negated items)) k (MState c s cp) = None.
Proof.
induction s as [|a s IH]; intros c cp H; rewrite star_unfold.
- apply (H [] []); reflexivity.
- pose proof (H [] (a :: s) eq_refl eq_refl) as H0. cbn [rev app] in H0.
  destruct (class_matches negated items a) eqn:Ha; [|exact H0].
  rewrite IH; [exact H0|].
  intros u v -> Hu. pose proof (H (a :: u) v eq_refl) as H1.
  cbn [forallb rev] in H1. rewrite Ha, Hu, <- app_assoc in H1. apply H1. reflexivity.
Qed.

Lemma argument_after_suffix u v : argument_after (u ++ v) = false -> argument_after v = false.
Proof.
induction u as [|a u IH]; [intros H; exact H|].
cbn [app argument_after]. intros [_ H]%orb_false_elim. apply IH, H.
Qed.

Lemma argument_after_here t :
  argument_after (xdg_command ++ t) = false ->
  starts_with_space t && starts_with_arg (trimStart t) = false.
Proof.
destruct (xdg_command ++ t) as [|a r] eqn:E; [discriminate E|]. rewrite <- E.
intros H.
assert (match strip_prefix xdg_command (xdg_command ++ t) with
        | Some t0 => starts_with_space t0 && starts_with_arg (trimStart t0)
        | None => false
        end = false) as H0.
{ rewrite E in *. cbn [argument_after] in H. apply orb_false_elim in H as [H _]. exact H. }
rewrite strip_prefix_app in H0. exact H0.
Qed.

Lemma trimStart_spaces u v :
  all_space u = true -> starts_with_space v = false -> trimStart (u ++ v) = v.
Proof.
intros Hu Hv. induction u as [|a u IH].
- apply trimStart_id, Hv.
- cbn [all_space forallb] in Hu. apply andb_prop in Hu as [Ha Hu].
  cbn [app trimStart]. rewrite Ha. apply IH, Hu.
Qed.

Lemma xdg_content_no_argument content desktopFile :
  argument_after content = false ->
  patchDefaultBrowserContent content desktopFile
  = Throw (Error (str "Pattern not found for linux default browser desktop file: "
                    ++ source xdg_re)).
Proof.
intros H. unfold patchDefaultBrowserContent, replaceOrThrow, test.
rewrite exec_None; [reflexivity|].
intros pre v ->. apply argument_after_suffix in H.
unfold xdg_re. cbn [pattern multiline]. rewrite rmatch_Seq.
change (str "xdg-settings set default-web-browser") with xdg_command.
destruct (strip_prefix xdg_command v) as [t|] eqn:E; [|apply rmatch_Lit_None; exact E].
apply strip_prefix_Some in E. subst v. apply argument_after_here in H.
rewrite rmatch_Lit_app, rmatch_Seq.
unfold space at 1. rewrite plus_unfold.
destruct t as [|s0 t]; [reflexivity|].
rewrite space_class. destruct (isSpace s0) eqn:Hs0; [|reflexivity].
cbn [starts_with_space] in H. rewrite Hs0 in H. cbn [andb] in H.
apply star_class_None. intros u v -> Hu.
rewrite plus_unfold. destruct v as [|a v]; [reflexivity|].
rewrite arg_class. destruct (isArgChar a) eqn:Ha; [|reflexivity].
exfalso.
assert (isSpace a = false) as Hsp.
{ unfold isArgChar in Ha. apply negb_true_iff in Ha.
  apply orb_false_elim in Ha as [Ha _]. apply orb_false_elim in Ha as [Ha _]. exact Ha. }
change (s0 :: u ++ a :: v) with ((s0 :: u) ++ a :: v) in H.
rewrite trimStart_spaces in H.
- cbn [starts_with_arg] in H. congruence.
- cbn [all_space forallb]. rewrite Hs0. cbn [andb].
  rewrite forallb_forall in *. intros x Hx. rewrite <- space_class. apply Hu, Hx.
- exact Hsp.
Qed.

(** The converse: when some occurrence of the command is followed by
    white space and then a character of an argument, the handler does
    not fail. *)
Lemma xdg_content_matches content desktopFile :
  argument_after content = true ->
  exists next, patchDefaultBrowserContent content desktopFile = Return next.
Proof.
intros H. unfold patchDefaultBrowserContent, replaceOrThrow.
destruct (test xdg_re content) eqn:E; [eexists; reflexivity|].
exfalso. unfold test in E. destruct (exec xdg_re content) as [m|] eqn:Hexec; [discriminate|].
clear E.
assert (forall s before, argument_after s = true -> exec_from xdg_re before s <> None) as Hfrom.
{ clear. induction s as [|a s IH]; intros before H.
  - discriminate H.
  - cbn [argument_after] in H. apply orb_prop in H as [H|H].
    + destruct (strip_prefix xdg_command (a :: s)) as [t|] eqn:E; [|discriminate].
      apply strip_prefix_Some in E. apply andb_prop in H as [Hsp Harg].
      destruct t as [|s0 t]; [discriminate|]. cbn [starts_with_space] in Hsp.
      assert (exists ws tail, s0 :: t = ws ++ tail /\ ws <> [] /\ all_space ws = true
                /\ starts_with_arg tail = true) as (ws & tail & Et & Hne & Hws & Htail).
      { clear -Hsp Harg. revert s0 Hsp Harg. induction t as [|b t IH]; intros s0 Hsp Harg.
        - cbn [trimStart] in Harg. rewrite Hsp in Harg. discriminate.
        - cbn [trimStart] in Harg. rewrite Hsp in Harg.
          destruct (isSpace b) eqn:Hb.
          + destruct (IH b Hb) as (ws & tail & Et & Hne & Hws & Htail).
            { cbn [trimStart]. rewrite Hb. exact Harg. }
            exists (s0 :: ws), tail. rewrite Et. split; [reflexivity|].
            split; [discriminate|]. split; [|exact Htail].
            cbn [all_space forallb]. rewrite Hsp. exact Hws.
          + exists [s0], (b :: t). split; [reflexivity|]. split; [discriminate|].
            split; [cbn; rewrite Hsp; reflexivity|]. exact Harg. }
      destruct tail as [|a0 tail]; [discriminate|]. cbn [starts_with_arg] in Htail.
      assert (exists arg post, a0 :: tail = arg ++ post /\ arg <> []
                /\ forallb isArgChar arg = true /\ starts_with_arg post = false)
        as (arg & post & Earg & Hargne & Harg' & Hpost).
      { clear -Htail. revert a0 Htail. induction tail as [|b tail IH]; intros a0 Ha0.
        - exists [a0], []. repeat split; [discriminate|cbn; rewrite Ha0; reflexivity].
        - destruct (isArgChar b) eqn:Hb.
          + destruct (IH b Hb) as (arg & post & E & Hne & Ha & Hp).
            exists (a0 :: arg), post. rewrite E. repeat split; [discriminate| |exact Hp].
            cbn [forallb]. rewrite Ha0, Ha. reflexivity.
          + exists [a0], (b :: tail). repeat split; [discriminate| |exact Hb].
            cbn. rewrite Ha0. reflexivity. }
      rewrite E, Et, Earg.
      pose proof (xdg_match_here ws arg post Hws Hne Harg' Hargne Hpost before) as Hm.
      destruct (xdg_command ++ ws ++ arg ++ post) as [|c r] eqn:Ec; [discriminate Ec|].
      cbn [exec_from]. change (multiline xdg_re) with false. rewrite Hm. discriminate.
    + cbn [exec_from].
      destruct (rmatch (multiline xdg_re) (pattern xdg_re) Some (MState before (a :: s) ∅));
        [discriminate|].
      apply IH, H. }
apply (Hfrom content [] H). exact Hexec.
Qed.

Lemma argument_after_absent content :
  includes content xdg_command = false -> argument_after content = false.
Proof.
induction content as [|a s IH]; intros H.
- reflexivity.
- cbn [argument_after].
  rewrite (includes_false _ _ [] (a :: s) H eq_refl). cbn [orb].
  apply IH. apply (includes_false_suffix _ (a :: s)); [exact H|].
  apply suffix_cons_r. reflexivity.
Qed.

(** [patchDefaultBrowserController] fails exactly when no occurrence
    of the command in the controller is followed by white space and
    then a character of an argument -- the command is absent, or what
    follows it is a quote, or the end of the text.  It then throws the
    error of [replaceOrThrow] after reading the file, and writes
    nothing. *)
Theorem default_browser_fails_exactly_when
    (repoRoot : string) (content desktopFile : jsstring) (w : world) :
  files w !! controller_ts_of repoRoot = Some content ->
  (argument_after content = false ->
   patchDefaultBrowserController repoRoot desktopFile w
   = (Throw (Error (str "Pattern not found for linux default browser desktop file: "
                      ++ str "/xdg-settings set default-web-browser\s+[^\s"
                      ++ dq :: str "']+/")),
      World (files w) (ReadFile (controller_ts_of repoRoot) :: trace w) (stdout w)))
  /\
  (argument_after content = true ->
   exists changed,
     fst (patchDefaultBrowserController repoRoot desktopFile w)
     = Return {| file := controller_ts_of repoRoot; changed := changed |})
  /\
  (includes content xdg_command = false -> argument_after content = false).
Proof.
intros Hfile. split; [|split; [|apply argument_after_absent]].
- intros Hno. rewrite patchDefaultBrowserController_shape.
  apply (patch_file_throws _ _ w content); [exact Hfile|].
  apply xdg_content_no_argument. exact Hno.
- intros Hyes. destruct (xdg_content_matches content desktopFile Hyes) as [next Hnext].
  rewrite patchDefaultBrowserController_shape.
  eexists. apply (patch_file_result _ _ w content next Hfile Hnext).
Qed.

Lemma default_browser_fails_exactly_when_witness :
  let content := str "exec('xdg-settings set default-web-browser ' + file);" in
  let w := World (<[controller_ts_path := content]> fixture_files) [] [] in
  patchDefaultBrowserController "/repo" (str "acme.desktop") w
  = (Throw (Error (str "Pattern not found for linux default browser desktop file: "
                     ++ str "/xdg-settings set default-web-browser\s+[^\s"
                     ++ dq :: str "']+/")),
     World (files w) [ReadFile controller_ts_path] []).
Proof.
intros content w.
apply (proj1 (default_browser_fails_exactly_when "/repo" content (str "acme.desktop") w
                eq_refl)).
vm_compute. reflexivity.
Defined.

(** ** When the rules of the identity fields fail *)

Section ValueFacts.

Variable ml : bool.

Lemma skip_value_run u v :
  no_quote u = true -> skip_value (u ++ v) = skip_value v.
Proof.
induction u as [|a u IH]; [reflexivity|].
unfold no_quote. cbn [forallb app skip_value]. intros [Ha Hu]%andb_prop.
apply negb_true_iff in Ha. rewrite Ha. apply IH, Hu.
Qed.

Lemma skip_value_split r : exists old, r = old ++ skip_value r /\ no_quote old = true.
Proof.
induction r as [|a r (old & E & Hold)].
- exists []. split; reflexivity.
- cbn [skip_value]. destruct (isQuote a) eqn:Ha.
  + exists []. split; reflexivity.
  + exists (a :: old). split; [cbn [app]; rewrite <- E; reflexivity|].
    unfold no_quote in *. cbn [forallb]. rewrite Ha, Hold. reflexivity.
Qed.

Lemma trimStart_split t : exists ws, t = ws ++ trimStart t /\ all_space ws = true.
Proof.
induction t as [|a t (ws & E & Hws)].
- exists []. split; reflexivity.
- cbn [trimStart]. destruct (isSpace a) eqn:Ha.
  + exists (a :: ws). split; [cbn [app]; rewrite <- E; reflexivity|].
    unfold all_space in *. cbn [forallb]. rewrite Ha, Hws. reflexivity.
  + exists []. split; reflexivity.
Qed.

Lemma trimStart_start t : starts_with_space (trimStart t) = false.
Proof.
induction t as [|a t IH]; [reflexivity|]. cbn [trimStart].
destruct (isSpace a) eqn:Ha; [exact IH|]. cbn [starts_with_space]. exact Ha.
Qed.

(** The shape of a text with a quoted value. *)
Lemma quoted_value_shape t :
  quoted_value t = true ->
  exists q old post,
    t = q :: old ++ q :: post /\ isQuote q = true /\ old <> [] /\ no_quote old = true.
Proof.
destruct t as [|q r]; [discriminate|]. cbn [quoted_value].
intros [[Hq Hfirst]%andb_prop Hclose]%andb_prop.
destruct (skip_value_split r) as (old & E & Hold).
destruct (skip_value r) as [|q' post]; [discriminate|].
apply char_eqb_eq in Hclose. subst q'.
exists q, old, post. split; [rewrite E at 1; reflexivity|]. split; [exact Hq|].
split; [|exact Hold].
intros ->. cbn [app] in E. subst r. rewrite Hq in Hfirst. discriminate.
Qed.

(** The tail [(Q)(N+)(\2)] fails on a text without a quoted value. *)
Lemma quoted_value_tail_fails k c t cp :
  quoted_value t = false -> rmatch ml quoted_value_tail k (MState c t cp) = None.
Proof.
intros H. unfold quoted_value_tail.
rewrite rmatch_Seq, rmatch_Group. unfold quote_char. rewrite rmatch_Class.
destruct t as [|q r]; [reflexivity|].
rewrite quote_class. cbn [quoted_value] in H.
destruct (isQuote q) eqn:Hq; [|reflexivity]. cbn [andb] in H.
cbn [consumed rest caps]. rewrite between_cons.
rewrite rmatch_Seq, rmatch_Group. unfold not_quote_char. rewrite plus_unfold.
destruct r as [|a r]; [reflexivity|].
rewrite not_quote_class. destruct (isQuote a) eqn:Ha; [reflexivity|]. cbn [negb andb] in H.
cbn [skip_value] in H. rewrite Ha in H.
apply star_class_None. intros u v -> Hu.
assert (no_quote u = true) as Hnq.
{ unfold no_quote. rewrite forallb_forall in *. intros x Hx.
  rewrite <- not_quote_class. apply Hu, Hx. }
rewrite skip_value_run in H by exact Hnq.
cbn [consumed rest caps]. rewrite rmatch_Group.
apply rmatch_Backref_None with (p := [q]).
- cbn [caps]. rewrite lookup_insert_ne by discriminate. apply lookup_insert_eq.
- cbn [rest]. destruct v as [|b v]; [reflexivity|].
  cbn [strip_prefix]. destruct (char_eqb q b) eqn:E; [|reflexivity].
  apply char_eqb_eq in E. subst b. cbn [skip_value] in H. rewrite Hq in H.
  rewrite char_eqb_refl in H. discriminate.
Qed.

End ValueFacts.

Section IdentityRule.

Variables (field : jsstring) (re : RegExp.t).

Hypothesis re_pattern :
  pattern re = Seq (Group 1 (Seq WordBoundary (Seq (Lit field) (Star space))))
                 quoted_value_tail.
Hypothesis re_flags : multiline re = false.
Hypothesis field_word : word_after (MState [] field ∅) = true.

Lemma field_word_after c t cp : word_after (MState c (field ++ t) cp) = true.
Proof.
revert field_word. unfold word_after. cbn [rest].
destruct field as [|a f]; [discriminate|]. cbn [app]. intros H. exact H.
Qed.

(** The pattern fails at a position where the field does not start,
    or starts after a word character, or has no quoted value. *)
Lemma identity_rule_fails_here k x :
  negb (word_before x)
  && match strip_prefix field (rest x) with
     | Some t => quoted_value (trimStart t)
     | None => false
     end = false ->
  rmatch false (pattern re) k x = None.
Proof.
intros H. rewrite re_pattern.
rewrite rmatch_Seq, rmatch_Group, rmatch_Seq, rmatch_WordBoundary.
destruct (strip_prefix field (rest x)) as [t|] eqn:E.
- apply strip_prefix_Some in E. destruct x as [c s cp]. cbn [rest] in E. subst s.
  rewrite field_word_after.
  destruct (word_before (MState c (field ++ t) cp)); [reflexivity|].
  cbn [negb andb xorb] in *.
  rewrite rmatch_Seq, rmatch_Lit_app.
  apply star_class_None. intros u v -> Hu. cbn [consumed rest caps].
  apply quoted_value_tail_fails.
  assert (all_space u = true) as Hsp.
  { unfold all_space. rewrite forallb_forall in *. intros y Hy.
    rewrite <- space_class. apply Hu, Hy. }
  destruct (starts_with_space v) eqn:Hv.
  + destruct v as [|b v]; [discriminate|]. cbn [starts_with_space] in Hv.
    cbn [quoted_value].
    destruct (isQuote b) eqn:Hb; [|reflexivity].
    rewrite (quote_not_space b Hb) in Hv. discriminate.
  + rewrite trimStart_spaces in H by assumption. exact H.
- destruct (xorb _ _); [|reflexivity].
  rewrite rmatch_Seq. apply rmatch_Lit_None. exact E.
Qed.

(** The pattern matches at a position where the field starts after a
    character that is not a word character and has a quoted value. *)
Lemma identity_rule_matches_here c t :
  match c with a :: _ => isWordChar a | [] => false end = false ->
  quoted_value (trimStart t) = true ->
  rmatch false (pattern re) Some (MState c (field ++ t) ∅) <> None.
Proof.
intros Hc Hq.
destruct (trimStart_split t) as (ws & Et & Hws).
destruct (quoted_value_shape _ Hq) as (q & old & post & Ev & Hquote & Hne & Hold).
rewrite Ev in Et. rewrite Et.
rewrite re_pattern.
rewrite rmatch_Seq, rmatch_Group, rmatch_Seq, rmatch_WordBoundary.
rewrite field_word_after.
change (word_before (MState c ?s ?cp)) with (match c with a :: _ => isWordChar a | [] => false end).
rewrite Hc. cbn [xorb].
rewrite rmatch_Seq, rmatch_Lit_app.
destruct (rmatch false (Star space) _ _) as [z|] eqn:E; [discriminate|].
exfalso. revert E.
match goal with |- rmatch false (Star space) ?k _ = None -> False =>
  intros E;
  assert (exists z, rmatch false (Star space) k
                      (MState (rev field ++ c) (ws ++ q :: old ++ q :: post) ∅) = Some z)
    as [z Hz]; [|rewrite Hz in E; discriminate]
end.
assert (exists z,
          rmatch false (Star space)
            (fun y => rmatch false quoted_value_tail Some
               (MState (consumed y) (rest y)
                  (<[1 := between (MState c (field ++ ws ++ q :: old ++ q :: post) ∅) y]>
                     (caps y))))
            (MState (rev ws ++ rev field ++ c) (q :: old ++ q :: post) ∅) = Some z) as [z Hz].
{ rewrite star_space_stop by (cbn; apply quote_not_space; exact Hquote).
  cbn [consumed rest caps].
  rewrite quoted_value_tail_match by assumption. eexists. reflexivity. }
exists z. apply star_space_run; [exact Hws|]. exact Hz.
Qed.

Lemma field_quoted_suffix u v : forall prev_word,
  field_quoted field prev_word (u ++ v) = false ->
  negb (word_before (MState (rev u) v ∅) || (match u with [] => prev_word | _ => false end))
  && match strip_prefix field v with
     | Some t => quoted_value (trimStart t)
     | None => false
     end = false.
Proof.
induction u as [|a u IH] using rev_ind; intros prev_word H.
- cbn [app rev] in *. unfold word_before. cbn [consumed orb].
  destruct v as [|b v]; cbn [field_quoted] in H; apply orb_false_elim in H as [H _]; exact H.
- rewrite <- app_assoc in H. cbn [app] in H.
  assert (forall s pw, field_quoted field pw (s ++ a :: v) = false ->
            field_quoted field (isWordChar a) v = false) as Hstep.
  { clear. induction s as [|b s IHs]; intros pw H.
    - cbn [app field_quoted] in H. apply orb_false_elim in H as [_ H]. exact H.
    - cbn [app field_quoted] in H. apply orb_false_elim in H as [_ H]. apply (IHs _ H). }
  apply Hstep in H.
  rewrite rev_app_distr. cbn [rev app]. unfold word_before. cbn [consumed].
  assert (match u ++ [a] with [] => prev_word | _ :: _ => false end = false) as ->
    by (destruct u; reflexivity).
  rewrite orb_false_r.
  destruct v as [|b v]; cbn [field_quoted] in H; apply orb_false_elim in H as [H _]; exact H.
Qed.

Lemma identity_rule_fails content template what :
  field_quoted field false content = false ->
  replaceOrThrow content re template what
  = Throw (Error (str "Pattern not found for " ++ str what ++ str ": " ++ source re)).
Proof.
intros H. unfold replaceOrThrow, test.
rewrite exec_None; [reflexivity|].
intros u v ->. rewrite re_flags. apply identity_rule_fails_here.
pose proof (field_quoted_suffix u v false H) as H0. cbn [rest].
assert (match u with [] => false | _ :: _ => false end = false) as E by (destruct u; reflexivity).
rewrite E, orb_false_r in H0. exact H0.
Qed.

Lemma identity_rule_matches content template what :
  field_quoted field false content = true ->
  exists next, replaceOrThrow content re template what = Return next.
Proof.
intros H. unfold replaceOrThrow.
destruct (test re content) eqn:E; [eexists; reflexivity|].
exfalso. unfold test in E. destruct (exec re content) as [m|] eqn:Hexec; [discriminate|].
clear E.
assert (forall s before,
          field_quoted field (match before with a :: _ => isWordChar a | [] => false end) s
          = true ->
          exec_from re before s <> None) as Hfrom.
{ clear H Hexec. induction s as [|a s IH]; intros before H.
  - cbn [field_quoted] in H. rewrite orb_false_r in H. apply andb_prop in H as [Hw Hq].
    destruct (strip_prefix field []) as [t|] eqn:E; [|discriminate].
    apply strip_prefix_Some in E.
    pose proof (identity_rule_matches_here before t) as Hm.
    rewrite <- E in Hm. cbn [exec_from]. rewrite re_flags.
    destruct (rmatch false (pattern re) Some (MState before [] ∅)); [discriminate|].
    exfalso. apply Hm; [apply negb_true_iff, Hw|exact Hq|reflexivity].
  - cbn [field_quoted] in H. cbn [exec_from]. rewrite re_flags.
    destruct (rmatch false (pattern re) Some (MState before (a :: s) ∅)) eqn:Em;
      [discriminate|].
    apply orb_prop in H as [H|H].
    + apply andb_prop in H as [Hw Hq].
      destruct (strip_prefix field (a :: s)) as [t|] eqn:E; [|discriminate].
      apply strip_prefix_Some in E.
      pose proof (identity_rule_matches_here before t) as Hm.
      rewrite <- E in Hm. exfalso.
      apply Hm; [apply negb_true_iff, Hw|exact Hq|exact Em].
    + apply (IH (a :: before)). exact H. }
apply (Hfrom content [] H). exact Hexec.
Qed.

End IdentityRule.

Lemma field_quoted_absent field s : forall prev_word,
  includes s field = false -> field_quoted field prev_word s = false.
Proof.
induction s as [|a s IH]; intros prev_word H.
- cbn [field_quoted]. rewrite (includes_false _ _ [] [] H eq_refl), andb_false_r. reflexivity.
- cbn [field_quoted].
  rewrite (includes_false _ _ [] (a :: s) H eq_refl), andb_false_r. cbn [orb].
  apply IH. apply (includes_false_suffix _ (a :: s)); [exact H|].
  apply suffix_cons_r. reflexivity.
Qed.

(** The rules of [appId] and [productName] fail exactly when no
    occurrence of the field name stands after a character that is not
    a word character and is followed by white space, if any, and a
    non-empty value between two equal quotes -- in particular when the
    name does not occur.  [patchElectronBuilderTs] then throws the
    error of [replaceOrThrow] for the first rule that fails, after
    reading the file, and writes nothing. *)
Theorem builder_identity_rules_fail_exactly_when
    (repoRoot : string) (content appId productName executableName : jsstring) (w : world) :
  files w !! builder_ts_of repoRoot = Some content ->
  (field_quoted (str "appId:") false content = false ->
   patchElectronBuilderTs repoRoot appId productName executableName w
   = (Throw (Error (str "Pattern not found for electron-builder appId: "
                      ++ source app_id_re)),
      World (files w) (ReadFile (builder_ts_of repoRoot) :: trace w) (stdout w)))
  /\
  (field_quoted (str "appId:") false content = true ->
   exists content1,
     replaceOrThrow content app_id_re (str "$1" ++ dq :: appId ++ dq :: str "$4")
       "electron-builder appId" = Return content1
     /\ (field_quoted (str "productName:") false content1 = false ->
         patchElectronBuilderTs repoRoot appId productName executableName w
         = (Throw (Error (str "Pattern not found for electron-builder productName: "
                            ++ source product_name_re)),
            World (files w) (ReadFile (builder_ts_of repoRoot) :: trace w) (stdout w)))
     /\ (field_quoted (str "productName:") false content1 = true ->
         exists content2,
           replaceOrThrow content1 product_name_re
             (str "$1" ++ dq :: productName ++ dq :: str "$4")
             "electron-builder productName" = Return content2))
  /\
  (forall field s, includes s field = false -> field_quoted field false s = false).
Proof.
intros Hfile. split; [|split].
- intros Hno. apply (patchElectronBuilderTs_throws _ _ _ _ _ content); [exact Hfile|].
  unfold patchElectronBuilderContent, patchBuilderFields.
  rewrite (identity_rule_fails (str "appId:") app_id_re eq_refl eq_refl eq_refl _ _ _ Hno).
  reflexivity.
- intros Hyes.
  destruct (identity_rule_matches (str "appId:") app_id_re eq_refl eq_refl eq_refl content
              (str "$1" ++ dq :: appId ++ dq :: str "$4") "electron-builder appId" Hyes)
    as [content1 H1].
  exists content1. split; [exact H1|]. split.
  + intros Hno. apply (patchElectronBuilderTs_throws _ _ _ _ _ content); [exact Hfile|].
    unfold patchElectronBuilderContent, patchBuilderFields. rewrite H1. cbn [obind].
    rewrite (identity_rule_fails (str "productName:") product_name_re
               eq_refl eq_refl eq_refl _ _ _ Hno).
    reflexivity.
  + intros Hyes1.
    apply (identity_rule_matches (str "productName:") product_name_re
             eq_refl eq_refl eq_refl content1 _ _ Hyes1).
- intros field s. apply field_quoted_absent.
Qed.

Lemma builder_identity_rules_fail_exactly_when_witness :
  let content := str "export default { appId: process.env.APP_ID, productName: 'Flow' };" in
  let w := World (<[builder_ts_path := content]> fixture_files) [] [] in
  patchElectronBuilderTs "/repo" (str "dev.sun.acme") (str "Acme") (str "acme") w
  = (Throw (Error (str "Pattern not found for electron-builder appId: "
                     ++ source app_id_re)),
     World (files w) [ReadFile builder_ts_path] []).
Proof.
intros content w.
apply (proj1 (builder_identity_rules_fail_exactly_when "/repo" content
                (str "dev.sun.acme") (str "Acme") (str "acme") w eq_refl)).
vm_compute. reflexivity.
Defined.

(** ** The four handlers together *)

Lemma path_join_inj dir rel rel' : path_join dir rel = path_join dir rel' -> rel = rel'.
Proof.
intros H. rewrite <- (path_relative_join dir rel), H. apply path_relative_join.
Qed.

Lemma patch_file_step path f w prev next :
  files w !! path = Some prev -> f prev = Return next ->
  exists w',
    patch_file path f w
    = (Return {| file := path; changed := negb (JsString.eqb prev next) |}, w')
    /\ files w' = <[path := next]> (files w).
Proof.
intros H Hf. destruct (patch_file_result path f w prev next H Hf) as [Hr Hfiles].
destruct (patch_file path f w) as [r w'] eqn:E. cbn [fst snd] in *.
exists w'. rewrite Hr. split; [reflexivity|exact Hfiles].
Qed.

(** The handlers work on their files independently: when the four
    files exist and the four rewritings succeed, [main] returns the
    four results in order, each file holds the rewriting of its own
    old text, and a change is reported for a file exactly when that
    rewriting differs from the old text. *)
Theorem main_rewrites_each_file
    (env : gmap string jsstring) (cwd : string) (id : Identity) (w : world)
    (t1 t2 t3 t4 n1 n2 n3 : jsstring) :
  resolveIdentity env = Return id ->
  files w !! package_json_of cwd = Some t1 ->
  files w !! builder_ts_of cwd = Some t2 ->
  files w !! controller_ts_of cwd = Some t3 ->
  files w !! index_ts_of cwd = Some t4 ->
  patchPackageJsonContent t1 (packageName id) (productName id) = Return n1 ->
  patchElectronBuilderContent t2 (appId id) (productName id) (appSlug id) = Return n2 ->
  patchDefaultBrowserContent t3 (desktopFile id) = Return n3 ->
  let n4 := patchMainHeaderContent t4 (productName id) in
  fst (main env cwd w)
  = Return [ {| file := package_json_of cwd; changed := negb (JsString.eqb t1 n1) |};
             {| file := builder_ts_of cwd; changed := negb (JsString.eqb t2 n2) |};
             {| file := controller_ts_of cwd; changed := negb (JsString.eqb t3 n3) |};
             {| file := index_ts_of cwd; changed := negb (JsString.eqb t4 n4) |} ]
  /\ files (snd (main env cwd w))
     = <[index_ts_of cwd := n4]>
         (<[controller_ts_of cwd := n3]>
            (<[builder_ts_of cwd := n2]>
               (<[package_json_of cwd := n1]> (files w)))).
Proof.
intros Hid H1 H2 H3 H4 Hn1 Hn2 Hn3 n4.
assert (package_json_of cwd <> builder_ts_of cwd) as D12
  by (intros E; apply path_join_inj in E; discriminate E).
assert (package_json_of cwd <> controller_ts_of cwd) as D13
  by (intros E; apply path_join_inj in E; discriminate E).
assert (package_json_of cwd <> index_ts_of cwd) as D14
  by (intros E; apply path_join_inj in E; discriminate E).
assert (builder_ts_of cwd <> controller_ts_of cwd) as D23
  by (intros E; apply path_join_inj in E; discriminate E).
assert (builder_ts_of cwd <> index_ts_of cwd) as D24
  by (intros E; apply path_join_inj in E; discriminate E).
assert (controller_ts_of cwd <> index_ts_of cwd) as D34
  by (intros E; apply path_join_inj in E; discriminate E).
rewrite main_run, Hid. unfold runHandlers, bind.
rewrite patchPackageJson_shape.
destruct (patch_file_step (package_json_of cwd)
            (fun text => patchPackageJsonContent text (packageName id) (productName id))
            w t1 n1 H1 Hn1) as (w1 & -> & F1).
rewrite patchElectronBuilderTs_shape.
assert (files w1 !! builder_ts_of cwd = Some t2) as H2'
  by (rewrite F1, lookup_insert_ne by exact D12; exact H2).
destruct (patch_file_step (builder_ts_of cwd)
            (fun content => patchElectronBuilderContent content (appId id) (productName id)
                              (appSlug id))
            w1 t2 n2 H2' Hn2) as (w2 & -> & F2).
rewrite patchDefaultBrowserController_shape.
assert (files w2 !! controller_ts_of cwd = Some t3) as H3'
  by (rewrite F2, lookup_insert_ne, F1, lookup_insert_ne by assumption; exact H3).
destruct (patch_file_step (controller_ts_of cwd)
            (fun content => patchDefaultBrowserContent content (desktopFile id))
            w2 t3 n3 H3' Hn3) as (w3 & -> & F3).
rewrite patchMainHeader_shape.
assert (files w3 !! index_ts_of cwd = Some t4) as H4'
  by (rewrite F3, lookup_insert_ne, F2, lookup_insert_ne, F1, lookup_insert_ne by assumption;
      exact H4).
destruct (patch_file_step (index_ts_of cwd)
            (fun content => Return (patchMainHeaderContent content (productName id)))
            w3 t4 n4 H4' eq_refl) as (w4 & -> & F4).
cbn [ret fst snd files]. split; [reflexivity|].
rewrite F4, F3, F2, F1. reflexivity.
Qed.

Lemma main_rewrites_each_file_witness :
  fst (main fixture_env "/repo" fixture_world)
  = Return [ {| file := package_json_path; changed := true |};
             {| file := builder_ts_path; changed := true |};
             {| file := controller_ts_path; changed := true |};
             {| file := index_ts_path; changed := true |} ]
  /\ files (snd (main fixture_env "/repo" fixture_world)) !! index_ts_path
     = Some (lines [str "console.log(" ++ quoted "--- Acme Browser ---" ++ str ");"]).
Proof.
destruct (patchPackageJsonContent fixture_package_json (str "acme-browser") (str "Acme Browser"))
  as [n1|] eqn:E1; [|exfalso; vm_compute in E1; discriminate E1].
destruct (patchElectronBuilderContent fixture_builder_ts (str "dev.sun.acme")
            (str "Acme Browser") (str "acme"))
  as [n2|] eqn:E2; [|exfalso; vm_compute in E2; discriminate E2].
destruct (patchDefaultBrowserContent fixture_controller_ts (str "acme.desktop"))
  as [n3|] eqn:E3; [|exfalso; vm_compute in E3; discriminate E3].
assert (resolveIdentity fixture_env = Return fixture_identity) as Hid by (vm_compute; reflexivity).
destruct (main_rewrites_each_file fixture_env "/repo" fixture_identity fixture_world
            fixture_package_json fixture_builder_ts fixture_controller_ts fixture_index_ts
            n1 n2 n3 Hid eq_refl eq_refl eq_refl eq_refl E1 E2 E3) as [Hr Hf].
split.
- rewrite Hr. vm_compute in E1, E2, E3. injection E1 as <-. injection E2 as <-.
  injection E3 as <-. vm_compute. reflexivity.
- rewrite Hf. apply lookup_insert_eq.
Defined.

(** ** The rules of the identity fields on a well-formed field *)

(** When the first occurrence of [appId:] (of [productName:]) stands
    at a word boundary and is followed by white space, if any, and a
    non-empty value between two quotes [q], the rule puts the new
    value -- a text without a dollar sign -- between two double quotes
    in the place of the old value and its opening quote, and keeps the
    old closing quote after them, whatever [q] is.  Applied to its own
    output, for a new value that is not empty and has no quote
    character in it, the [appId] rule therefore adds one more double
    quote. *)
Theorem identity_rules_keep_closing_quote
    (content pre ws old post : jsstring) (q : char) (value : jsstring) :
  ends_with_word pre = false -> all_space ws = true ->
  isQuote q = true -> old <> [] -> no_quote old = true -> no_dollar value = true ->
  (find (str "appId:") content = Some (pre, ws ++ q :: old ++ q :: post) ->
   replaceOrThrow content app_id_re (str "$1" ++ dq :: value ++ dq :: str "$4")
     "electron-builder appId"
   = Return (pre ++ str "appId:" ++ ws ++ dq :: value ++ dq :: q :: post))
  /\
  (find (str "productName:") content = Some (pre, ws ++ q :: old ++ q :: post) ->
   replaceOrThrow content product_name_re (str "$1" ++ dq :: value ++ dq :: str "$4")
     "electron-builder productName"
   = Return (pre ++ str "productName:" ++ ws ++ dq :: value ++ dq :: q :: post))
  /\
  (find (str "appId:") content = Some (pre, ws ++ q :: old ++ q :: post) ->
   value <> [] -> no_quote value = true ->
   replaceOrThrow (pre ++ str "appId:" ++ ws ++ dq :: value ++ dq :: q :: post) app_id_re
     (str "$1" ++ dq :: value ++ dq :: str "$4") "electron-builder appId"
   = Return (pre ++ str "appId:" ++ ws ++ dq :: value ++ dq :: dq :: q :: post)).
Proof.
intros Hpre Hws Hq Hold Hnq Hvalue. split; [|split].
- intros Hfind. apply (app_id_rewritten content pre ws old post q value); assumption.
- intros Hfind. apply (product_name_rewritten content pre ws old post q value); assumption.
- intros Hfind Hne Hvq.
  apply (app_id_rewritten _ pre ws value (q :: post) dq value); try assumption; try reflexivity.
  apply (find_tail _ _ _ _ (ws ++ dq :: value ++ dq :: q :: post)) in Hfind. exact Hfind.
Qed.

Lemma identity_rules_keep_closing_quote_witness :
  replaceOrThrow (str "  appId: 'dev.sun.flow',") app_id_re
    (str "$1" ++ dq :: str "dev.sun.acme" ++ dq :: str "$4") "electron-builder appId"
  = Return (str "  appId: " ++ quoted "dev.sun.acme" ++ str "',").
Proof.
apply (proj1 (identity_rules_keep_closing_quote (str "  appId: 'dev.sun.flow',")
                (str "  ") (str " ") (str "dev.sun.flow") (str ",") (ch "'")
                (str "dev.sun.acme") eq_refl eq_refl eq_refl ltac:(discriminate)
                eq_refl eq_refl)).
vm_compute. reflexivity.
Defined.

(** ** Where a pattern matches *)

Section ScanFacts.

Variable here : bool -> jsstring -> bool.

Lemma word_at_end_snoc u a pw : word_at_end (u ++ [a]) pw = isWordChar a.
Proof. unfold word_at_end. rewrite rev_app_distr. reflexivity. Qed.

Lemma word_at_end_cons a u pw : word_at_end (a :: u) pw = word_at_end u (isWordChar a).
Proof.
unfold word_at_end. cbn [rev]. destruct (rev u) as [|b r]; reflexivity.
Qed.

Lemma scan_suffix u : forall v pw,
  scan here pw (u ++ v) = false -> here (word_at_end u pw) v = false.
Proof.
induction u as [|a u IH]; intros v pw H.
- cbn [app] in H. destruct v; cbn [scan] in H; apply orb_false_elim in H as [H _]; exact H.
- cbn [app scan] in H. apply orb_false_elim in H as [_ H].
  rewrite word_at_end_cons. apply IH, H.
Qed.

Lemma scan_true s : forall pw,
  scan here pw s = true ->
  exists u v, s = u ++ v /\ here (word_at_end u pw) v = true.
Proof.
induction s as [|a s IH]; intros pw H.
- cbn [scan] in H. rewrite orb_false_r in H. exists [], []. split; [reflexivity|exact H].
- cbn [scan] in H. apply orb_prop in H as [H|H].
  + exists [], (a :: s). split; [reflexivity|exact H].
  + destruct (IH _ H) as (u & v & -> & Hv). exists (a :: u), v.
    split; [reflexivity|]. rewrite word_at_end_cons. exact Hv.
Qed.

Lemma scan_intro u v pw : here (word_at_end u pw) v = true -> scan here pw (u ++ v) = true.
Proof.
revert pw. induction u as [|a u IH]; intros pw H.
- cbn [app]. destruct v; cbn [scan]; unfold word_at_end in H; cbn [rev] in H; rewrite H;
    reflexivity.
- cbn [app scan]. rewrite word_at_end_cons in H. rewrite (IH _ H). apply orb_true_r.
Qed.

Variable re : RegExp.t.

Lemma word_before_at_end u v cp : word_before (MState (rev u) v cp) = word_at_end u false.
Proof. reflexivity. Qed.

Lemma exec_scan_None content :
  (forall k x, here (word_before x) (rest x) = false ->
     rmatch (multiline re) (pattern re) k x = None) ->
  scan here false content = false -> exec re content = None.
Proof.
intros Hre H. apply exec_None. intros u v ->. apply Hre.
cbn [rest]. rewrite word_before_at_end. apply scan_suffix, H.
Qed.

Lemma exec_scan_Some content :
  (forall c s, here (match c with a :: _ => isWordChar a | [] => false end) s = true ->
     rmatch (multiline re) (pattern re) Some (MState c s ∅) <> None) ->
  scan here false content = true -> exec re content <> None.
Proof.
intros Hre.
assert (forall s before,
          scan here (match before with a :: _ => isWordChar a | [] => false end) s = true ->
          exec_from re before s <> None) as Hfrom.
{ induction s as [|a s IH]; intros before H.
  - cbn [scan] in H. rewrite orb_false_r in H. apply Hre in H. cbn [exec_from].
    destruct (rmatch (multiline re) (pattern re) Some (MState before [] ∅));
      [discriminate|contradiction].
  - cbn [exec_from].
    destruct (rmatch (multiline re) (pattern re) Some (MState before (a :: s) ∅)) eqn:E;
      [discriminate|].
    cbn [scan] in H. apply orb_prop in H as [H|H].
    + apply Hre in H. contradiction.
    + apply (IH (a :: before)). exact H. }
intros H. apply (Hfrom content []). exact H.
Qed.

End ScanFacts.

(** ** The head of the executable-name patterns *)

Lemma linux_block_spec ml k c s cp :
  rmatch ml linux_block k (MState c s cp)
  = if negb (false && word_before (MState c s cp)) then
      match strip_prefix (str "linux:") s with
      | Some t => k (MState (rev (str "linux:") ++ c) t cp)
      | None => None
      end
    else None.
Proof. reflexivity. Qed.

Lemma win_block_spec ml k c s cp :
  rmatch ml win_block k (MState c s cp)
  = if negb (true && word_before (MState c s cp)) then
      match strip_prefix (str "win:") s with
      | Some t => k (MState (rev (str "win:") ++ c) t cp)
      | None => None
      end
    else None.
Proof.
unfold win_block. rewrite rmatch_Seq, rmatch_WordBoundary. cbn [andb].
destruct (strip_prefix (str "win:") s) as [t|] eqn:E.
- apply strip_prefix_Some in E. subst s.
  change (word_after (MState c (str "win:" ++ t) cp)) with true.
  destruct (word_before _); cbn [xorb negb]; [reflexivity|].
  apply rmatch_Lit_app.
- rewrite (rmatch_Lit_None ml (str "win:") k (MState c s cp) E).
  destruct (xorb _ _), (negb _); reflexivity.
Qed.

Section HeadFacts.

Variable ml : bool.
Variables (block : regex) (name : jsstring) (boundary : bool).

Hypothesis block_spec : forall k c s cp,
  rmatch ml block k (MState c s cp)
  = if negb (boundary && word_before (MState c s cp)) then
      match strip_prefix name s with
      | Some t => k (MState (rev name ++ c) t cp)
      | None => None
      end
    else None.

Variables (K : mstate -> option mstate) (ok : jsstring -> bool).

Lemma all_space_class u :
  forallb (class_matches false [CSpace]) u = true -> all_space u = true.
Proof.
intros H. unfold all_space. rewrite forallb_forall in *. intros y Hy.
rewrite <- space_class. apply H, Hy.
Qed.

Lemma word_before_after_brace u c s cp :
  word_before (MState (rev u ++ ch "{" :: c) s cp) = word_at_end u false.
Proof.
unfold word_before, word_at_end. cbn [consumed]. destruct (rev u); reflexivity.
Qed.

Section Fails.

Hypothesis K_needs : forall y, ok (rest y) = false -> K y = None.
Hypothesis ok_no_space : forall t, starts_with_space t = true -> ok t = false.

(** At a position where the field does not start at a word boundary
    with an accepted text after it, the pattern of the field fails. *)
Lemma field_part_fails c s cp :
  field_here ok (word_before (MState c s cp)) s = false ->
  rmatch ml (Seq WordBoundary (Seq (Lit (str "executableName:")) (Star space))) K
    (MState c s cp) = None.
Proof.
intros H. unfold field_here in H. rewrite rmatch_Seq, rmatch_WordBoundary.
change (str "executableName:") with exe_field.
destruct (strip_prefix exe_field s) as [t|] eqn:E.
- apply strip_prefix_Some in E. subst s.
  change (word_after (MState c (exe_field ++ t) cp)) with true.
  destruct (word_before _); [reflexivity|]. cbn [negb andb xorb] in *.
  rewrite rmatch_Seq, rmatch_Lit_app.
  apply star_class_None. intros u v -> Hu. apply K_needs. cbn [rest].
  destruct (starts_with_space v) eqn:Hv; [apply ok_no_space, Hv|].
  rewrite trimStart_spaces in H by (try apply all_space_class; assumption). exact H.
- destruct (xorb _ _); [|reflexivity].
  rewrite rmatch_Seq. apply rmatch_Lit_None. exact E.
Qed.

(** At a position where the block does not start with its brace and
    the field after it, the head fails. *)
Lemma head_fails c s cp :
  block_here name boundary (scan (field_here ok) false) (word_before (MState c s cp)) s
  = false ->
  rmatch ml (exec_name_head block) K (MState c s cp) = None.
Proof.
intros H. unfold block_here in H. unfold exec_name_head.
rewrite rmatch_Seq, block_spec.
destruct (negb (boundary && word_before (MState c s cp))); [|reflexivity].
cbn [andb] in H.
destruct (strip_prefix name s) as [t|]; [|reflexivity].
rewrite rmatch_Seq. apply star_class_None. intros u v -> Hu.
apply all_space_class in Hu.
rewrite rmatch_Seq. destruct v as [|b v]; [apply rmatch_Lit_None; reflexivity|].
destruct (char_eqb (ch "{") b) eqn:Hb.
- apply char_eqb_eq in Hb. subst b.
  rewrite trimStart_spaces in H by (try exact Hu; reflexivity).
  rewrite char_eqb_refl in H. cbn [andb] in H.
  change (ch "{" :: v) with (str "{" ++ v). rewrite rmatch_Lit_app.
  rewrite rmatch_Seq. apply lazy_star_None. intros u' v' ->.
  apply field_part_fails.
  change (rev (str "{") ++ rev u ++ rev name ++ c) with (ch "{" :: rev u ++ rev name ++ c).
  rewrite word_before_after_brace. apply (scan_suffix _ u' v' false H).
- apply rmatch_Lit_None. cbn [rest].
  change (strip_prefix (str "{") (b :: v))
    with (if char_eqb (ch "{") b then Some v else None).
  rewrite Hb. reflexivity.
Qed.

End Fails.

Section Matches.

Hypothesis K_accepts : forall y,
  ok (rest y) = true -> starts_with_space (rest y) = false -> K y <> None.

Lemma lazy_star_Some k u : forall c v cp,
  k (MState (rev u ++ c) v cp) <> None ->
  rmatch ml (LazyStar anychar) k (MState c (u ++ v) cp) <> None.
Proof.
induction u as [|a u IH]; intros c v cp H.
- unfold anychar. rewrite lazy_star_unfold. cbn [rev app] in *.
  destruct (k (MState c v cp)); [discriminate|contradiction].
- unfold anychar. rewrite lazy_star_unfold. cbn [app].
  destruct (k (MState c (a :: u ++ v) cp)); [discriminate|].
  rewrite anychar_class. apply IH. cbn [rev] in H. rewrite <- app_assoc in H. exact H.
Qed.

Lemma star_space_Some k ws c t cp :
  all_space ws = true -> starts_with_space t = false ->
  k (MState (rev ws ++ c) t cp) <> None ->
  rmatch ml (Star space) k (MState c (ws ++ t) cp) <> None.
Proof.
intros Hws Ht Hk. destruct (k (MState (rev ws ++ c) t cp)) as [z|] eqn:E; [|contradiction].
rewrite (star_space_run ml k ws z); [discriminate|exact Hws|].
rewrite star_space_stop by exact Ht. exact E.
Qed.

Lemma field_part_matches c s cp :
  field_here ok (word_before (MState c s cp)) s = true ->
  rmatch ml (Seq WordBoundary (Seq (Lit (str "executableName:")) (Star space))) K
    (MState c s cp) <> None.
Proof.
unfold field_here. intros [Hw Hok]%andb_prop. apply negb_true_iff in Hw.
change (str "executableName:") with exe_field.
destruct (strip_prefix exe_field s) as [t|] eqn:E; [|discriminate].
apply strip_prefix_Some in E. subst s.
rewrite rmatch_Seq, rmatch_WordBoundary, Hw.
change (word_after (MState c (exe_field ++ t) cp)) with true. cbn [xorb].
rewrite rmatch_Seq, rmatch_Lit_app.
destruct (trimStart_split t) as (ws & Et & Hws). rewrite Et.
apply star_space_Some; [exact Hws|apply trimStart_start|].
apply K_accepts; [exact Hok|apply trimStart_start].
Qed.

Lemma head_matches c s cp :
  block_here name boundary (scan (field_here ok) false) (word_before (MState c s cp)) s
  = true ->
  rmatch ml (exec_name_head block) K (MState c s cp) <> None.
Proof.
unfold block_here. intros [Hb H]%andb_prop. unfold exec_name_head.
rewrite rmatch_Seq, block_spec, Hb.
destruct (strip_prefix name s) as [t|]; [|discriminate].
destruct (trimStart_split t) as (ws & Et & Hws).
destruct (trimStart t) as [|b body] eqn:Etrim; [discriminate|].
apply andb_prop in H as [Hbrace Hbody]. apply char_eqb_eq in Hbrace. subst b.
rewrite Et, rmatch_Seq.
apply star_space_Some; [exact Hws|reflexivity|].
rewrite rmatch_Seq. change (ch "{" :: body) with (str "{" ++ body). rewrite rmatch_Lit_app.
rewrite rmatch_Seq.
destruct (scan_true _ body false Hbody) as (u & v & -> & Hv).
apply lazy_star_Some. apply field_part_matches.
change (rev (str "{") ++ rev ws ++ rev name ++ c) with (ch "{" :: rev ws ++ rev name ++ c).
rewrite word_before_after_brace. exact Hv.
Qed.

End Matches.

End HeadFacts.

(** A greedy quantifier on a class succeeds when the continuation
    succeeds after some run of characters of the class. *)
Lemma star_class_Some ml negated items k u : forall c v cp,
  forallb (class_matches negated items) u = true ->
  k (MState (rev u ++ c) v cp) <> None ->
  rmatch ml (Star (Class negated items)) k (MState c (u ++ v) cp) <> None.
Proof.
induction u as [|a u IH]; intros c v cp Hu Hk; rewrite star_unfold.
- cbn [rev app] in *. destruct v as [|b v]; [exact Hk|].
  destruct (class_matches negated items b); [|exact Hk].
  destruct (rmatch ml (Star (Class negated items)) k (MState (b :: c) v cp));
    [discriminate|exact Hk].
- cbn [forallb] in Hu. apply andb_prop in Hu as [Ha Hu]. cbn [app]. rewrite Ha.
  cbn [rev] in Hk. rewrite <- app_assoc in Hk.
  pose proof (IH (a :: c) v cp Hu Hk) as H.
  destruct (rmatch ml (Star (Class negated items)) k (MState (a :: c) (u ++ v) cp));
    [discriminate|contradiction].
Qed.

(** ** Where the executable-name patterns match *)

Section ExecNamePatterns.

Variables (block : regex) (name : jsstring) (boundary : bool).

Hypothesis block_spec : forall k c s cp,
  rmatch true block k (MState c s cp)
  = if negb (boundary && word_before (MState c s cp)) then
      match strip_prefix name s with
      | Some t => k (MState (rev name ++ c) t cp)
      | None => None
      end
    else None.

Lemma quote_not_after_space t : starts_with_space t = true -> starts_with_quote t = false.
Proof.
destruct t as [|b t]; [reflexivity|]. cbn [starts_with_space starts_with_quote].
intros Hb. destruct (isQuote b) eqn:Hq; [|reflexivity].
rewrite (quote_not_space b Hq) in Hb. discriminate.
Qed.

Lemma value_not_after_space t : starts_with_space t = true -> quoted_value t = false.
Proof.
destruct t as [|b t]; [reflexivity|]. cbn [starts_with_space quoted_value].
intros Hb. destruct (isQuote b) eqn:Hq; [|reflexivity].
rewrite (quote_not_space b Hq) in Hb. discriminate.
Qed.

(** The test pattern, the head and a quote character, matches
    exactly when some block has the field followed by a quote. *)
Lemma exec_name_test src content :
  test (Make src true (Seq (exec_name_head block) quote_char)) content
  = scan (block_here name boundary (scan (field_here starts_with_quote) false)) false content.
Proof.
unfold test.
destruct (scan _ false content) eqn:H.
- pose proof (exec_scan_Some
                (block_here name boundary (scan (field_here starts_with_quote) false))
                (Make src true (Seq (exec_name_head block) quote_char)) content) as Hex.
  destruct (exec _ content); [reflexivity|]. exfalso. apply Hex; [|exact H|reflexivity].
  intros c s Hs. cbn [multiline pattern]. rewrite rmatch_Seq.
  apply (head_matches true block name boundary block_spec _ starts_with_quote);
    [|exact Hs].
  intros [c' s' cp'] Hq _. cbn [rest] in Hq. unfold quote_char. rewrite rmatch_Class.
  destruct s' as [|q s']; [discriminate|]. cbn [starts_with_quote] in Hq.
  rewrite quote_class, Hq. discriminate.
- rewrite (exec_scan_None
             (block_here name boundary (scan (field_here starts_with_quote) false))
             (Make src true (Seq (exec_name_head block) quote_char)) content);
    [reflexivity| |exact H].
  intros k [c s cp] Hs. cbn [multiline pattern rest] in *. rewrite rmatch_Seq.
  apply (head_fails true block name boundary block_spec _ starts_with_quote);
    [|apply quote_not_after_space|exact Hs].
  intros [c' s' cp'] Hq. cbn [rest] in Hq. unfold quote_char. rewrite rmatch_Class.
  destruct s' as [|q s']; [reflexivity|]. cbn [starts_with_quote] in Hq.
  rewrite quote_class, Hq. reflexivity.
Qed.

(** The replacing pattern, the head and a quoted value, matches
    exactly when some block has the field followed by a quoted
    value. *)
Lemma exec_name_exec_None src content :
  scan (block_here name boundary (scan (field_here quoted_value) false)) false content = false ->
  exec (Make src true (Seq (Group 1 (exec_name_head block)) quoted_value_tail)) content = None.
Proof.
intros H.
apply (exec_scan_None (block_here name boundary (scan (field_here quoted_value) false))
         _ content); [|exact H].
intros k [c s cp] Hs. cbn [multiline pattern rest] in *. rewrite rmatch_Seq, rmatch_Group.
apply (head_fails true block name boundary block_spec _ quoted_value);
  [|apply value_not_after_space|exact Hs].
intros [c' s' cp'] Hq. cbn [rest consumed caps] in *. apply quoted_value_tail_fails, Hq.
Qed.

Lemma exec_name_exec_Some src content :
  scan (block_here name boundary (scan (field_here quoted_value) false)) false content = true ->
  exec (Make src true (Seq (Group 1 (exec_name_head block)) quoted_value_tail)) content <> None.
Proof.
intros H.
apply (exec_scan_Some (block_here name boundary (scan (field_here quoted_value) false))
         _ content); [|exact H].
intros c s Hs. cbn [multiline pattern]. rewrite rmatch_Seq, rmatch_Group.
apply (head_matches true block name boundary block_spec _ quoted_value); [|exact Hs].
intros [c' s' cp'] Hq _. cbn [rest consumed caps] in *.
destruct (quoted_value_shape _ Hq) as (q & old & post & -> & Hquote & Hne & Hold).
rewrite quoted_value_tail_match by assumption. discriminate.
Qed.

End ExecNamePatterns.

(** ** The opening of the Linux block *)

Lemma space_run_newline ws r :
  all_space ws = true -> space_run_has_newline (ws ++ nl :: r) = true.
Proof.
induction ws as [|a ws IH]; intros H.
- reflexivity.
- cbn [all_space forallb] in H. apply andb_prop in H as [Ha H].
  cbn [app space_run_has_newline]. rewrite Ha, (IH H). apply orb_true_r.
Qed.

Lemma space_run_split s :
  space_run_has_newline s = true -> exists ws r, s = ws ++ nl :: r /\ all_space ws = true.
Proof.
induction s as [|a s IH]; [discriminate|]. cbn [space_run_has_newline].
intros [Ha H]%andb_prop. apply orb_prop in H as [H|H].
- apply char_eqb_eq in H. subst a. exists [], s. split; reflexivity.
- destruct (IH H) as (ws & r & -> & Hws). exists (a :: ws), r. split; [reflexivity|].
  cbn [all_space forallb]. rewrite Ha. exact Hws.
Qed.

Lemma class_all_space u : all_space u = true -> forallb (class_matches false [CSpace]) u = true.
Proof.
unfold all_space. rewrite !forallb_forall. intros H y Hy. rewrite space_class. apply H, Hy.
Qed.

Lemma linux_open_test content : test linux_open_re content = linux_has_opening content.
Proof.
unfold test, linux_has_opening.
destruct (scan _ false content) eqn:H.
- pose proof (exec_scan_Some (block_here (str "linux:") false space_run_has_newline)
                linux_open_re content) as Hex.
  destruct (exec _ content); [reflexivity|]. exfalso. apply Hex; [|exact H|reflexivity].
  clear. intros c s Hs. unfold block_here in Hs. cbn [negb andb] in Hs.
  cbn [multiline pattern linux_open_re]. rewrite rmatch_Group, rmatch_Seq.
  destruct (strip_prefix (str "linux:") s) as [t|] eqn:E; [|discriminate].
  apply strip_prefix_Some in E. subst s. rewrite rmatch_Lit_app, rmatch_Seq.
  destruct (trimStart_split t) as (ws & Et & Hws).
  destruct (trimStart t) as [|b body]; [discriminate|].
  apply andb_prop in Hs as [Hb Hbody]. apply char_eqb_eq in Hb. subst b.
  rewrite Et. apply star_class_Some; [apply class_all_space, Hws|].
  rewrite rmatch_Seq. change (ch "{" :: body) with (str "{" ++ body).
  rewrite rmatch_Lit_app, rmatch_Seq.
  destruct (space_run_split _ Hbody) as (ws1 & r & -> & Hws1).
  apply star_class_Some; [apply class_all_space, Hws1|].
  change (nl :: r) with ([nl] ++ r). rewrite rmatch_Lit_app. discriminate.
- rewrite (exec_scan_None (block_here (str "linux:") false space_run_has_newline)
             linux_open_re content); [reflexivity| |exact H].
  clear. intros k [c s cp] Hs. unfold block_here in Hs. cbn [negb andb rest] in Hs.
  cbn [multiline pattern linux_open_re]. rewrite rmatch_Group, rmatch_Seq.
  destruct (strip_prefix (str "linux:") s) as [t|] eqn:E;
    [|apply rmatch_Lit_None; exact E].
  apply strip_prefix_Some in E. subst s. rewrite rmatch_Lit_app, rmatch_Seq.
  apply star_class_None. intros u v -> Hu. apply all_space_class in Hu.
  rewrite rmatch_Seq. destruct v as [|b v]; [apply rmatch_Lit_None; reflexivity|].
  destruct (char_eqb (ch "{") b) eqn:Hb.
  + apply char_eqb_eq in Hb. subst b.
    rewrite trimStart_spaces in Hs by (try exact Hu; reflexivity).
    rewrite char_eqb_refl in Hs. cbn [andb] in Hs.
    change (ch "{" :: v) with (str "{" ++ v). rewrite rmatch_Lit_app, rmatch_Seq.
    apply star_class_None. intros u' v' -> Hu'. apply all_space_class in Hu'.
    apply rmatch_Lit_None. cbn [rest].
    destruct v' as [|a v']; [reflexivity|].
    change (strip_prefix [nl] (a :: v')) with (if char_eqb nl a then Some v' else None).
    destruct (char_eqb nl a) eqn:Ha; [|reflexivity].
    apply char_eqb_eq in Ha. subst a.
    rewrite (space_run_newline _ _ Hu') in Hs. discriminate.
  + apply rmatch_Lit_None. cbn [rest].
    change (strip_prefix (str "{") (b :: v))
      with (if char_eqb (ch "{") b then Some v else None).
    rewrite Hb. reflexivity.
Qed.

Lemma linux_field_test content : test has_linux_exec_re content = linux_has_field content.
Proof.
apply (exec_name_test linux_block (str "linux:") false (linux_block_spec true)).
Qed.

Lemma win_field_test content :
  test has_win_exec_re content
  = scan (block_here (str "win:") true (scan (field_here starts_with_quote) false)) false content.
Proof.
apply (exec_name_test win_block (str "win:") true (win_block_spec true)).
Qed.

(** ** The cases of the executable-name patches *)

(** [ensureLinuxExecutableName] fails exactly when the text has
    neither a [linux:] whose brace is followed, anywhere later, by
    [executableName:] at a word boundary, white space, if any, and a
    quote character, nor a [linux:] followed by white space, if any,
    a brace and white space with a newline.  It then throws the error
    of [replaceOrThrow] for the insertion; in every other case it
    returns a text. *)
Theorem linux_executable_name_fails_exactly_when (content executableName : jsstring) :
  (linux_has_field content = false -> linux_has_opening content = false ->
   ensureLinuxExecutableName content executableName
   = Throw (Error linux_anchor_missing_message))
  /\
  (linux_has_field content = true \/ linux_has_opening content = true ->
   exists next, ensureLinuxExecutableName content executableName = Return next).
Proof.
unfold ensureLinuxExecutableName, replaceOrThrow.
rewrite linux_field_test, linux_open_test. split.
- intros -> ->. reflexivity.
- intros [-> | ->].
  + eexists. reflexivity.
  + destruct (linux_has_field content); eexists; reflexivity.
Qed.

Lemma linux_executable_name_fails_exactly_when_witness :
  ensureLinuxExecutableName (str "export default { linux: { target: 'deb' } };") (str "acme")
  = Throw (Error linux_anchor_missing_message).
Proof.
apply (proj1 (linux_executable_name_fails_exactly_when
                (str "export default { linux: { target: 'deb' } };") (str "acme")));
  vm_compute; reflexivity.
Defined.

(** When some [executableName:] after the brace of a [linux:] is
    followed by a quote character, and no [executableName:] after the
    brace of a [linux:] -- in that block or further in the text -- has
    a value that the replacing pattern accepts, a non-empty text
    without quote characters between two equal quotes,
    [ensureLinuxExecutableName] returns the text as it is, without an
    error. *)
Theorem linux_executable_name_without_value (content executableName : jsstring) :
  linux_has_field content = true -> linux_has_value content = false ->
  ensureLinuxExecutableName content executableName = Return content.
Proof.
intros Hfield Hvalue. unfold ensureLinuxExecutableName.
rewrite linux_field_test, Hfield. unfold replace_with, linux_exec_re.
rewrite (exec_name_exec_None linux_block (str "linux:") false (linux_block_spec true)
           _ content Hvalue).
reflexivity.
Qed.

Lemma linux_executable_name_without_value_witness :
  let content := str "linux: { executableName: " ++ dq :: dq :: str " }" in
  ensureLinuxExecutableName content (str "acme") = Return content.
Proof.
intros content.
apply (linux_executable_name_without_value content (str "acme")); vm_compute; reflexivity.
Defined.

Lemma scan_weaken (here1 here2 : bool -> jsstring -> bool) s :
  (forall pw t, here1 pw t = true -> here2 pw t = true) ->
  forall pw, scan here1 pw s = true -> scan here2 pw s = true.
Proof.
intros Hw. induction s as [|a s IH]; intros pw H; cbn [scan] in *.
- rewrite orb_false_r in *. apply Hw, H.
- apply orb_prop in H as [H|H]; [rewrite (Hw _ _ H); reflexivity|].
  rewrite (IH _ H). apply orb_true_r.
Qed.

Lemma field_here_weaken (ok1 ok2 : jsstring -> bool) pw t :
  (forall r, ok1 r = true -> ok2 r = true) ->
  field_here ok1 pw t = true -> field_here ok2 pw t = true.
Proof.
intros Hw. unfold field_here. intros [-> H]%andb_prop.
destruct (strip_prefix exe_field t); [|discriminate]. apply Hw, H.
Qed.

Lemma block_here_weaken name boundary (ok1 ok2 : jsstring -> bool) pw t :
  (forall r, ok1 r = true -> ok2 r = true) ->
  block_here name boundary ok1 pw t = true -> block_here name boundary ok2 pw t = true.
Proof.
intros Hw. unfold block_here. intros [-> H]%andb_prop.
destruct (strip_prefix name t) as [r|]; [|discriminate].
destruct (trimStart r); [discriminate|]. apply andb_prop in H as [-> H].
apply Hw, H.
Qed.

Lemma quoted_value_starts t : quoted_value t = true -> starts_with_quote t = true.
Proof.
destruct t as [|q r]; [discriminate|]. cbn [quoted_value starts_with_quote].
intros [[H _]%andb_prop _]%andb_prop. exact H.
Qed.

(** A block with a quoted value of the field has the field followed
    by a quote. *)
Lemma value_has_field name boundary content :
  scan (block_here name boundary (scan (field_here quoted_value) false)) false content = true ->
  scan (block_here name boundary (scan (field_here starts_with_quote) false)) false content
  = true.
Proof.
apply scan_weaken. intros pw t. apply block_here_weaken. intros r.
apply scan_weaken. intros pw' t'. apply field_here_weaken, quoted_value_starts.
Qed.

(** The test that guards the alignment of the Windows executable name
    changes nothing: the statement is the replacement alone.  It
    leaves the text as it is unless some [win:] at a word boundary is
    followed by white space, if any, a brace and, anywhere later,
    [executableName:] at a word boundary with a quoted value; it
    never fails. *)
Theorem win_executable_name_needs_value (content executableName : jsstring) :
  alignWinExecutableName content executableName
  = replace_with content win_exec_re (exec_name_replacer executableName)
  /\
  (win_has_value content = false ->
   alignWinExecutableName content executableName = content).
Proof.
assert (win_has_value content = false ->
        replace_with content win_exec_re (exec_name_replacer executableName) = content) as Hno.
{ intros Hvalue. unfold replace_with, win_exec_re.
  rewrite (exec_name_exec_None win_block (str "win:") true (win_block_spec true)
             _ content Hvalue).
  reflexivity. }
unfold alignWinExecutableName. rewrite win_field_test.
destruct (scan (block_here (str "win:") true (scan (field_here starts_with_quote) false))
            false content) eqn:Hfield.
- split; [reflexivity|exact Hno].
- assert (win_has_value content = false) as Hvalue.
  { destruct (win_has_value content) eqn:E; [|reflexivity].
    apply value_has_field in E. rewrite E in Hfield. discriminate. }
  split; [symmetry; apply Hno, Hvalue|reflexivity].
Qed.

Lemma win_executable_name_needs_value_witness :
  let content := str "darwin: { executableName: 'flow' }" in
  alignWinExecutableName content (str "acme") = content.
Proof.
intros content.
apply (proj2 (win_executable_name_needs_value content (str "acme"))). vm_compute. reflexivity.
Defined.

(** ** Texts without a block, a field or an opening *)

Lemma scan_false_intro (here : bool -> jsstring -> bool) s pw :
  (forall u v, s = u ++ v -> here (word_at_end u pw) v = false) ->
  scan here pw s = false.
Proof.
intros H. destruct (scan here pw s) eqn:E; [|reflexivity].
destruct (scan_true here s pw E) as (u & v & Hs & Hv).
rewrite (H u v Hs) in Hv. discriminate.
Qed.

Lemma scan_weaken_false (here1 here2 : bool -> jsstring -> bool) s pw :
  (forall pw t, here1 pw t = true -> here2 pw t = true) ->
  scan here2 pw s = false -> scan here1 pw s = false.
Proof.
intros Hw H. destruct (scan here1 pw s) eqn:E; [|reflexivity].
rewrite (scan_weaken here1 here2 s Hw pw E) in H. discriminate.
Qed.

(** A text without a block has neither the field nor the opening. *)
Lemma no_block_no_field content :
  linux_has_block content = false -> linux_has_field content = false.
Proof.
apply scan_weaken_false. intros pw t. apply block_here_weaken. reflexivity.
Qed.

Lemma no_block_no_opening content :
  linux_has_block content = false -> linux_has_opening content = false.
Proof.
apply scan_weaken_false. intros pw t. apply block_here_weaken. reflexivity.
Qed.

Lemma ensureLinuxExecutableName_no_anchor content name :
  linux_has_field content = false -> linux_has_opening content = false ->
  ensureLinuxExecutableName content name = Throw (Error linux_anchor_missing_message).
Proof.
intros Hfield Hopen. unfold ensureLinuxExecutableName, replaceOrThrow.
rewrite linux_field_test, linux_open_test, Hfield, Hopen. reflexivity.
Qed.

(** The occurrences of [linux:] do not overlap: when the text after
    the first one holds no other, the first is the only one. *)
Lemma linux_only_once content pre after u t :
  find (str "linux:") content = Some (pre, after) ->
  includes after (str "linux:") = false ->
  content = u ++ str "linux:" ++ t ->
  t = after.
Proof.
intros Hfind Hno Hc. apply find_Some in Hfind as [Hs Hfirst]. rewrite Hs in Hc.
apply app_eq_app in Hc as [l [[Hpre Hl]|[Hu Hl]]].
- destruct l as [|a l].
  + cbn [app] in Hl. apply app_inv_head in Hl. exact Hl.
  + exfalso. specialize (Hfirst u (a :: l) Hpre ltac:(discriminate)).
    rewrite <- Hl in Hfirst. rewrite strip_prefix_app in Hfirst. discriminate.
- destruct l as [|a1 l]; [cbn [app] in Hl; apply app_inv_head in Hl; symmetry; exact Hl|].
  exfalso. change (str "linux:") with [ch "l"; ch "i"; ch "n"; ch "u"; ch "x"; ch ":"] in Hl.
  cbn [app] in Hl. injection Hl as _ Hl.
  do 5 (destruct l as [|? l]; [discriminate Hl|cbn [app] in Hl; injection Hl as _ Hl]).
  pose proof (includes_false _ _ l (str "linux:" ++ t) Hno Hl) as F.
  rewrite strip_prefix_app in F. discriminate.
Qed.

(** A one-line block: no newline in the white space after the brace
    of the only [linux:]. *)
Lemma linux_opening_absent content pre ws body :
  find (str "linux:") content = Some (pre, ws ++ ch "{" :: body) ->
  all_space ws = true ->
  includes (ws ++ ch "{" :: body) (str "linux:") = false ->
  space_run_has_newline body = false ->
  linux_has_opening content = false.
Proof.
intros Hfind Hws Hno Hbody. apply scan_false_intro. intros u v Hc.
unfold block_here. cbn [negb andb].
destruct (strip_prefix (str "linux:") v) as [t|] eqn:E; [|reflexivity].
apply strip_prefix_Some in E. subst v.
rewrite (linux_only_once content pre _ u t Hfind Hno Hc).
rewrite trimStart_spaces by (try exact Hws; reflexivity).
rewrite char_eqb_refl, Hbody. reflexivity.
Qed.

(** ** The Linux executable name *)

(** C4, counterexample.  A block without an [executableName] field
    into which nothing is inserted: for the block written on one line
    as [linux: { }] the patch fails, because the insertion pattern
    wants a newline after the brace. *)
Lemma linux_block_without_field_not_inserted :
  ensureLinuxExecutableName (str "linux: { }") (str "acme")
  = Throw (Error linux_anchor_missing_message).
Proof. vm_compute. reflexivity. Qed.

(** When the [linux] block has no [executableName] field and a later
    block has one, the patch rewrites the field of that block and
    leaves the [linux] block without one: the lazy quantifier of the
    pattern runs past the closing brace of the block. *)
Lemma linux_patch_rewrites_later_block :
  ensureLinuxExecutableName
    (lines [str "linux: {"; str "  target: 'deb'"; str "},";
            str "mac: {"; str "  executableName: 'Flow'"; str "}"]) (str "acme")
  = Return (lines [str "linux: {"; str "  target: 'deb'"; str "},";
                   str "mac: {"; str "  executableName: 'acme'"; str "}"]).
Proof. vm_compute. reflexivity. Qed.

(** C4, amended.  The first [linux:] of the text is followed by white
    space, if any, and a brace.  Patch: when the first
    [executableName:] after the brace stands in the block itself --
    every brace between the brace of the block and the field is closed
    before the field -- and has a quoted value, the value is replaced
    between its own quotes and nothing is added.  Insert: when no
    [executableName:] follows the first [linux:] and the brace is
    followed by white space with a newline in it, the line
    [executableName: "<name>",], for a name without a dollar sign, is
    put right after the last newline of that white space, which is the
    first line of the block when the newline comes directly after the
    brace.  One-line block: when the white space after the brace has no
    newline and neither [executableName:] nor another [linux:] comes
    after it, nothing is inserted and the patch fails with the
    pattern-not-found error. *)
Theorem linux_executable_name_patch (content name pre ws : jsstring) :
  (forall body mid ws2 q old post,
     block_opening (str "linux:") content pre ws body ->
     quoted_field body mid ws2 q old post ->
     braces_closed 0 mid = true ->
     ensureLinuxExecutableName content name
     = Return (pre ++ str "linux:" ++ ws ++ str "{" ++ mid ++ exe_field ++ ws2
                 ++ q :: name ++ q :: post))
  /\
  (forall ws1 ws2 t,
     find (str "linux:") content = Some (pre, ws ++ str "{" ++ ws1 ++ nl :: ws2 ++ t) ->
     includes (ws ++ str "{" ++ ws1 ++ nl :: ws2 ++ t) exe_field = false ->
     all_space ws = true -> all_space ws1 = true ->
     all_space ws2 = true -> no_newline ws2 = true -> starts_with_space t = false ->
     no_dollar name = true ->
     ensureLinuxExecutableName content name
     = Return (pre ++ str "linux:" ++ ws ++ str "{" ++ ws1 ++ nl
                 :: exec_name_line name ++ ws2 ++ t))
  /\
  (forall body,
     block_opening (str "linux:") content pre ws body ->
     space_run_has_newline body = false ->
     includes (ws ++ str "{" ++ body) exe_field = false ->
     includes (ws ++ str "{" ++ body) (str "linux:") = false ->
     ensureLinuxExecutableName content name = Throw (Error linux_anchor_missing_message)).
Proof.
split; [|split].
- intros body mid ws2 q old post Hopen Hfield _.
  apply (ensureLinuxExecutableName_replaces content pre ws body mid ws2 q old post Hopen Hfield).
- intros ws1 ws2 t Hfind Hno Hws Hws1 Hws2 Hnl Ht Hname.
  rewrite (ensureLinuxExecutableName_inserts content pre ws ws1 ws2 t Hfind Hws Hws1 Hws2 Hnl Ht
             Hno name Hname).
  f_equal. unfold exec_name_line. reassoc. reflexivity.
- intros body [Hfind Hws] Hbody Hfield Hlinux.
  apply ensureLinuxExecutableName_no_anchor.
  + rewrite <- linux_field_test. apply linux_field_absent.
    unfold no_field_after. rewrite Hfind. exact Hfield.
  + apply (linux_opening_absent content pre ws body); assumption.
Qed.

(** The amended claim on a block that has the field, in backticks and
    after a nested block; on a block that lacks it; and on a one-line
    block inside a configuration. *)
Lemma linux_executable_name_patch_witness :
  ensureLinuxExecutableName
    (lines [str "linux: {"; str "  desktop: { Name: 'Flow' },";
            str "  executableName: `flow`,"; str "}"]) (str "acme")
  = Return (lines [str "linux: {"; str "  desktop: { Name: 'Flow' },";
                   str "  executableName: `acme`,"; str "}"])
  /\
  ensureLinuxExecutableName (lines [str "linux: {"; str "  target: 1"; str "}"]) (str "acme")
  = Return (lines [str "linux: {"; str "    executableName: " ++ quoted "acme" ++ str ",";
                   str "  target: 1"; str "}"])
  /\
  ensureLinuxExecutableName (str "export default { linux: { target: 'deb' }, mac: { } };")
    (str "acme")
  = Throw (Error linux_anchor_missing_message).
Proof.
split; [|split].
- apply (proj1 (linux_executable_name_patch
                  (lines [str "linux: {"; str "  desktop: { Name: 'Flow' },";
                          str "  executableName: `flow`,"; str "}"])
                  (str "acme") [] (str " "))
           (nl :: str "  desktop: { Name: 'Flow' }," ++ nl :: str "  executableName: `flow`,"
               ++ nl :: str "}" ++ [nl])
           (nl :: str "  desktop: { Name: 'Flow' }," ++ nl :: str "  ")
           (str " ") (ch "`") (str "flow") (str "," ++ nl :: str "}" ++ [nl])).
  + split; reflexivity.
  + repeat split; try reflexivity. discriminate.
  + reflexivity.
- apply (proj1 (proj2 (linux_executable_name_patch
                         (lines [str "linux: {"; str "  target: 1"; str "}"])
                         (str "acme") [] (str " ")))
           [] (str "  ") (str "target: 1" ++ nl :: str "}" ++ [nl])); reflexivity.
- apply (proj2 (proj2 (linux_executable_name_patch
                         (str "export default { linux: { target: 'deb' }, mac: { } };")
                         (str "acme") (str "export default { ") (str " ")))
           (str " target: 'deb' }, mac: { } };")).
  + split; reflexivity.
  + reflexivity.
  + reflexivity.
  + reflexivity.
Defined.

(** ** The Windows executable name *)

(** C5.  The [win] block has no [executableName] field, and the step
    changes the text all the same: it rewrites the field of the
    [linux] block that follows, because the lazy quantifier of the
    pattern runs past the closing brace of the [win] block. *)
Lemma win_alignment_rewrites_linux_field :
  alignWinExecutableName
    (lines [str "win: { target: 'nsis' },"; str "linux: { executableName: 'flow' }"])
    (str "acme")
  = lines [str "win: { target: 'nsis' },"; str "linux: { executableName: 'acme' }"].
Proof. vm_compute. reflexivity. Qed.

(** ** The missing anchor *)

(** C6.  On a text without a [linux:] block -- no [linux:] followed by
    white space, if any, and a brace --, the Linux patch throws the
    pattern-not-found error, whose message names the field and the
    pattern; a handler whose text reaches the Linux patch without such
    a block throws that error after it has read the file, and writes
    nothing.  The block is the one the patterns see in the text: a
    [linux:] with a value that is no block, or no [linux:] at all. *)
Theorem linux_missing_anchor (content name : jsstring) :
  linux_has_block content = false ->
  ensureLinuxExecutableName content name = Throw (Error linux_anchor_missing_message)
  /\
  forall repoRoot appId productName w original,
    files w !! path_join repoRoot "electron-builder.ts" = Some original ->
    patchBuilderFields original appId productName name = Return content ->
    patchElectronBuilderTs repoRoot appId productName name w
    = (Throw (Error linux_anchor_missing_message),
       World (files w) (ReadFile (path_join repoRoot "electron-builder.ts") :: trace w)
         (stdout w)).
Proof.
intros Hno.
assert (ensureLinuxExecutableName content name = Throw (Error linux_anchor_missing_message))
  as Hthrow.
{ apply ensureLinuxExecutableName_no_anchor;
    [apply no_block_no_field|apply no_block_no_opening]; exact Hno. }
split; [exact Hthrow|].
intros repoRoot appId productName w original Hfile Hfields.
apply (patchElectronBuilderTs_throws _ _ _ _ _ original); [exact Hfile|].
unfold patchElectronBuilderContent. rewrite Hfields. cbn [obind]. exact Hthrow.
Qed.

(** A builder configuration whose [linux:] has a value that is no
    block: the patch and the handler throw, and the handler has only
    read the file. *)
Lemma linux_missing_anchor_witness :
  let original := str "appId: 'a', productName: 'b', linux: 'deb'" in
  let content := str "appId: " ++ quoted "dev.sun.acme" ++ str "', productName: "
                   ++ quoted "Acme" ++ str "', linux: 'deb'" in
  let w := World (<[builder_ts_path := original]> fixture_files) [] [] in
  ensureLinuxExecutableName content (str "acme") = Throw (Error linux_anchor_missing_message)
  /\
  patchElectronBuilderTs "/repo" (str "dev.sun.acme") (str "Acme") (str "acme") w
  = (Throw (Error linux_anchor_missing_message),
     World (files w) [ReadFile builder_ts_path] []).
Proof.
intros original content w.
assert (linux_has_block content = false) as Hno by (vm_compute; reflexivity).
split.
- apply (proj1 (linux_missing_anchor content (str "acme") Hno)).
- apply (proj2 (linux_missing_anchor content (str "acme") Hno)
           "/repo" (str "dev.sun.acme") (str "Acme") w original);
    vm_compute; reflexivity.
Defined.

(** The block is recognised in the text, not in the program: a
    [linux:] with a brace inside a comment is a block for the patch,
    which inserts the field after it and raises no error. *)
Lemma commented_linux_block_is_patched :
  ensureLinuxExecutableName (lines [str "// linux: {"; str "mac: { }"]) (str "acme")
  = Return (lines [str "// linux: {"; str "    executableName: " ++ quoted "acme" ++ str ",";
                   str "mac: { }"]).
Proof. vm_compute. reflexivity. Qed.
